(** * A log-structured key-value store: record codec, segments, index, writer and merger

    Shallow embedding of [datastore/entry.go] and [datastore/db.go].

    Conventions of the embedding
    - a Go [string] is a sequence of bytes: [String.string];
    - a Go [[]byte] is a [list byte]; slices are modelled with capacity equal to length;
    - [uint32] arithmetic wraps modulo [2^32] and the wrap is written out ([uint32]);
    - [int] and [int64] values are integers of [Z]; lengths never leave the [int] range;
    - a Go run-time panic (slice bounds out of range) is the outcome [Panics]. *)

From Stdlib Require Import ZArith List Lia Sorted.
From Stdlib Require Import Strings.Byte Strings.String Strings.Ascii.
From stdpp Require Import gmap strings list fin_maps.

Local Open Scope Z_scope.

(** ** Bytes and little-endian integers *)

Definition Z_of_byte (b : byte) : Z := Z.of_N (Byte.to_N b).

(** Go's conversion [byte(v)]: the low eight bits. *)
Definition byte_of_Z (z : Z) : byte :=
  match Byte.of_N (Z.to_N (z mod 256)) with
  | Some b => b
  | None => x00
  end.

(** Go's conversion [uint32(v)]. *)
Definition uint32 (z : Z) : Z := z mod 2 ^ 32.

(** Go's conversion [uint64(v)] of an [int64]. *)
Definition uint64 (z : Z) : Z := z mod 2 ^ 64.

(** Go's conversion [int64(v)] of a [uint64]. *)
Definition int64 (z : Z) : Z :=
  if z mod 2 ^ 64 <? 2 ^ 63 then z mod 2 ^ 64 else z mod 2 ^ 64 - 2 ^ 64.

(** [binary.LittleEndian.PutUint32] ([n = 4]) and [PutUint64] ([n = 8]):
    byte [i] is [byte(v >> (8*i))]. *)
Fixpoint le_put (n : nat) (v : Z) : list byte :=
  match n with
  | O => []
  | S n' => byte_of_Z v :: le_put n' (Z.shiftr v 8)
  end.

(** [binary.LittleEndian.Uint32] / [Uint64]: [b[0] | b[1]<<8 | ...]. *)
Fixpoint le_get (bs : list byte) : Z :=
  match bs with
  | [] => 0
  | b :: r => Z.lor (Z_of_byte b) (Z.shiftl (le_get r) 8)
  end.

(** ** Outcomes, errors *)

(** A call returns, panics, or (for the loops that the embedding bounds
    by a counter) is [Unfinished] when the counter runs out. *)
Inductive outcome (A : Type) : Type :=
| Returns (a : A)
| Panics
| Unfinished.
Arguments Returns {A} a.
Arguments Panics {A}.
Arguments Unfinished {A}.

Definition obind {A B} (c : outcome A) (k : A -> outcome B) : outcome B :=
  match c with
  | Returns a => k a
  | Panics => Panics
  | Unfinished => Unfinished
  end.

Notation "'let*' x ':=' c 'in' k" := (obind c (fun x => k))
  (at level 10, x pattern, c at level 100, k at level 200).

(** The error values the package produces.  The [fmt.Errorf] errors are
    told apart by their message; [EOF] is [io.EOF]. *)
Inductive error : Type :=
| ErrNotFound
| ErrTypeMismatch
| EOF
| ErrInputTooShort
| ErrInputTooShortForKey
| ErrNoValueData
| ErrInvalidStringValueData
| ErrStringValueDataTooShort
| ErrInvalidInt64ValueData
| ErrInvalidEntrySize (totalSize : Z)
| ErrIncompleteRead (expected got : Z)
| ErrUnsupportedValueType (t : byte)
| ErrBufferFull
| ErrCannotReadSize (cause : error)
| ErrCannotReadEntry (cause : error)
| ErrNotExist
| ErrWrite
| ErrClosed
| ErrSeek
| ErrCorruptedSegment
| ErrIndexSegment (id : Z) (cause : error)
| ErrRebuildAfterMerge (cause : error).

(** [errors.Is(err, io.EOF)]: the errors built with [%w] wrap their
    cause; the other [fmt.Errorf] errors wrap nothing. *)
Fixpoint is_EOF (e : error) : bool :=
  match e with
  | EOF => true
  | ErrCannotReadSize c => is_EOF c
  | ErrCannotReadEntry c => is_EOF c
  | ErrIndexSegment _ c => is_EOF c
  | ErrRebuildAfterMerge c => is_EOF c
  | _ => false
  end.

(** ** Slices *)

(** [s[lo:hi]]; panics unless [0 <= lo <= hi <= len(s)]. *)
Definition slice (s : list byte) (lo hi : Z) : outcome (list byte) :=
  if (0 <=? lo) && (lo <=? hi) && (hi <=? Z.of_nat (length s))
  then Returns (take (Z.to_nat (hi - lo)) (drop (Z.to_nat lo) s))
  else Panics.

(** [s[i]]; panics when the index is out of range. *)
Definition at_index (s : list byte) (i : Z) : outcome byte :=
  if (0 <=? i) && (i <? Z.of_nat (length s))
  then match s !! Z.to_nat i with
       | Some b => Returns b
       | None => Panics
       end
  else Panics.

Definition len (s : list byte) : Z := Z.of_nat (length s).

(** ** Records *)

Definition TypeString : byte := x01.
Definition TypeInt64 : byte := x02.

Record entry : Type := mkEntry {
  key : string;
  valueType : byte;
  stringValue : string;
  int64Value : Z
}.

(** The zero value [entry{}] of a [var record entry]. *)
Definition zero_entry : entry := mkEntry EmptyString x00 EmptyString 0.

Definition bytes_of (s : string) : list byte := list_byte_of_string s.
Definition string_of (b : list byte) : string := string_of_list_byte b.

(** The value payload built by the [switch] of [Encode]. *)
Definition valueData_of (e : entry) : list byte :=
  if Byte.eqb (valueType e) TypeString then
    le_put 4 (uint32 (len (bytes_of (stringValue e)))) ++ bytes_of (stringValue e)
  else if Byte.eqb (valueType e) TypeInt64 then
    le_put 8 (uint64 (int64Value e))
  else
    le_put 4 (uint32 (len (bytes_of (stringValue e)))) ++ bytes_of (stringValue e).

(** The type tag [Encode] leaves in its receiver and writes at [8+kl]:
    unknown tags are rewritten to [TypeString]. *)
Definition encoded_type (e : entry) : byte :=
  if Byte.eqb (valueType e) TypeString then TypeString
  else if Byte.eqb (valueType e) TypeInt64 then TypeInt64
  else TypeString.

(** [entry.Encode]: the five regions of [result] are filled in order and
    do not overlap, so the result is their concatenation. *)
Definition Encode (e : entry) : list byte :=
  let kl := len (bytes_of (key e)) in
  let valueData := valueData_of e in
  let size := 4 + 4 + kl + 1 + len valueData in
  le_put 4 (uint32 size) ++ le_put 4 (uint32 kl) ++ bytes_of (key e)
    ++ [encoded_type e] ++ valueData.

Definition set_key (e : entry) (k : string) : entry :=
  mkEntry k (valueType e) (stringValue e) (int64Value e).
Definition set_valueType (e : entry) (t : byte) : entry :=
  mkEntry (key e) t (stringValue e) (int64Value e).
Definition set_stringValue (e : entry) (s : string) : entry :=
  mkEntry (key e) (valueType e) s (int64Value e).
Definition set_int64Value (e : entry) (v : Z) : entry :=
  mkEntry (key e) (valueType e) (stringValue e) v.

(** The [switch e.valueType] of [Decode], on the value payload. *)
Definition Decode_value (e : entry) (t : byte) (valueData : list byte)
  : outcome (entry * option error) :=
  if Byte.eqb t TypeString then
    if len valueData <? 4 then Returns (e, Some ErrInvalidStringValueData) else
    let* sb := slice valueData 0 4 in
    let strLen := le_get sb in
    if len valueData <? uint32 (4 + strLen) then Returns (e, Some ErrStringValueDataTooShort) else
    let* s := slice valueData 4 (uint32 (4 + strLen)) in
    Returns (set_stringValue e (string_of s), None)
  else if Byte.eqb t TypeInt64 then
    if len valueData <? 8 then Returns (e, Some ErrInvalidInt64ValueData) else
    let* ib := slice valueData 0 8 in
    Returns (set_int64Value e (int64 (le_get ib)), None)
  else
    if 4 <=? len valueData then
      let* sb := slice valueData 0 4 in
      let strLen := le_get sb in
      if uint32 (4 + strLen) <=? len valueData then
        let* s := slice valueData 4 (uint32 (4 + strLen)) in
        Returns (set_valueType (set_stringValue e (string_of s)) TypeString, None)
      else
        Returns (set_valueType (set_stringValue e (string_of valueData)) TypeString, None)
    else
      Returns (set_valueType (set_stringValue e (string_of valueData)) TypeString, None).

(** [entry.Decode]: the receiver [e] is updated in place, also on the
    paths that end in an error; the result is the receiver afterwards and
    the error returned ([None] is [nil]). *)
Definition Decode (e : entry) (input : list byte) : outcome (entry * option error) :=
  if len input <? 9 then Returns (e, Some ErrInputTooShort) else
  let* kb := slice input 4 8 in
  let keyLen := le_get kb in
  if len input <? uint32 (8 + keyLen + 1) then Returns (e, Some ErrInputTooShortForKey) else
  let* k := slice input 8 (uint32 (8 + keyLen)) in
  let e := set_key e (string_of k) in
  let typeOffset := uint32 (8 + keyLen) in
  if uint32 (len input) <=? typeOffset then
    let* v := slice input (uint32 (8 + keyLen)) (len input) in
    Returns (set_stringValue (set_valueType e TypeString) (string_of v), None)
  else
  let* t := at_index input typeOffset in
  let e := set_valueType e t in
  let valueDataStart := uint32 (typeOffset + 1) in
  if len input <=? valueDataStart then Returns (e, Some ErrNoValueData) else
  let* valueData := slice input valueDataStart (len input) in
  Decode_value e t valueData.

(** ** Buffered readers

    [bufio.Reader] over a source that is a file or a [bytes.Reader]: a
    [Read] of the source into [n > 0] free bytes delivers
    [min n remaining] bytes, and [(0, io.EOF)] when nothing remains.
    [buf] is the unread part [b.buf[b.r:b.w]] of the buffer, whose size
    is [defaultBufSize]. *)

Definition defaultBufSize : Z := 4096.

Record Reader : Type := mkReader {
  rd : list byte;
  buf : list byte;
  rerr : option error
}.

Definition NewReader (src : list byte) : Reader := mkReader src [] None.

Definition src_read (src : list byte) (n : nat) : list byte * list byte * option error :=
  match src with
  | [] => ([], [], Some EOF)
  | _ => (take n src, drop n src, None)
  end.

(** [b.fill()]: slide the unread bytes to the front and read once into
    the free space behind them. *)
Definition fill (b : Reader) : Reader :=
  let '(got, rest, err) := src_read (rd b) (Z.to_nat (defaultBufSize - len (buf b))) in
  mkReader rest (buf b ++ got) err.

Definition peek_more (n : Z) (b : Reader) : bool :=
  (len (buf b) <? n) && (len (buf b) <? defaultBufSize)
  && match rerr b with None => true | Some _ => false end.

(** The loop of [Peek]; every turn that sets no error adds a byte, so
    [n] turns are enough (see [peek_fill_exit]). *)
Fixpoint peek_fill (fuel : nat) (n : Z) (b : Reader) : Reader :=
  match fuel with
  | O => b
  | S fuel' => if peek_more n b then peek_fill fuel' n (fill b) else b
  end.

Definition Peek (b : Reader) (n : Z) : Reader * list byte * option error :=
  let b := peek_fill (Z.to_nat n) n b in
  if defaultBufSize <? n then (b, buf b, Some ErrBufferFull)
  else if len (buf b) <? n then
    (mkReader (rd b) (buf b) None, buf b,
     Some (match rerr b with Some e => e | None => ErrBufferFull end))
  else (b, take (Z.to_nat n) (buf b), None).

(** [b.Read(p)] with [len(p) = n]: the bytes stored in [p[:n']] and the
    error.  With unread bytes in the buffer it copies from the buffer
    only. *)
Definition Read (b : Reader) (n : Z) : Reader * list byte * option error :=
  if n =? 0 then
    match buf b with
    | [] => (mkReader (rd b) [] None, [], rerr b)
    | _ => (b, [], None)
    end
  else
    match buf b with
    | [] =>
      match rerr b with
      | Some e => (mkReader (rd b) [] None, [], Some e)
      | None =>
        if defaultBufSize <=? n then
          let '(got, rest, err) := src_read (rd b) (Z.to_nat n) in
          (mkReader rest [] None, got, err)
        else
          let '(got, rest, err) := src_read (rd b) (Z.to_nat defaultBufSize) in
          match got with
          | [] => (mkReader rest [] None, [], err)
          | _ => (mkReader rest (drop (Z.to_nat n) got) err, take (Z.to_nat n) got, None)
          end
      end
    | _ => (mkReader (rd b) (drop (Z.to_nat n) (buf b)) (rerr b),
            take (Z.to_nat n) (buf b), None)
    end.

(** [entry.DecodeFromReader]: the reader afterwards, the receiver
    afterwards, the count [n] and the error. *)
Definition DecodeFromReader (e : entry) (b : Reader)
  : outcome (Reader * entry * Z * option error) :=
  let '(b, sizeBuf, err) := Peek b 4 in
  match err with
  | Some err =>
    if is_EOF err then Returns (b, e, 0, Some err)
    else Returns (b, e, 0, Some (ErrCannotReadSize err))
  | None =>
    let totalSize := le_get sizeBuf in
    if totalSize <? 9 then Returns (b, e, 0, Some (ErrInvalidEntrySize totalSize)) else
    let '(b, data, err) := Read b totalSize in
    let n := len data in
    match err with
    | Some err => Returns (b, e, n, Some (ErrCannotReadEntry err))
    | None =>
      if negb (n =? totalSize) then Returns (b, e, n, Some (ErrIncompleteRead totalSize n))
      else
        let* r := Decode e data in
        Returns (b, fst r, n, snd r)
    end
  end.

(** ** The data directory

    The files of the data directory, by name: [current-data],
    [segment-<id>], [temp-merge], and anything else.  A file is its
    content.  A call on the directory fails only for a reason the
    directory itself shows (the file is not there); the one injected
    fault is that of the append to the active segment ([write_fault]). *)

Inductive path : Type :=
| current_data
| segment_file (id : Z)
| temp_merge
| other_file (name : string).

#[global] Instance path_eq_dec : EqDecision path.
Proof. solve_decision. Defined.

#[global] Instance path_countable : Countable path.
Proof.
  refine (inj_countable'
    (fun p => match p with
              | current_data => inl ()
              | segment_file i => inr (inl i)
              | temp_merge => inr (inr (inl ()))
              | other_file n => inr (inr (inr n))
              end)
    (fun x => match x with
              | inl _ => current_data
              | inr (inl i) => segment_file i
              | inr (inr (inl _)) => temp_merge
              | inr (inr (inr n)) => other_file n
              end) _).
  by intros [].
Defined.

Abbreviation FS := (gmap path (list byte)).

(** [os.Rename]: replaces the target; fails when the source is missing. *)
Definition rename (old new : path) (fs : FS) : option FS :=
  match fs !! old with
  | Some c => Some (<[new := c]> (delete old fs))
  | None => None
  end.

(** ** The engine *)

Record segmentInfo : Type := mkSegment {
  id : Z;
  filePath : path;
  readOnly : bool
}.

Record indexEntry : Type := mkIndexEntry {
  segmentID : Z;
  offset : Z
}.

Abbreviation hashIndex := (gmap string indexEntry).

Record putRequest : Type := mkRequest {
  req_key : string;
  req_value : string;
  req_int64Value : Z;
  req_valueType : byte
}.

(** The state of an [*os.File]. *)
Inductive handle : Type := handle_open | handle_closed.

(** The fields of [Db] that the writer and the readers use; the
    channels, wait groups and locks have no counterpart here: requests
    are applied one at a time, as the writer goroutine applies them. *)
Record Db : Type := mkDb {
  index : hashIndex;
  maxSegmentSize : Z;
  activeSegmentID : Z;
  segments : list segmentInfo;
  out : option handle;
  outOffset : Z
}.

Definition set_index (db : Db) (i : hashIndex) : Db :=
  mkDb i (maxSegmentSize db) (activeSegmentID db) (segments db) (out db) (outOffset db).
Definition set_segments (db : Db) (a : Z) (l : list segmentInfo) : Db :=
  mkDb (index db) (maxSegmentSize db) a l (out db) (outOffset db).
Definition set_out (db : Db) (h : option handle) (o : Z) : Db :=
  mkDb (index db) (maxSegmentSize db) (activeSegmentID db) (segments db) h o.

(** [sort.Slice(l, func(i, j) { return l[i].id < l[j].id })], as an
    insertion sort; the ids sorted by the engine are distinct. *)
Fixpoint insert_by {A : Type} (f : A -> Z) (x : A) (l : list A) : list A :=
  match l with
  | [] => [x]
  | y :: r => if f x <? f y then x :: l else y :: insert_by f x r
  end.

Definition sort_by {A : Type} (f : A -> Z) (l : list A) : list A :=
  foldr (insert_by f) [] l.

(** The names [os.ReadDir] lists. *)
Definition ReadDir (fs : FS) : list path := (map_to_list fs).*1.

(** The loop of [loadExistingSegments] over the directory entries. *)
Definition scan_entry (acc : list segmentInfo * Z * bool) (name : path)
  : list segmentInfo * Z * bool :=
  let '(infos, maxSegmentID, hasCurrentData) := acc in
  match name with
  | segment_file i =>
    (infos ++ [mkSegment i name true],
     if maxSegmentID <? i then i else maxSegmentID, hasCurrentData)
  | current_data => (infos, maxSegmentID, true)
  | _ => acc
  end.

Definition loadExistingSegments (db : Db) (fs : FS) : Db :=
  let '(segmentInfos, maxSegmentID, hasCurrentData) :=
    foldl scan_entry ([], -1, false) (ReadDir fs) in
  let segmentInfos := sort_by id segmentInfos in
  if hasCurrentData then set_segments db (maxSegmentID + 1) segmentInfos
  else if 0 <=? maxSegmentID then set_segments db (maxSegmentID + 1) segmentInfos
  else set_segments db 0 segmentInfos.

(** [openActiveSegment]: open [current-data] for appending, creating it
    when it is missing; [outOffset] is its size. *)
Definition openActiveSegment (db : Db) (fs : FS) : Db * FS :=
  let content := default [] (fs !! current_data) in
  (set_out db (Some handle_open) (len content), <[current_data := content]> fs).

(** The loop of [indexSegmentFile]. *)
Fixpoint index_records (fuel : nat) (reader : Reader) (offset : Z) (segmentID : Z)
    (index : hashIndex) : outcome (hashIndex * option error) :=
  match fuel with
  | O => Unfinished
  | S fuel' =>
    let* r := DecodeFromReader zero_entry reader in
    let '(reader', record, n, err) := r in
    match err with
    | Some err =>
      if is_EOF err then
        if negb (n =? 0) then Returns (index, Some ErrCorruptedSegment)
        else Returns (index, None)
      else Returns (index, Some err)
    | None =>
      index_records fuel' reader' (offset + n) segmentID
        (<[key record := mkIndexEntry segmentID offset]> index)
    end
  end.

Definition indexSegmentFile (fs : FS) (filePath : path) (segmentID : Z) (index : hashIndex)
  : outcome (hashIndex * option error) :=
  match fs !! filePath with
  | None => Returns (index, None)
  | Some content => index_records (S (length content)) (NewReader content) 0 segmentID index
  end.

(** The loop of [rebuildIndex] over the sorted segments. *)
Fixpoint index_segments (fs : FS) (allSegments : list (Z * path)) (newIndex : hashIndex)
  : outcome (hashIndex * option error) :=
  match allSegments with
  | [] => Returns (newIndex, None)
  | seg :: rest =>
    let* r := indexSegmentFile fs (snd seg) (fst seg) newIndex in
    match snd r with
    | Some err => Returns (fst r, Some (ErrIndexSegment (fst seg) err))
    | None => index_segments fs rest (fst r)
    end
  end.

Definition rebuildIndex (db : Db) (fs : FS) : outcome (Db * option error) :=
  let allSegments :=
    map (fun seg => (id seg, filePath seg)) (segments db)
    ++ match out db with
       | Some _ => [(activeSegmentID db, current_data)]
       | None => []
       end in
  let allSegments := sort_by fst allSegments in
  let* r := index_segments fs allSegments ∅ in
  match snd r with
  | Some err => Returns (db, Some err)
  | None => Returns (set_index db (fst r), None)
  end.

(** [OpenWithMaxSegmentSize], up to the start of the two goroutines. *)
Definition OpenWithMaxSegmentSize (fs : FS) (maxSegmentSize : Z)
  : outcome (Db * FS * option error) :=
  let db := mkDb ∅ maxSegmentSize 0 [] None 0 in
  let db := loadExistingSegments db fs in
  let '(db, fs) := openActiveSegment db fs in
  let* r := rebuildIndex db fs in
  Returns (fst r, fs, snd r).

Definition defaultMaxSegmentSize : Z := 10 * 1024 * 1024.

Definition Open (fs : FS) : outcome (Db * FS * option error) :=
  OpenWithMaxSegmentSize fs defaultMaxSegmentSize.

(** [Close]: the goroutines stop and the active file is closed. *)
Definition Close (db : Db) (fs : FS) : Db * FS * option error :=
  match out db with
  | Some handle_open => (set_out db (Some handle_closed) (outOffset db), fs, None)
  | Some handle_closed => (db, fs, Some ErrClosed)
  | None => (db, fs, None)
  end.

(** ** Readers *)

(** The file an index entry points into. *)
Definition file_of (db : Db) (ie : indexEntry) : path :=
  if segmentID ie =? activeSegmentID db then current_data
  else segment_file (segmentID ie).

(** [readEntryFromFile]: seek, then decode one record with a new
    buffered reader. *)
Definition readEntryFromFile (content : list byte) (offset : Z)
  : outcome (entry * option error) :=
  if offset <? 0 then Returns (zero_entry, Some ErrSeek) else
  let* r := DecodeFromReader zero_entry (NewReader (drop (Z.to_nat offset) content)) in
  let '(_, record, _, err) := r in
  Returns (record, err).

Definition Get (db : Db) (fs : FS) (key : string) : outcome (string * option error) :=
  match index db !! key with
  | None => Returns (EmptyString, Some ErrNotFound)
  | Some indexEntry =>
    match fs !! file_of db indexEntry with
    | None => Returns (EmptyString, Some ErrNotExist)
    | Some content =>
      let* r := readEntryFromFile content (offset indexEntry) in
      match snd r with
      | Some err => Returns (EmptyString, Some err)
      | None =>
        if negb (Byte.eqb (valueType (fst r)) TypeString)
        then Returns (EmptyString, Some ErrTypeMismatch)
        else Returns (stringValue (fst r), None)
      end
    end
  end.

Definition GetInt64 (db : Db) (fs : FS) (key : string) : outcome (Z * option error) :=
  match index db !! key with
  | None => Returns (0, Some ErrNotFound)
  | Some indexEntry =>
    match fs !! file_of db indexEntry with
    | None => Returns (0, Some ErrNotExist)
    | Some content =>
      let* r := readEntryFromFile content (offset indexEntry) in
      match snd r with
      | Some err => Returns (0, Some err)
      | None =>
        if negb (Byte.eqb (valueType (fst r)) TypeInt64)
        then Returns (0, Some ErrTypeMismatch)
        else Returns (int64Value (fst r), None)
      end
    end
  end.

(** ** The writer *)

(** What the append to the active segment does: it stores all the bytes,
    or it stores the first [written] of them and reports an error. *)
Inductive write_fault : Type :=
| write_ok
| write_fails (written : nat).

(** [db.out.Write(data)]: the handle appends to [current-data]. *)
Definition out_Write (db : Db) (w : write_fault) (fs : FS) (data : list byte)
  : FS * Z * option error :=
  match out db with
  | Some handle_open =>
    let old := default [] (fs !! current_data) in
    match w with
    | write_ok => (<[current_data := old ++ data]> fs, len data, None)
    | write_fails k =>
      (<[current_data := old ++ take k data]> fs, len (take k data), Some ErrWrite)
    end
  | _ => (fs, 0, Some ErrClosed)
  end.

(** [rotateActiveSegment]; the non-blocking send on [mergeChan] that
    ends it changes nothing here. *)
Definition rotateActiveSegment (db : Db) (fs : FS) : Db * FS * option error :=
  match out db with
  | None => (db, fs, None)
  | Some _ =>
    let db := set_out db (Some handle_closed) (outOffset db) in
    let currentActiveID := activeSegmentID db in
    let newPath := segment_file currentActiveID in
    match rename current_data newPath fs with
    | None => (db, fs, Some ErrNotExist)
    | Some fs =>
      let db := set_segments db (activeSegmentID db + 1)
                  (segments db ++ [mkSegment currentActiveID newPath true]) in
      let '(db, fs) := openActiveSegment db fs in
      (db, fs, None)
    end
  end.

(** The inner loop of [mergeSegments] over the records of one file. *)
Fixpoint merge_records (fuel : nat) (reader : Reader) (keyEntries : gmap string entry)
  : outcome (gmap string entry * option error) :=
  match fuel with
  | O => Unfinished
  | S fuel' =>
    let* r := DecodeFromReader zero_entry reader in
    let '(reader', record, _, err) := r in
    match err with
    | Some err =>
      if is_EOF err then Returns (keyEntries, None)
      else Returns (keyEntries, Some err)
    | None => merge_records fuel' reader' (<[key record := record]> keyEntries)
    end
  end.

(** The outer loop of [mergeSegments] over the sealed segments. *)
Fixpoint collect_segments (fs : FS) (segs : list segmentInfo) (keyEntries : gmap string entry)
  : outcome (gmap string entry * option error) :=
  match segs with
  | [] => Returns (keyEntries, None)
  | seg :: rest =>
    match fs !! filePath seg with
    | None => collect_segments fs rest keyEntries
    | Some content =>
      let* r := merge_records (S (length content)) (NewReader content) keyEntries in
      match snd r with
      | Some err => Returns (fst r, Some err)
      | None => collect_segments fs rest (fst r)
      end
    end
  end.

Section Writer.

(** The order in which [range keyEntries] visits the map; Go leaves it
    unspecified. *)
Variable order : gmap string entry -> list (string * entry).

Definition mergeSegments (db : Db) (fs : FS) : outcome (Db * FS * option error) :=
  let segmentsToMerge := segments db in
  let* r := collect_segments fs segmentsToMerge ∅ in
  match snd r with
  | Some err => Returns (db, fs, Some err)
  | None =>
    let keyEntries := fst r in
    if decide (size keyEntries = 0%nat) then Returns (db, fs, None) else
    let fs := <[temp_merge := concat (map (fun kv => Encode (snd kv)) (order keyEntries))]> fs in
    match segmentsToMerge with
    | [] => Panics
    | first :: _ =>
      let mergedPath := filePath first in
      let fs := foldl (fun fs seg => delete (filePath seg) fs) fs segmentsToMerge in
      match rename temp_merge mergedPath fs with
      | None => Returns (db, fs, Some ErrNotExist)
      | Some fs =>
        let db := set_segments db (activeSegmentID db) [mkSegment (id first) mergedPath true] in
        let* r := rebuildIndex db fs in
        match snd r with
        | Some err => Returns (fst r, fs, Some (ErrRebuildAfterMerge err))
        | None => Returns (fst r, fs, None)
        end
      end
    end
  end.

Definition MERGE : string := "__MERGE__".

(** The entry [handlePut] builds from a request ([switch req.valueType]);
    [None] is the [default] branch. *)
Definition request_entry (req : putRequest) : option entry :=
  if Byte.eqb (req_valueType req) TypeString
  then Some (mkEntry (req_key req) TypeString (req_value req) 0)
  else if Byte.eqb (req_valueType req) TypeInt64
  then Some (mkEntry (req_key req) TypeInt64 EmptyString (req_int64Value req))
  else None.

(** The second half of [handlePut]: build the entry, append it to the
    active segment, and on success update the index and the offset. *)
Definition append_entry (w : write_fault) (db : Db) (fs : FS) (req : putRequest)
  : outcome (Db * FS * option error) :=
  match request_entry req with
  | None => Returns (db, fs, Some (ErrUnsupportedValueType (req_valueType req)))
  | Some e =>
    let currentOffset := outOffset db in
    let data := Encode e in
    let '(fs, n, err) := out_Write db w fs data in
    match err with
    | Some err => Returns (db, fs, Some err)
    | None =>
      let currentActiveID := activeSegmentID db in
      let db := set_index db
                  (<[req_key req := mkIndexEntry currentActiveID currentOffset]> (index db)) in
      Returns (set_out db (out db) (outOffset db + n), fs, None)
    end
  end.

Definition handlePut (w : write_fault) (db : Db) (fs : FS) (req : putRequest)
  : outcome (Db * FS * option error) :=
  if String.eqb (req_key req) MERGE then mergeSegments db fs else
  let '(db, fs, rot) :=
    if maxSegmentSize db <=? outOffset db then rotateActiveSegment db fs
    else (db, fs, None) in
  match rot with
  | Some err => Returns (db, fs, Some err)
  | None => append_entry w db fs req
  end.

(** [Put] and [PutInt64]: the request each sends to the writer, and the
    writer's reply. *)
Definition Put (w : write_fault) (db : Db) (fs : FS) (key value : string)
  : outcome (Db * FS * option error) :=
  handlePut w db fs (mkRequest key value 0 TypeString).

Definition PutInt64 (w : write_fault) (db : Db) (fs : FS) (key : string) (value : Z)
  : outcome (Db * FS * option error) :=
  handlePut w db fs (mkRequest key EmptyString value TypeInt64).

End Writer.

(** The records of the data model: a [STRING] record carries a string
    and a zero integer, an [INT64] record an integer of 64 bits and an
    empty string; the encoded size fits the 4-byte size field. *)
Definition is_record (r : entry) : Prop :=
  len (Encode r) < 2 ^ 32 /\
  ((valueType r = TypeString /\ int64Value r = 0) \/
   (valueType r = TypeInt64 /\ stringValue r = EmptyString /\
    - 2 ^ 63 <= int64Value r < 2 ^ 63)).

(** *** What [Decode] checks

    The fields of an input that [Decode] reads: the declared key
    length at [4:8], the type tag behind the key, the payload behind the
    tag and, for a length-prefixed payload, its declared length. *)

Definition declared_keyLen (input : list byte) : Z := le_get (take 4 (drop 4 input)).

Definition tag_of (input : list byte) : byte :=
  default x00 (input !! Z.to_nat (8 + declared_keyLen input)).

Definition payload_of (input : list byte) : list byte :=
  drop (Z.to_nat (9 + declared_keyLen input)) input.

Definition declared_strLen (input : list byte) : Z := le_get (take 4 (payload_of input)).

(** The inputs [Decode] takes without an error: at least 9 bytes; the
    key, the tag and one byte of payload fit; a [STRING] payload holds
    its 4-byte length and that many bytes; an [INT64] payload holds 8
    bytes; a payload under any other tag is taken as it is. *)
Definition Decode_accepts (input : list byte) : bool :=
  (9 <=? len input)
  && (8 + declared_keyLen input + 2 <=? len input)
  && (if Byte.eqb (tag_of input) TypeString then
        (4 <=? len (payload_of input))
        && (4 + declared_strLen input <=? len (payload_of input))
      else if Byte.eqb (tag_of input) TypeInt64 then
        8 <=? len (payload_of input)
      else true).

(** The inputs on which none of the 32-bit sums [8+keyLen+1] and
    [4+strLen] of [Decode] wraps. *)
Definition lengths_do_not_wrap (input : list byte) : bool :=
  (len input <? 2 ^ 32)
  && (declared_keyLen input <? 2 ^ 32 - 9)
  && (if Byte.eqb (tag_of input) TypeInt64 then true
      else declared_strLen input <? 2 ^ 32 - 4).

(** A [STRING] record whose encoding has 4097 bytes, one more than the
    buffer of a [bufio.Reader]. *)
Definition big_record : entry :=
  mkEntry "k" TypeString (string_of (repeat "a"%byte 4083)) 0.

(** *** States of the engine *)

(** I3: the active file is there and open, every sealed segment has an
    id below the active id and lives at [segment-<id>]. *)
Definition segment_integrity (db : Db) (fs : FS) : Prop :=
  is_Some (fs !! current_data) /\
  out db = Some handle_open /\
  Forall (fun seg => id seg < activeSegmentID db /\ filePath seg = segment_file (id seg))
         (segments db).

(** The writer's view of the active file is accurate: the handle is
    open and [outOffset] is the size of [current-data]. *)
Definition offset_in_step (db : Db) (fs : FS) : Prop :=
  out db = Some handle_open /\
  exists content, fs !! current_data = Some content /\ outOffset db = len content.

(** Requests applied one after the other, each with its write fault. *)
Fixpoint run (order : gmap string entry -> list (string * entry))
    (reqs : list (write_fault * putRequest)) (db : Db) (fs : FS) : outcome (Db * FS) :=
  match reqs with
  | [] => Returns (db, fs)
  | wr :: rest =>
    let* r := handlePut order (fst wr) db fs (snd wr) in
    run order rest (fst (fst r)) (snd (fst r))
  end.

(** The state of a database opened on an empty directory. *)
Definition fresh_db (maxSegmentSize : Z) : Db :=
  mkDb ∅ maxSegmentSize 0 [] (Some handle_open) 0.
Definition fresh_fs : FS := {[ current_data := [] ]}.

(** I1 for one key: the index sends [k] to a place, in the active file
    or in a sealed one, where the encoding of [r] starts. *)
Definition entry_at (db : Db) (fs : FS) (k : string) (r : entry) : Prop :=
  exists ie content rest,
    index db !! k = Some ie /\
    segmentID ie <= activeSegmentID db /\
    0 <= offset ie /\
    fs !! file_of db ie = Some content /\
    drop (Z.to_nat (offset ie)) content = Encode r ++ rest.

(** *** Two runs of the engine *)

Definition filler (c : byte) (n : nat) : string := string_of (repeat c n).

(** Two records of 2514 bytes each written under the default segment
    size, both read back, then [Close] and a second open of the same
    directory: the two reads and the error of the second open. *)
Definition reopen_run
  : outcome ((string * option error) * (string * option error) * option error) :=
  let* r := run map_to_list
              [(write_ok, mkRequest "k1" (filler "a" 2500) 0 TypeString);
               (write_ok, mkRequest "k2" (filler "b" 2500) 0 TypeString)]
              (fresh_db defaultMaxSegmentSize) fresh_fs in
  let* g1 := Get (fst r) (snd r) "k1" in
  let* g2 := Get (fst r) (snd r) "k2" in
  let fs' := snd (fst (Close (fst r) (snd r))) in
  let* o := OpenWithMaxSegmentSize fs' defaultMaxSegmentSize in
  Returns (g1, g2, snd o).

(** Four records of 1414 bytes each written under a segment size of
    1000, which seals three segments; then the read of ["k2"], the
    merge, and the read of ["k2"] again: the number of sealed segments
    before the merge, the first read, the error of the merge and the
    second read. *)
Definition merge_run
  : outcome (nat * (string * option error) * option error * (string * option error)) :=
  let* r := run map_to_list
              [(write_ok, mkRequest "k1" (filler "a" 1400) 0 TypeString);
               (write_ok, mkRequest "k2" (filler "b" 1400) 0 TypeString);
               (write_ok, mkRequest "k3" (filler "c" 1400) 0 TypeString);
               (write_ok, mkRequest "k4" (filler "d" 1400) 0 TypeString)]
              (fresh_db 1000) fresh_fs in
  let* before := Get (fst r) (snd r) "k2" in
  let* m := Put map_to_list write_ok (fst r) (snd r) MERGE EmptyString in
  let* after := Get (fst (fst m)) (snd (fst m)) "k2" in
  Returns (length (segments (fst r)), before, snd m, after).

(** *** Size and the merge trigger *)

(** The loop of [Size] over the sealed segments the engine lists: a
    file that is not there counts nothing. *)
Definition sealed_size (fs : FS) (segs : list segmentInfo) : Z :=
  foldl (fun totalSize seg =>
           match fs !! filePath seg with
           | Some c => totalSize + len c
           | None => totalSize
           end) 0 segs.

(** [Size]: the sealed files, then the active file. *)
Definition Size (db : Db) (fs : FS) : Z * option error :=
  let totalSize := sealed_size fs (segments db) in
  match fs !! current_data with
  | Some c => (totalSize + len c, None)
  | None => (totalSize, None)
  end.

(** [tryMerge]: nothing with fewer than three sealed segments;
    otherwise the merge request goes to the writer when the queue takes
    it ([accepted]) and is dropped when it does not.  The error of the
    merge is discarded. *)
Definition tryMerge (order : gmap string entry -> list (string * entry))
    (accepted : bool) (db : Db) (fs : FS) : outcome (Db * FS) :=
  if Z.of_nat (length (segments db)) <? 3 then Returns (db, fs)
  else if accepted then
    let* r := handlePut order write_ok db fs (mkRequest MERGE EmptyString 0 TypeString) in
    Returns (fst (fst r), snd (fst r))
  else Returns (db, fs).

(** *** The directory scan, in closed form *)

(** The list entry [loadExistingSegments] makes of a directory entry. *)
Definition segment_of (name : path) : option segmentInfo :=
  match name with
  | segment_file i => Some (mkSegment i name true)
  | _ => None
  end.

(** The greatest segment id among the names, or [m] when none is
    greater. *)
Definition max_seen (m : Z) (names : list path) : Z :=
  foldl (fun m name => match name with
                       | segment_file i => if m <? i then i else m
                       | _ => m
                       end) m names.

(** *** Files that hold records *)

(** The content of a file to which the records [rs] were appended, in
    this order. *)
Definition file_of_records (rs : list entry) : list byte := concat (map Encode rs).

(** The index a scan leaves when it meets the records [rs], the first
    of them at [offset]. *)
Fixpoint index_of_records (segmentID offset : Z) (rs : list entry) (index : hashIndex)
  : hashIndex :=
  match rs with
  | [] => index
  | r :: rest =>
    index_of_records segmentID (offset + len (Encode r)) rest
      (<[key r := mkIndexEntry segmentID offset]> index)
  end.

(** The index a scan of the files [files], one after the other, leaves;
    [recs] names the records of each file. *)
Definition index_of_files (recs : path -> list entry) (files : list (Z * path))
    (index : hashIndex) : hashIndex :=
  foldl (fun index f => index_of_records (fst f) 0 (recs (snd f)) index) index files.

(** The data files of the directory: the active file and the sealed
    segments. *)
Definition data_file (p : path) : Prop := p = current_data \/ exists i, p = segment_file i.

(** [p'] holds newer data than [p]: the active file against a sealed
    segment, a sealed segment against one of a smaller id. *)
Definition newer (p' p : path) : Prop :=
  match p', p with
  | current_data, segment_file _ => True
  | segment_file j, segment_file i => i < j
  | _, _ => False
  end.

(** Every data file of the directory holds the records that [recs]
    names for it, one after the other, and fits the buffer of a reader;
    [recs] names no record for a data file that is not there. *)
Definition holds_records (fs : FS) (recs : path -> list entry) : Prop :=
  forall p, data_file p ->
    Forall is_record (recs p) /\
    len (file_of_records (recs p)) <= defaultBufSize /\
    match fs !! p with
    | Some content => content = file_of_records (recs p)
    | None => recs p = []
    end.

(** A directory with one sealed segment and an active file, and the
    records they hold. *)
Definition two_files : FS :=
  <[segment_file 0 := file_of_records [mkEntry "a" TypeString "1" 0;
                                       mkEntry "b" TypeInt64 EmptyString 7]]>
    {[ current_data := file_of_records [mkEntry "a" TypeString "2" 0] ]}.

Definition two_files_records (p : path) : list entry :=
  match p with
  | current_data => [mkEntry "a" TypeString "2" 0]
  | segment_file i =>
    if i =? 0 then [mkEntry "a" TypeString "1" 0; mkEntry "b" TypeInt64 EmptyString 7]
    else []
  | _ => []
  end.

(** The entries the scan of a merge collects from the records [rs]:
    for each key the last of its records. *)
Definition latest_entries (rs : list entry) (keyEntries : gmap string entry)
  : gmap string entry :=
  foldl (fun keyEntries r => <[key r := r]> keyEntries) keyEntries rs.

(** The records of the sealed segments, in the order of the list. *)
Definition sealed_records (recs : path -> list entry) (segs : list segmentInfo)
  : list entry :=
  concat (map (fun seg => recs (filePath seg)) segs).

(** *** The engine after a log of writes *)

(** The state and the directory hold the records [log], oldest first:
    the active file is open and the writer's offset is its size; the
    sealed list is in ascending order of id and names every segment
    file; and the sealed files, in the order of the list, followed by
    the active file hold the records of [log], one after the other. *)
Definition holds_log (db : Db) (fs : FS) (log : list entry) : Prop :=
  segment_integrity db fs /\
  offset_in_step db fs /\
  StronglySorted (fun a b => id a < id b) (segments db) /\
  (forall i, is_Some (fs !! segment_file i) -> exists seg, seg ∈ segments db /\ id seg = i) /\
  exists recs : path -> list entry,
    (forall p, data_file p ->
       match fs !! p with
       | Some content => content = file_of_records (recs p)
       | None => recs p = []
       end) /\
    sealed_records recs (segments db) ++ recs current_data = log.

(** ** The HTTP front-end

    The handler of [GET /db/<key>] of the database server, with the
    response it writes: an error with its message and status, or the
    JSON document of a key and its value. *)

Inductive value : Type :=
| string_value (s : string)
| int64_value (v : Z).

Inductive response : Type :=
| http_error (message : string) (status : Z)
| http_json (key : string) (v : value).

Definition StatusBadRequest : Z := 400.
Definition StatusNotFound : Z := 404.

(** [handleGet]; [typeParam] is the value of the query parameter
    [type], empty when the request has none. *)
Definition handleGet (db : Db) (fs : FS) (key : string) (typeParam : string)
  : outcome response :=
  if String.eqb key EmptyString
  then Returns (http_error "Key is required" StatusBadRequest) else
  let valueType := if String.eqb typeParam EmptyString then "string"%string else typeParam in
  if String.eqb valueType "int64" then
    let* r := GetInt64 db fs key in
    match snd r with
    | Some _ => Returns (http_error "Not found" StatusNotFound)
    | None => Returns (http_json key (int64_value (fst r)))
    end
  else if String.eqb valueType "string" then
    let* r := Get db fs key in
    match snd r with
    | Some _ => Returns (http_error "Not found" StatusNotFound)
    | None => Returns (http_json key (string_value (fst r)))
    end
  else Returns (http_error "Invalid type parameter" StatusBadRequest).

(** The index answers for the records [log], oldest first: a key
    without a record has no entry, and the entry of a key with records
    points to the start of the last of them. *)
Definition reads_log (db : Db) (fs : FS) (log : list entry) : Prop :=
  (forall k, (forall r, r ∈ log -> key r <> k) -> index db !! k = None) /\
  (forall before r after,
     log = before ++ r :: after ->
     (forall r', r' ∈ after -> key r' <> key r) ->
     entry_at db fs (key r) r).

(** A store with three sealed segments of one record each, 1415 bytes
    long, an empty active file, and the index that points to them. *)
Definition three_segments : FS :=
  <[segment_file 0 := Encode (mkEntry "k1" TypeString (filler "a" 1400) 0)]>
    (<[segment_file 1 := Encode (mkEntry "k2" TypeString (filler "b" 1400) 0)]>
       (<[segment_file 2 := Encode (mkEntry "k3" TypeString (filler "c" 1400) 0)]>
          {[ current_data := [] ]})).

Definition three_segments_records (p : path) : list entry :=
  match p with
  | segment_file i =>
    if i =? 0 then [mkEntry "k1" TypeString (filler "a" 1400) 0]
    else if i =? 1 then [mkEntry "k2" TypeString (filler "b" 1400) 0]
    else if i =? 2 then [mkEntry "k3" TypeString (filler "c" 1400) 0]
    else []
  | _ => []
  end.

Definition three_segments_db : Db :=
  mkDb (<["k1" := mkIndexEntry 0 0]> (<["k2" := mkIndexEntry 1 0]> {[ "k3" := mkIndexEntry 2 0 ]}))
       1000 3
       [mkSegment 0 (segment_file 0) true; mkSegment 1 (segment_file 1) true;
        mkSegment 2 (segment_file 2) true]
       (Some handle_open) 0.

(** * Properties *)

(** ** Bytes, little-endian integers, slices *)

Lemma Z_of_byte_range (b : byte) : 0 <= Z_of_byte b < 256.
Proof.
  unfold Z_of_byte. pose proof (Byte.to_N_bounded b) as H. lia.
Qed.

Lemma Z_of_byte_of_Z (z : Z) : Z_of_byte (byte_of_Z z) = z mod 256.
Proof.
  unfold byte_of_Z, Z_of_byte.
  assert (Hr : 0 <= z mod 256 < 256) by (apply Z.mod_pos_bound; lia).
  destruct (Byte.of_N (Z.to_N (z mod 256))) as [b|] eqn:E.
  - apply Byte.to_of_N in E. rewrite E. lia.
  - apply Byte.of_N_None_iff in E. lia.
Qed.

Lemma length_le_put (n : nat) (v : Z) : length (le_put n v) = n.
Proof. revert v. induction n as [|n IH]; intros v; simpl; [done | by rewrite IH]. Qed.

Lemma len_le_put (n : nat) (v : Z) : len (le_put n v) = Z.of_nat n.
Proof. unfold len. by rewrite length_le_put. Qed.

Lemma le_get_put (n : nat) (v : Z) : le_get (le_put n v) = v mod 2 ^ (8 * Z.of_nat n).
Proof.
  revert v. induction n as [|n IH]; intros v.
  - simpl. by rewrite Z.mod_1_r.
  - cbn [le_put le_get]. rewrite Z_of_byte_of_Z, IH.
    apply Z.bits_inj'. intros i Hi.
    rewrite Z.lor_spec. change 256 with (2 ^ 8).
    rewrite !Z.testbit_mod_pow2 by lia.
    rewrite Z.shiftl_spec by lia.
    destruct (Z.ltb_spec i 8) as [Hlt|Hge].
    + rewrite (Z.testbit_neg_r _ (i - 8)) by lia.
      replace (i <? 8 * Z.of_nat (S n)) with true by (symmetry; apply Z.ltb_lt; lia).
      by rewrite orb_false_r.
    + rewrite Z.testbit_mod_pow2 by lia.
      rewrite Z.shiftr_spec by lia.
      replace (i - 8 + 8) with i by lia.
      replace (i - 8 <? 8 * Z.of_nat n) with (i <? 8 * Z.of_nat (S n)).
      * done.
      * destruct (Z.ltb_spec i (8 * Z.of_nat (S n))), (Z.ltb_spec (i - 8) (8 * Z.of_nat n));
          (done || lia).
Qed.

Lemma le_get_put_uint32 (v : Z) : 0 <= v < 2 ^ 32 -> le_get (le_put 4 (uint32 v)) = v.
Proof.
  intros H. rewrite le_get_put. unfold uint32.
  change (8 * Z.of_nat 4) with 32. rewrite Z.mod_mod by lia. apply Z.mod_small; lia.
Qed.

Lemma int64_uint64 (v : Z) : - 2 ^ 63 <= v < 2 ^ 63 -> int64 (le_get (le_put 8 (uint64 v))) = v.
Proof.
  intros H. rewrite le_get_put. unfold uint64, int64.
  change (8 * Z.of_nat 8) with 64. rewrite !Z.mod_mod by lia.
  destruct (Z.ltb_spec (v mod 2 ^ 64) (2 ^ 63)) as [Hlt|Hge].
  - destruct (Z.le_gt_cases 0 v) as [Hv|Hv].
    + apply Z.mod_small; lia.
    + exfalso. replace v with (v + 2 ^ 64 - 1 * 2 ^ 64) in Hlt by lia.
      rewrite Zminus_mod, Z_mod_mult, Z.sub_0_r, Z.mod_mod in Hlt by lia.
      rewrite Z.mod_small in Hlt; lia.
  - destruct (Z.le_gt_cases 0 v) as [Hv|Hv].
    + rewrite Z.mod_small in Hge; lia.
    + replace v with (v + 2 ^ 64 - 1 * 2 ^ 64) at 1 by lia.
      rewrite Zminus_mod, Z_mod_mult, Z.sub_0_r, Z.mod_mod by lia.
      rewrite Z.mod_small; lia.
Qed.

Lemma len_app (a b : list byte) : len (a ++ b) = len a + len b.
Proof. unfold len. rewrite length_app. lia. Qed.

Lemma len_single (x : byte) : len [x] = 1.
Proof. reflexivity. Qed.

Lemma len_nonneg (a : list byte) : 0 <= len a.
Proof. unfold len. lia. Qed.

Lemma slice_app_mid (a b c : list byte) :
  slice (a ++ b ++ c) (len a) (len a + len b) = Returns b.
Proof.
  unfold slice, len. rewrite !length_app.
  replace ((0 <=? Z.of_nat (length a)) && (Z.of_nat (length a) <=? Z.of_nat (length a) + Z.of_nat (length b))
           && (Z.of_nat (length a) + Z.of_nat (length b) <=? Z.of_nat (length a + (length b + length c))%nat))
    with true by (symmetry; rewrite !andb_true_iff, !Z.leb_le; lia).
  rewrite Nat2Z.id. rewrite drop_app_length.
  replace (Z.to_nat (Z.of_nat (length a) + Z.of_nat (length b) - Z.of_nat (length a))) with (length b) by lia.
  by rewrite take_app_length.
Qed.

Lemma slice_app_tail (a b : list byte) : slice (a ++ b) (len a) (len (a ++ b)) = Returns b.
Proof.
  rewrite <- (app_nil_r b) at 1. rewrite len_app.
  rewrite slice_app_mid. done.
Qed.

Lemma slice_prefix (b c : list byte) : slice (b ++ c) 0 (len b) = Returns b.
Proof. apply (slice_app_mid [] b c). Qed.

Lemma at_index_app (a : list byte) (x : byte) (c : list byte) :
  at_index (a ++ x :: c) (len a) = Returns x.
Proof.
  unfold at_index, len. rewrite length_app. simpl.
  replace ((0 <=? Z.of_nat (length a)) && (Z.of_nat (length a) <? Z.of_nat (length a + S (length c))))
    with true by (symmetry; rewrite andb_true_iff, Z.leb_le, Z.ltb_lt; lia).
  rewrite Nat2Z.id. by rewrite list_lookup_middle.
Qed.

Lemma string_of_bytes_of (s : string) : string_of (bytes_of s) = s.
Proof. apply string_of_list_byte_of_string. Qed.

Lemma bytes_of_string_of (b : list byte) : bytes_of (string_of b) = b.
Proof. apply list_byte_of_string_of_list_byte. Qed.

(** ** The record codec *)

Lemma uint32_small (z : Z) : 0 <= z < 2 ^ 32 -> uint32 z = z.
Proof. intros H. unfold uint32. apply Z.mod_small; lia. Qed.

(** [Decode] on an input laid out as header, key, tag, payload. *)
Lemma Decode_layout (e : entry) (s4 kb : list byte) (t : byte) (vd : list byte) :
  length s4 = 4%nat ->
  len kb + 9 + len vd < 2 ^ 32 ->
  0 < len vd ->
  Decode e (s4 ++ le_put 4 (uint32 (len kb)) ++ kb ++ [t] ++ vd)
  = Decode_value (set_valueType (set_key e (string_of kb)) t) t vd.
Proof.
  intros Hs4 Hfit Hvd.
  pose proof (len_nonneg kb) as Hkb.
  set (h2 := le_put 4 (uint32 (len kb))).
  set (input := s4 ++ h2 ++ kb ++ [t] ++ vd).
  assert (Hh2 : len h2 = 4) by (unfold h2; by rewrite len_le_put).
  assert (Hs4' : len s4 = 4) by (unfold len; lia).
  assert (Hlen : len input = 9 + len kb + len vd).
  { unfold input. rewrite !len_app, Hh2, Hs4', len_single. lia. }
  assert (E1 : slice input 4 8 = Returns h2).
  { unfold input. replace 4 with (len s4) by done. replace 8 with (len s4 + len h2) by lia.
    apply slice_app_mid. }
  assert (E2 : le_get h2 = len kb) by (unfold h2; apply le_get_put_uint32; lia).
  assert (E3 : slice input 8 (8 + len kb) = Returns kb).
  { unfold input. rewrite (app_assoc s4 h2).
    replace 8 with (len (s4 ++ h2)) by (rewrite len_app; lia).
    apply slice_app_mid. }
  assert (E4 : at_index input (8 + len kb) = Returns t).
  { unfold input. rewrite (app_assoc s4 h2), (app_assoc (s4 ++ h2) kb). simpl.
    replace (8 + len kb) with (len ((s4 ++ h2) ++ kb)) by (rewrite !len_app; lia).
    apply at_index_app. }
  assert (E5 : slice input (9 + len kb) (len input) = Returns vd).
  { unfold input at 2. unfold input.
    rewrite (app_assoc s4 h2), (app_assoc (s4 ++ h2) kb), (app_assoc _ [t] vd).
    replace (9 + len kb) with (len (((s4 ++ h2) ++ kb) ++ [t])).
    - apply slice_app_tail.
    - rewrite !len_app, len_single. lia. }
  unfold Decode. fold input.
  replace (len input <? 9) with false by (symmetry; apply Z.ltb_ge; lia).
  rewrite E1. cbn [obind]. rewrite E2.
  rewrite (uint32_small (8 + len kb + 1)) by lia.
  rewrite (uint32_small (8 + len kb)) by lia.
  rewrite (uint32_small (8 + len kb + 1)) by lia.
  rewrite (uint32_small (len input)) by lia.
  replace (len input <? 8 + len kb + 1) with false by (symmetry; apply Z.ltb_ge; lia).
  rewrite E3. cbn [obind].
  replace (len input <=? 8 + len kb) with false by (symmetry; apply Z.leb_gt; lia).
  rewrite E4. cbn [obind].
  replace (len input <=? 8 + len kb + 1) with false by (symmetry; apply Z.leb_gt; lia).
  replace (8 + len kb + 1) with (9 + len kb) by lia.
  rewrite E5. done.
Qed.

Lemma Decode_value_string (e : entry) (sb : list byte) :
  len sb + 4 < 2 ^ 32 ->
  Decode_value e TypeString (le_put 4 (uint32 (len sb)) ++ sb)
  = Returns (set_stringValue e (string_of sb), None).
Proof.
  intros Hfit. pose proof (len_nonneg sb) as Hsb.
  set (h := le_put 4 (uint32 (len sb))).
  assert (Hh : len h = 4) by (unfold h; by rewrite len_le_put).
  assert (E1 : slice (h ++ sb) 0 4 = Returns h).
  { rewrite <- Hh. apply slice_prefix. }
  assert (E2 : le_get h = len sb) by (unfold h; apply le_get_put_uint32; lia).
  assert (E3 : slice (h ++ sb) 4 (4 + len sb) = Returns sb).
  { rewrite <- Hh at 1 2. rewrite <- (app_nil_r sb) at 1. apply slice_app_mid. }
  unfold Decode_value. change (Byte.eqb TypeString TypeString) with true. cbv iota.
  rewrite len_app, Hh.
  replace (4 + len sb <? 4) with false by (symmetry; apply Z.ltb_ge; lia).
  rewrite E1. cbn [obind]. rewrite E2.
  rewrite (uint32_small (4 + len sb)) by lia.
  replace (4 + len sb <? 4 + len sb) with false by (symmetry; apply Z.ltb_ge; lia).
  rewrite E3. done.
Qed.

Lemma Decode_value_int64 (e : entry) (v : Z) :
  - 2 ^ 63 <= v < 2 ^ 63 ->
  Decode_value e TypeInt64 (le_put 8 (uint64 v))
  = Returns (set_int64Value e v, None).
Proof.
  intros Hv.
  set (h := le_put 8 (uint64 v)).
  assert (Hh : len h = 8) by (unfold h; by rewrite len_le_put).
  assert (E1 : slice h 0 8 = Returns h).
  { rewrite <- (app_nil_r h) at 1. rewrite <- Hh. apply slice_prefix. }
  unfold Decode_value.
  change (Byte.eqb TypeInt64 TypeString) with false.
  change (Byte.eqb TypeInt64 TypeInt64) with true. cbv iota.
  rewrite Hh. change (8 <? 8) with false. cbv iota.
  rewrite E1. cbn [obind]. unfold h. by rewrite int64_uint64.
Qed.

Lemma len_Encode (r : entry) :
  len (Encode r) = 9 + len (bytes_of (key r)) + len (valueData_of r).
Proof.
  unfold Encode. rewrite !len_app, !len_le_put, len_single. lia.
Qed.

Lemma len_valueData_pos (r : entry) : 4 <= len (valueData_of r).
Proof.
  unfold valueData_of.
  destruct (Byte.eqb (valueType r) TypeString); [|destruct (Byte.eqb (valueType r) TypeInt64)];
    rewrite ?len_app, !len_le_put; pose proof (len_nonneg (bytes_of (stringValue r))); lia.
Qed.

(** Decoding the encoding of a record into a zero receiver gives the
    record. *)
Lemma Decode_Encode (r : entry) :
  is_record r -> Decode zero_entry (Encode r) = Returns (r, None).
Proof.
  intros [Hfit Hr]. rewrite len_Encode in Hfit.
  pose proof (len_valueData_pos r) as Hvd.
  pose proof (len_nonneg (bytes_of (key r))) as Hk.
  unfold Encode. cbv zeta.
  rewrite Decode_layout; [| by rewrite length_le_put | lia | lia].
  rewrite string_of_bytes_of.
  destruct r as [k t s v]. cbn [key valueType stringValue int64Value] in *.
  destruct Hr as [[-> ->]|(-> & -> & Hv)].
  - change (valueData_of (mkEntry k TypeString s 0))
      with (le_put 4 (uint32 (len (bytes_of s))) ++ bytes_of s) in *.
    change (encoded_type (mkEntry k TypeString s 0)) with TypeString.
    rewrite len_app, len_le_put in Hfit.
    rewrite Decode_value_string by lia.
    by rewrite string_of_bytes_of.
  - change (valueData_of (mkEntry k TypeInt64 EmptyString v))
      with (le_put 8 (uint64 v)) in *.
    change (encoded_type (mkEntry k TypeInt64 EmptyString v)) with TypeInt64.
    by rewrite Decode_value_int64.
Qed.

Lemma le_get_nonneg (bs : list byte) : 0 <= le_get bs.
Proof.
  induction bs as [|b r IH]; simpl; [lia|].
  apply Z.lor_nonneg. split.
  - apply Z_of_byte_range.
  - by apply Z.shiftl_nonneg.
Qed.

Lemma slice_in_range (s : list byte) (lo hi : Z) :
  0 <= lo <= hi -> hi <= len s ->
  slice s lo hi = Returns (take (Z.to_nat (hi - lo)) (drop (Z.to_nat lo) s)).
Proof.
  intros H1 H2. unfold slice. fold (len s).
  replace ((0 <=? lo) && (lo <=? hi) && (hi <=? len s)) with true; [done|].
  symmetry. rewrite !andb_true_iff, !Z.leb_le. lia.
Qed.

Lemma slice_to_end (s : list byte) (lo : Z) :
  0 <= lo <= len s -> slice s lo (len s) = Returns (drop (Z.to_nat lo) s).
Proof.
  intros H. rewrite slice_in_range by lia. f_equal.
  apply take_ge. rewrite length_drop. unfold len. lia.
Qed.

Lemma at_index_in_range (s : list byte) (i : Z) :
  0 <= i < len s -> at_index s i = Returns (default x00 (s !! Z.to_nat i)).
Proof.
  intros H. unfold at_index. fold (len s).
  replace ((0 <=? i) && (i <? len s)) with true
    by (symmetry; rewrite andb_true_iff, Z.leb_le, Z.ltb_lt; lia).
  destruct (s !! Z.to_nat i) eqn:E; [done|].
  apply lookup_ge_None in E. unfold len in H. lia.
Qed.

Lemma len_drop (s : list byte) (n : Z) : 0 <= n <= len s -> len (drop (Z.to_nat n) s) = len s - n.
Proof. intros H. unfold len in *. rewrite length_drop. lia. Qed.

(** [Decode_value] returns, with an error exactly when the payload is
    too short for its tag. *)
Lemma Decode_value_checks (e : entry) (t : byte) (vd : list byte) :
  (Byte.eqb t TypeInt64 = false -> le_get (take 4 vd) < 2 ^ 32 - 4) ->
  exists e' o, Decode_value e t vd = Returns (e', o) /\
    (o = None <->
     (if Byte.eqb t TypeString then (4 <=? len vd) && (4 + le_get (take 4 vd) <=? len vd)
      else if Byte.eqb t TypeInt64 then 8 <=? len vd
      else true) = true).
Proof.
  intros Hw. unfold Decode_value.
  pose proof (le_get_nonneg (take 4 vd)) as Hnn.
  pose proof (len_nonneg vd) as Hl.
  destruct (Byte.eqb t TypeString) eqn:Es.
  - assert (Ei : Byte.eqb t TypeInt64 = false).
    { apply Byte.byte_dec_bl in Es. by subst. }
    specialize (Hw Ei).
    destruct (Z.ltb_spec (len vd) 4) as [H4|H4].
    + eexists _, _. split; [done|]. split; [done|].
      rewrite andb_true_iff, !Z.leb_le. lia.
    + rewrite slice_in_range by lia. cbn [obind].
      change (Z.to_nat (4 - 0)) with 4%nat. change (Z.to_nat 0) with 0%nat. rewrite drop_0.
      rewrite uint32_small by lia.
      destruct (Z.ltb_spec (len vd) (4 + le_get (take 4 vd))) as [H5|H5].
      * eexists _, _. split; [done|]. split; [done|].
        rewrite andb_true_iff, !Z.leb_le. lia.
      * rewrite slice_in_range by lia. cbn [obind].
        eexists _, _. split; [done|]. split; [|done].
        intros _. rewrite andb_true_iff, !Z.leb_le. lia.
  - destruct (Byte.eqb t TypeInt64) eqn:Ei.
    + destruct (Z.ltb_spec (len vd) 8) as [H8|H8].
      * eexists _, _. split; [done|]. split; [done|]. rewrite Z.leb_le. lia.
      * rewrite slice_in_range by lia. cbn [obind].
        eexists _, _. split; [done|]. split; [|done]. intros _. rewrite Z.leb_le. lia.
    + specialize (Hw eq_refl).
      destruct (Z.leb_spec 4 (len vd)) as [H4|H4].
      * rewrite slice_in_range by lia. cbn [obind].
        change (Z.to_nat (4 - 0)) with 4%nat. change (Z.to_nat 0) with 0%nat. rewrite drop_0.
        rewrite uint32_small by lia.
        destruct (Z.leb_spec (4 + le_get (take 4 vd)) (len vd)) as [H5|H5].
        -- rewrite slice_in_range by lia. cbn [obind]. by eexists _, _.
        -- by eexists _, _.
      * by eexists _, _.
Qed.

(** C4, as the code has it: on every input whose declared lengths do not
    wrap in 32-bit arithmetic, [Decode] returns (it does not panic), and
    it returns without an error exactly on the inputs of
    [Decode_accepts]: at least 9 bytes, room for key, tag and one
    payload byte, a [STRING] payload as long as it declares, an [INT64]
    payload of 8 bytes, and any payload under another tag.  The
    total-size field [input[0:4]] is not among the things checked. *)
Theorem Decode_validates (e : entry) (input : list byte) :
  lengths_do_not_wrap input = true ->
  exists e' o, Decode e input = Returns (e', o) /\
    (o = None <-> Decode_accepts input = true).
Proof.
  unfold lengths_do_not_wrap. rewrite !andb_true_iff, !Z.ltb_lt.
  intros [[Hlen Hk] Hs].
  pose proof (le_get_nonneg (take 4 (drop 4 input))) as Hnn.
  fold (declared_keyLen input) in Hnn.
  unfold Decode, Decode_accepts.
  destruct (Z.ltb_spec (len input) 9) as [H9|H9].
  { eexists _, _. split; [done|]. split; [done|].
    rewrite !andb_true_iff, !Z.leb_le. lia. }
  replace (9 <=? len input) with true by (symmetry; apply Z.leb_le; lia).
  rewrite slice_in_range by lia. cbn [obind].
  change (Z.to_nat (8 - 4)) with 4%nat. change (Z.to_nat 4) with 4%nat.
  fold (declared_keyLen input). set (kl := declared_keyLen input) in *.
  rewrite (uint32_small (8 + kl + 1)) by lia.
  rewrite !(uint32_small (8 + kl)) by lia.
  rewrite (uint32_small (8 + kl + 1)) by lia.
  rewrite (uint32_small (len input)) by lia.
  destruct (Z.ltb_spec (len input) (8 + kl + 1)) as [Hk1|Hk1].
  { eexists _, _. split; [done|]. split; [done|].
    rewrite !andb_true_iff, !Z.leb_le. lia. }
  rewrite slice_in_range by lia. cbn [obind].
  replace (len input <=? 8 + kl) with false by (symmetry; apply Z.leb_gt; lia).
  rewrite at_index_in_range by lia. cbn [obind].
  fold (tag_of input).
  destruct (Z.leb_spec (len input) (8 + kl + 1)) as [Hv|Hv].
  { eexists _, _. split; [done|]. split; [done|].
    rewrite !andb_true_iff, !Z.leb_le. lia. }
  rewrite slice_to_end by lia. cbn [obind].
  replace (8 + kl + 1) with (9 + kl) by lia. fold (payload_of input).
  replace (8 + kl + 2 <=? len input) with true by (symmetry; apply Z.leb_le; lia).
  cbn [andb]. unfold declared_strLen in *.
  apply Decode_value_checks.
  intros Ei. rewrite Ei in Hs. by apply Z.ltb_lt.
Qed.

Lemma Decode_validates_witness :
  lengths_do_not_wrap (Encode (mkEntry "key" TypeString "value" 0)) = true /\
  exists e' o, Decode zero_entry (Encode (mkEntry "key" TypeString "value" 0)) = Returns (e', o) /\
    (o = None <-> Decode_accepts (Encode (mkEntry "key" TypeString "value" 0)) = true).
Proof.
  split; [reflexivity|].
  apply (Decode_validates zero_entry (Encode (mkEntry "key" TypeString "value" 0))).
  reflexivity.
Defined.

(** C4, as stated, fails: [Decode] takes an input whose total-size
    field is [0], below the minimum of 9 the claim has it validate. *)
Lemma Decode_ignores_total_size :
  le_get (take 4 [x00; x00; x00; x00; x00; x00; x00; x00; x02;
                  x2a; x00; x00; x00; x00; x00; x00; x00]%byte) = 0 /\
  Decode zero_entry [x00; x00; x00; x00; x00; x00; x00; x00; x02;
                     x2a; x00; x00; x00; x00; x00; x00; x00]%byte
  = Returns (mkEntry EmptyString TypeInt64 EmptyString 42, None).
Proof. split; reflexivity. Qed.

(** ** The stream decoder *)

Lemma encoded_string (r : entry) :
  valueType r = TypeString ->
  encoded_type r = TypeString /\
  valueData_of r = le_put 4 (uint32 (len (bytes_of (stringValue r)))) ++ bytes_of (stringValue r).
Proof. intros H. unfold encoded_type, valueData_of. by rewrite H. Qed.

Lemma encoded_int64 (r : entry) :
  valueType r = TypeInt64 ->
  encoded_type r = TypeInt64 /\ valueData_of r = le_put 8 (uint64 (int64Value r)).
Proof. intros H. unfold encoded_type, valueData_of. by rewrite H. Qed.

Lemma encoded_not_int64 (r : entry) :
  Byte.eqb (valueType r) TypeInt64 = false ->
  encoded_type r = TypeString /\
  valueData_of r = le_put 4 (uint32 (len (bytes_of (stringValue r)))) ++ bytes_of (stringValue r).
Proof.
  intros H. unfold encoded_type, valueData_of. rewrite H.
  by destruct (Byte.eqb (valueType r) TypeString).
Qed.

(** [Decode] of an encoding into any receiver: the fields the type does
    not carry are left as the receiver has them. *)
Lemma Decode_Encode_into (e0 r : entry) :
  len (Encode r) < 2 ^ 32 ->
  - 2 ^ 63 <= int64Value r < 2 ^ 63 ->
  Decode e0 (Encode r)
  = Returns (if Byte.eqb (valueType r) TypeInt64
             then mkEntry (key r) TypeInt64 (stringValue e0) (int64Value r)
             else mkEntry (key r) TypeString (stringValue r) (int64Value e0),
             None).
Proof.
  intros Hfit Hv. rewrite len_Encode in Hfit.
  pose proof (len_valueData_pos r) as Hvd.
  pose proof (len_nonneg (bytes_of (key r))) as Hk.
  unfold Encode. cbv zeta.
  rewrite Decode_layout; [| by rewrite length_le_put | lia | lia].
  rewrite string_of_bytes_of.
  destruct (Byte.eqb (valueType r) TypeInt64) eqn:Ei.
  - apply Byte.byte_dec_bl in Ei.
    destruct (encoded_int64 r Ei) as [-> ->].
    by rewrite Decode_value_int64.
  - destruct (encoded_not_int64 r Ei) as [-> Hvd']. rewrite Hvd' in *.
    rewrite len_app, len_le_put in Hfit.
    rewrite Decode_value_string by lia.
    by rewrite string_of_bytes_of.
Qed.

(** The size field of an encoding holds its length. *)
Lemma le_get_Encode (e : entry) :
  len (Encode e) < 2 ^ 32 -> le_get (take 4 (Encode e)) = len (Encode e).
Proof.
  intros Hfit. pose proof (len_Encode e) as Hlen. rewrite Hlen in Hfit.
  pose proof (len_valueData_pos e) as Hvd.
  pose proof (len_nonneg (bytes_of (key e))) as Hk.
  rewrite Hlen. unfold Encode. cbv zeta.
  rewrite take_app_length' by (by rewrite length_le_put).
  replace (4 + 4 + len (bytes_of (key e)) + 1 + len (valueData_of e))
    with (9 + len (bytes_of (key e)) + len (valueData_of e)) by lia.
  apply le_get_put_uint32. lia.
Qed.

Lemma peek_fill_enough (fuel : nat) (n : Z) (b : Reader) :
  n <= len (buf b) -> peek_fill fuel n b = b.
Proof.
  intros H. destruct fuel as [|fuel]; [done|]. cbn [peek_fill]. unfold peek_more.
  by replace (len (buf b) <? n) with false by (symmetry; apply Z.ltb_ge; lia).
Qed.

Lemma peek_fill_step (fuel : nat) (n : Z) (b : Reader) :
  peek_fill (S fuel) n b = if peek_more n b then peek_fill fuel n (fill b) else b.
Proof. reflexivity. Qed.

(** A reader whose buffer holds a whole record hands it out. *)
Lemma DecodeFromReader_buffered (e : entry) (b : Reader) (r : entry) (rest : list byte) :
  buf b = Encode r ++ rest ->
  is_record r ->
  exists e' o, Decode e (Encode r) = Returns (e', o) /\
    DecodeFromReader e b
    = Returns (mkReader (rd b) rest (rerr b), e', len (Encode r), o).
Proof.
  intros Hbuf Hr.
  assert (Hsize : 13 <= len (Encode r) < 2 ^ 32).
  { split; [|apply Hr]. rewrite len_Encode.
    pose proof (len_valueData_pos r). pose proof (len_nonneg (bytes_of (key r))). lia. }
  assert (Hlenbuf : len (buf b) = len (Encode r) + len rest) by (by rewrite Hbuf, len_app).
  pose proof (len_nonneg rest) as Hrest.
  assert (Hhead : take 4 (buf b) = le_put 4 (uint32 (len (Encode r)))).
  { rewrite Hbuf. rewrite len_Encode. unfold Encode. cbv zeta.
    rewrite <- !app_assoc.
    replace (4 + 4 + len (bytes_of (key r)) + 1 + len (valueData_of r))
      with (9 + len (bytes_of (key r)) + len (valueData_of r)) by lia.
    apply take_app_length'. by rewrite length_le_put. }
  assert (Hdec : exists e' o, Decode e (Encode r) = Returns (e', o)).
  { eexists _, _. apply Decode_Encode_into; [apply Hr|].
    destruct Hr as [_ [[_ ->]|(_ & _ & Hv)]]; lia. }
  destruct Hdec as (e' & o & Hdec). exists e', o. split; [done|].
  unfold DecodeFromReader, Peek.
  rewrite peek_fill_enough by lia.
  change (defaultBufSize <? 4) with false. cbv iota.
  replace (len (buf b) <? 4) with false by (symmetry; apply Z.ltb_ge; lia).
  change (Z.to_nat 4) with 4%nat. rewrite Hhead.
  rewrite le_get_put_uint32 by lia.
  replace (len (Encode r) <? 9) with false by (symmetry; apply Z.ltb_ge; lia).
  unfold Read.
  replace (len (Encode r) =? 0) with false by (symmetry; apply Z.eqb_neq; lia).
  assert (Htake : take (Z.to_nat (len (Encode r))) (buf b) = Encode r).
  { rewrite Hbuf. apply take_app_length'. unfold len. lia. }
  assert (Hdrop : drop (Z.to_nat (len (Encode r))) (buf b) = rest).
  { rewrite Hbuf. apply drop_app_length'. unfold len. lia. }
  destruct (buf b) as [|x l] eqn:Eb.
  { unfold len in Hlenbuf. simpl in Hlenbuf. lia. }
  rewrite Htake, Hdrop. rewrite Z.eqb_refl. cbn [negb]. rewrite Hdec. done.
Qed.

(** A new reader fills its buffer from the source on the first [Peek]. *)
Lemma DecodeFromReader_fresh (e : entry) (src : list byte) :
  4 <= len (take (Z.to_nat defaultBufSize) src) ->
  DecodeFromReader e (NewReader src)
  = DecodeFromReader e (mkReader (drop (Z.to_nat defaultBufSize) src)
                          (take (Z.to_nat defaultBufSize) src) None).
Proof.
  intros H4.
  assert (Hpeek : forall b, 4 <= len (buf b) -> peek_fill (Z.to_nat 4) 4 b = b)
    by (intros; by apply peek_fill_enough).
  assert (Hfill : fill (NewReader src)
                  = mkReader (drop (Z.to_nat defaultBufSize) src)
                      (take (Z.to_nat defaultBufSize) src) None).
  { unfold fill, NewReader. cbn [rd buf rerr]. unfold src_read.
    destruct src as [|x l]; [by rewrite take_nil in H4|].
    change (len []) with 0. rewrite Z.sub_0_r. done. }
  assert (HP : Peek (NewReader src) 4
               = Peek (mkReader (drop (Z.to_nat defaultBufSize) src)
                         (take (Z.to_nat defaultBufSize) src) None) 4).
  { unfold Peek. rewrite (Hpeek (mkReader _ _ _)) by done.
    change (Z.to_nat 4) with (S 3). rewrite peek_fill_step.
    change (peek_more 4 (NewReader src)) with true. cbv iota.
    rewrite Hfill. by rewrite peek_fill_enough. }
  unfold DecodeFromReader. by rewrite HP.
Qed.

(** The loop of [Peek] ends because its condition is false, not for
    want of turns. *)
Lemma peek_fill_exit (fuel : nat) (n : Z) (b : Reader) :
  n - len (buf b) <= Z.of_nat fuel \/ rerr b <> None ->
  peek_more n (peek_fill fuel n b) = false.
Proof.
  revert b. induction fuel as [|fuel IH]; intros b H.
  - cbn [peek_fill]. unfold peek_more. destruct H as [H|H].
    + by replace (len (buf b) <? n) with false by (symmetry; apply Z.ltb_ge; lia).
    + destruct (rerr b); [by rewrite andb_false_r | done].
  - rewrite peek_fill_step. destruct (peek_more n b) eqn:E; [|done].
    apply IH. unfold peek_more in E. rewrite !andb_true_iff, !Z.ltb_lt in E.
    destruct E as [[E1 E2] E3].
    unfold fill, src_read. destruct (rd b) as [|x l] eqn:Er; cbn [rerr buf].
    + by right.
    + left. rewrite len_app.
      destruct H as [H|H]; [|by destruct (rerr b)].
      assert (1 <= len (take (Z.to_nat (defaultBufSize - len (buf b))) (x :: l))); [|lia].
      unfold len. rewrite length_take. simpl length. unfold len in E2. lia.
Qed.

Lemma Peek_exit (b : Reader) (n : Z) :
  0 <= n -> peek_more n (peek_fill (Z.to_nat n) n b) = false.
Proof. intros H. apply peek_fill_exit. left. pose proof (len_nonneg (buf b)). lia. Qed.

(** C3 at a record of 4097 bytes: [Decode] gives the record back, the
    stream decoder does not.  [Peek] leaves 4096 bytes in the buffer and
    [Read] copies from the buffer only, so [n] is 4096, short of the
    4097 declared, and the call ends in "incomplete read". *)
Theorem DecodeFromReader_large_record :
  len (Encode big_record) = 4097 /\
  Decode zero_entry (Encode big_record) = Returns (big_record, None) /\
  DecodeFromReader zero_entry (NewReader (Encode big_record))
  = Returns (mkReader [x61] [] None, zero_entry, 4096, Some (ErrIncompleteRead 4097 4096)).
Proof. repeat split; vm_compute; reflexivity. Qed.

(** C5 at a stream of two bytes, a partial size header: the stream
    decoder reports [io.EOF] with a count of [0], the signal of a clean
    end, and [indexSegmentFile] takes a file that ends in such a header
    as a sound one. *)
Theorem DecodeFromReader_partial_header :
  DecodeFromReader zero_entry (NewReader [x10; x00]%byte)
  = Returns (mkReader [] [x10; x00]%byte None, zero_entry, 0, Some EOF) /\
  indexSegmentFile {[ current_data := Encode (mkEntry "a" TypeInt64 EmptyString 7) ++ [x10; x00]%byte ]}
    current_data 0 ∅
  = Returns ({[ "a" := mkIndexEntry 0 0 ]}, None).
Proof. split; vm_compute; reflexivity. Qed.

(** ** The writer *)

Lemma rotateActiveSegment_index (db : Db) (fs : FS) :
  index (fst (fst (rotateActiveSegment db fs))) = index db.
Proof.
  unfold rotateActiveSegment. destruct (out db); [|done].
  destruct (rename _ _ _); done.
Qed.

(** C10: when the append to the active segment fails, whether nothing
    or a part of the record was written, [handlePut] returns an error
    to the caller and the index is the one it was before the request;
    with the active file open and the request of a known type, the
    error returned is that of the write. *)
Theorem handlePut_write_fails (order : gmap string entry -> list (string * entry))
    (db : Db) (fs : FS) (req : putRequest) (written : nat) :
  req_key req <> MERGE ->
  exists db' fs' err,
    handlePut order (write_fails written) db fs req = Returns (db', fs', Some err) /\
    index db' = index db /\
    (out db = Some handle_open -> is_Some (fs !! current_data) ->
     req_valueType req = TypeString \/ req_valueType req = TypeInt64 ->
     err = ErrWrite).
Proof.
  intros Hk. unfold handlePut.
  destruct (String.eqb_spec (req_key req) MERGE) as [|_]; [done|].
  assert (Happ : forall db1 fs1, exists db' fs' err,
    append_entry (write_fails written) db1 fs1 req = Returns (db', fs', Some err) /\
    index db' = index db1 /\
    (out db1 = Some handle_open ->
     req_valueType req = TypeString \/ req_valueType req = TypeInt64 -> err = ErrWrite)).
  { intros db1 fs1. unfold append_entry, request_entry, out_Write.
    destruct (Byte.eqb (req_valueType req) TypeString) eqn:Es;
      [|destruct (Byte.eqb (req_valueType req) TypeInt64) eqn:Ei].
    - destruct (out db1) as [[|]|]; by eexists _, _, _.
    - destruct (out db1) as [[|]|]; by eexists _, _, _.
    - eexists _, _, _. split; [done|]. split; [done|].
      intros _ [Ht|Ht]; rewrite Ht in *; discriminate. }
  destruct (maxSegmentSize db <=? outOffset db).
  - unfold rotateActiveSegment, rename, openActiveSegment.
    destruct (out db) as [h|] eqn:Eo.
    + destruct (fs !! current_data) as [c|] eqn:Ec.
      * destruct (Happ (set_out (set_segments (set_out db (Some handle_closed) (outOffset db))
            (activeSegmentID db + 1)
            (segments db ++ [mkSegment (activeSegmentID db) (segment_file (activeSegmentID db)) true]))
            (Some handle_open)
            (len (default [] (<[segment_file (activeSegmentID db) := c]> (delete current_data fs)
                              !! current_data))))
          (<[current_data := default [] (<[segment_file (activeSegmentID db) := c]>
                                           (delete current_data fs) !! current_data)]>
             (<[segment_file (activeSegmentID db) := c]> (delete current_data fs))))
          as (db' & fs' & err & H1 & H2 & H3).
        exists db', fs', err. split; [exact H1|]. split; [exact H2|].
        intros _ _ Ht. by apply H3.
      * eexists _, _, _. split; [done|]. split; [done|]. by intros _ [? ?].
    + destruct (Happ db fs) as (db' & fs' & err & H1 & H2 & H3).
      exists db', fs', err. split; [exact H1|]. split; [exact H2|]. by intros ?.
  - destruct (Happ db fs) as (db' & fs' & err & H1 & H2 & H3).
    exists db', fs', err. split; [exact H1|]. split; [exact H2|].
    intros Ho _ Ht. by apply H3.
Qed.

Lemma handlePut_write_fails_witness :
  exists db' fs' err,
    handlePut map_to_list (write_fails 3) (fresh_db 100) fresh_fs
      (mkRequest "key" "value" 0 TypeString) = Returns (db', fs', Some err) /\
    index db' = index (fresh_db 100) /\
    (out (fresh_db 100) = Some handle_open -> is_Some (fresh_fs !! current_data) ->
     req_valueType (mkRequest "key" "value" 0 TypeString) = TypeString
     \/ req_valueType (mkRequest "key" "value" 0 TypeString) = TypeInt64 ->
     err = ErrWrite).
Proof.
  apply (handlePut_write_fails map_to_list (fresh_db 100) fresh_fs
           (mkRequest "key" "value" 0 TypeString) 3).
  discriminate.
Defined.

(** ** Segment integrity *)

Lemma Forall_insert_by {A : Type} (P : A -> Prop) (f : A -> Z) (x : A) (l : list A) :
  P x -> Forall P l -> Forall P (insert_by f x l).
Proof.
  intros Hx Hl. induction Hl as [|y r Hy Hr IH]; simpl.
  - by constructor.
  - destruct (f x <? f y); repeat constructor; done.
Qed.

Lemma Forall_sort_by {A : Type} (P : A -> Prop) (f : A -> Z) (l : list A) :
  Forall P l -> Forall P (sort_by f l).
Proof.
  unfold sort_by. induction 1 as [|x r Hx Hr IH]; simpl; [constructor|].
  by apply Forall_insert_by.
Qed.

Definition scanned_ok (acc : list segmentInfo * Z * bool) : Prop :=
  -1 <= snd (fst acc) /\
  Forall (fun seg => id seg <= snd (fst acc) /\ filePath seg = segment_file (id seg))
         (fst (fst acc)).

Lemma scan_entry_ok (acc : list segmentInfo * Z * bool) (name : path) :
  scanned_ok acc -> scanned_ok (scan_entry acc name).
Proof.
  destruct acc as [[infos m] h]. unfold scanned_ok. cbn [fst snd]. intros [Hm Hl].
  destruct name as [|i| |n]; cbn [scan_entry fst snd]; try done.
  destruct (Z.ltb_spec m i) as [Hlt|Hge]; (split; [lia|]).
  - apply Forall_app. split.
    + eapply Forall_impl; [exact Hl|]. cbn beta. intros seg [? ?]. split; [lia|done].
    + repeat constructor; cbn [id filePath]; lia.
  - apply Forall_app. split; [done|].
    repeat constructor; cbn [id filePath]; lia.
Qed.

Lemma scan_entries_ok (names : list path) (acc : list segmentInfo * Z * bool) :
  scanned_ok acc -> scanned_ok (foldl scan_entry acc names).
Proof.
  revert acc. induction names as [|name names IH]; intros acc H; simpl; [done|].
  apply IH. by apply scan_entry_ok.
Qed.

Lemma loadExistingSegments_ids (db : Db) (fs : FS) :
  Forall (fun seg => id seg < activeSegmentID (loadExistingSegments db fs)
                     /\ filePath seg = segment_file (id seg))
         (segments (loadExistingSegments db fs)).
Proof.
  unfold loadExistingSegments.
  pose proof (scan_entries_ok (ReadDir fs) ([], -1, false)) as H.
  destruct (foldl scan_entry ([], -1, false) (ReadDir fs)) as [[infos m] h].
  destruct H as [Hm Hl]; [split; [cbn; lia | constructor]|]. cbn [fst snd] in *.
  assert (Hgen : forall a, m < a ->
    Forall (fun seg => id seg < a /\ filePath seg = segment_file (id seg)) (sort_by id infos)).
  { intros a Ha. apply Forall_sort_by. eapply Forall_impl; [exact Hl|].
    cbn beta. intros seg [? ?]. split; [lia|done]. }
  destruct h; [|destruct (Z.leb_spec 0 m)];
    cbn [set_segments activeSegmentID segments]; apply Hgen; lia.
Qed.

Lemma loadExistingSegments_out (db : Db) (fs : FS) :
  out (loadExistingSegments db fs) = out db.
Proof.
  unfold loadExistingSegments.
  destruct (foldl scan_entry ([], -1, false) (ReadDir fs)) as [[infos m] h].
  destruct h; [done|]. by destruct (0 <=? m).
Qed.

Lemma rebuildIndex_fields (db : Db) (fs : FS) (db' : Db) (err : option error) :
  rebuildIndex db fs = Returns (db', err) ->
  segments db' = segments db /\ out db' = out db /\
  activeSegmentID db' = activeSegmentID db /\
  maxSegmentSize db' = maxSegmentSize db /\ outOffset db' = outOffset db /\
  (err <> None -> index db' = index db).
Proof.
  unfold rebuildIndex. destruct (index_segments _ _ _) as [[i [e|]]| |]; cbn [obind snd fst];
    intros H; inversion H; subst; done.
Qed.

Lemma lookup_foldl_delete (fs : FS) (segs : list segmentInfo) (p : path) :
  Forall (fun seg => filePath seg <> p) segs ->
  foldl (fun fs seg => delete (filePath seg) fs) fs segs !! p = fs !! p.
Proof.
  revert fs. induction segs as [|seg segs IH]; intros fs H; simpl; [done|].
  inversion H as [|? ? Hseg Hrest]; subst.
  rewrite IH by done. by rewrite lookup_delete_ne.
Qed.

(** [mergeSegments] leaves the active file as it is, keeps the handle
    and the active id, and leaves either the sealed list it found or the
    one merged segment, under the id of the first. *)
Lemma mergeSegments_effect (order : gmap string entry -> list (string * entry))
    (db : Db) (fs : FS) (db' : Db) (fs' : FS) (err : option error) :
  Forall (fun seg => filePath seg <> current_data) (segments db) ->
  mergeSegments order db fs = Returns (db', fs', err) ->
  fs' !! current_data = fs !! current_data /\
  out db' = out db /\ activeSegmentID db' = activeSegmentID db /\
  maxSegmentSize db' = maxSegmentSize db /\ outOffset db' = outOffset db /\
  (segments db' = segments db \/
   exists first rest, segments db = first :: rest /\
     segments db' = [mkSegment (id first) (filePath first) true]).
Proof.
  intros Hpaths. unfold mergeSegments.
  destruct (collect_segments fs (segments db) ∅) as [[ke [e|]]| |]; cbn [obind snd fst];
    try discriminate.
  { intros H; inversion H; subst. by repeat split; try left. }
  destruct (decide (size ke = 0%nat)).
  { intros H; inversion H; subst. by repeat split; try left. }
  destruct (segments db) as [|first rest] eqn:Eseg; [discriminate|].
  set (fs1 := foldl _ _ _).
  assert (Hfs1 : fs1 !! current_data = fs !! current_data).
  { unfold fs1. rewrite lookup_foldl_delete by done. by rewrite lookup_insert_ne. }
  unfold rename. destruct (fs1 !! temp_merge) as [c|] eqn:Et.
  - assert (Hfirst : filePath first <> current_data) by (by inversion Hpaths).
    set (db1 := set_segments db _ _).
    destruct (rebuildIndex db1 _) as [[db2 e2]| |] eqn:Er; cbn [obind snd fst]; try discriminate.
    apply rebuildIndex_fields in Er as (Hs & Ho & Ha & Hm & Hoo & _).
    intros H. assert (Hdb : db' = db2) by (destruct e2; by inversion H).
    assert (Hfs : fs' = <[filePath first := c]> (delete temp_merge fs1))
      by (destruct e2; by inversion H).
    subst db' fs'. rewrite lookup_insert_ne, lookup_delete_ne by done.
    repeat split; try done. right. exists first, rest. split; [done|]. by rewrite Hs.
  - intros H; inversion H; subst. repeat split; try done. by left.
Qed.

Lemma rotateActiveSegment_integrity (db : Db) (fs : FS) :
  segment_integrity db fs ->
  exists db1 fs1, rotateActiveSegment db fs = (db1, fs1, None) /\
    segment_integrity db1 fs1 /\ index db1 = index db /\
    maxSegmentSize db1 = maxSegmentSize db /\
    outOffset db1 = 0 /\ fs1 !! current_data = Some [] /\
    activeSegmentID db1 = activeSegmentID db + 1.
Proof.
  intros ([c Hc] & Ho & Hs). unfold rotateActiveSegment, rename, openActiveSegment.
  rewrite Ho. cbn [set_out activeSegmentID]. rewrite Hc.
  rewrite lookup_insert_ne, lookup_delete_eq by done.
  eexists _, _. split; [done|].
  cbn [set_out set_segments index maxSegmentSize outOffset activeSegmentID segments
       default].
  repeat split.
  - rewrite lookup_insert_eq. by eexists.
  - cbn [segments activeSegmentID]. apply Forall_app. split.
    + eapply Forall_impl; [exact Hs|]. cbn beta. intros seg [? ?].
      cbn [set_out set_segments activeSegmentID]. split; [lia|done].
    + repeat constructor; cbn [id filePath set_out set_segments activeSegmentID]; lia.
  - by rewrite lookup_insert_eq.
Qed.



(** ** The reserved key *)




(** ** Segment size *)

Lemma rotateActiveSegment_in_step (db : Db) (fs : FS) :
  offset_in_step db fs ->
  exists db1 fs1, rotateActiveSegment db fs = (db1, fs1, None) /\
    offset_in_step db1 fs1 /\ fs1 !! current_data = Some [] /\
    index db1 = index db /\ maxSegmentSize db1 = maxSegmentSize db /\
    activeSegmentID db1 = activeSegmentID db + 1.
Proof.
  intros (Ho & c & Hc & Hoff). unfold rotateActiveSegment, rename, openActiveSegment.
  rewrite Ho. cbn [set_out activeSegmentID]. rewrite Hc.
  rewrite lookup_insert_ne, lookup_delete_eq by done.
  eexists _, _. split; [done|]. cbn [default].
  repeat split.
  exists []. split; [by rewrite lookup_insert_eq | done].
  by rewrite lookup_insert_eq.
Qed.

Lemma append_entry_ok (db : Db) (fs : FS) (req : putRequest) (e : entry) (c : list byte) :
  out db = Some handle_open ->
  fs !! current_data = Some c ->
  request_entry req = Some e ->
  append_entry write_ok db fs req
  = Returns (set_out (set_index db (<[req_key req := mkIndexEntry (activeSegmentID db) (outOffset db)]>
                                      (index db)))
               (Some handle_open) (outOffset db + len (Encode e)),
             <[current_data := c ++ Encode e]> fs, None).
Proof.
  intros Ho Hc He. unfold append_entry, out_Write. rewrite He, Ho, Hc.
  cbn [default set_index out]. by rewrite Ho.
Qed.



(** ** Round trip through the engine *)

Lemma readEntryFromFile_at (content : list byte) (off : Z) (r : entry) (rest : list byte) :
  0 <= off ->
  drop (Z.to_nat off) content = Encode r ++ rest ->
  is_record r ->
  len (Encode r) <= defaultBufSize ->
  readEntryFromFile content off = Returns (r, None).
Proof.
  intros Hoff Hdrop Hr Hsize. unfold readEntryFromFile.
  replace (off <? 0) with false by (symmetry; apply Z.ltb_ge; lia).
  rewrite Hdrop.
  assert (H13 : 13 <= len (Encode r)).
  { rewrite len_Encode. pose proof (len_valueData_pos r).
    pose proof (len_nonneg (bytes_of (key r))). lia. }
  assert (Htake : take (Z.to_nat defaultBufSize) (Encode r ++ rest)
                  = Encode r ++ take (Z.to_nat defaultBufSize - length (Encode r)) rest).
  { apply take_app_ge. unfold len in Hsize. lia. }
  rewrite DecodeFromReader_fresh.
  2: { rewrite Htake, len_app.
       pose proof (len_nonneg (take (Z.to_nat defaultBufSize - length (Encode r)) rest)). lia. }
  destruct (DecodeFromReader_buffered zero_entry
              (mkReader (drop (Z.to_nat defaultBufSize) (Encode r ++ rest))
                 (take (Z.to_nat defaultBufSize) (Encode r ++ rest)) None)
              r _ Htake Hr) as (e' & o & Hdec & ->).
  rewrite (Decode_Encode r Hr) in Hdec. inversion Hdec; subst. done.
Qed.

Lemma Get_entry_at (db : Db) (fs : FS) (k : string) (r : entry) :
  entry_at db fs k r ->
  is_record r ->
  len (Encode r) <= defaultBufSize ->
  (valueType r = TypeString -> Get db fs k = Returns (stringValue r, None)) /\
  (valueType r = TypeInt64 -> GetInt64 db fs k = Returns (int64Value r, None)).
Proof.
  intros (ie & content & rest & Hidx & _ & Hoff & Hfile & Hdrop) Hr Hsize.
  pose proof (readEntryFromFile_at content (offset ie) r rest Hoff Hdrop Hr Hsize) as Hread.
  split; intros Ht.
  - unfold Get. rewrite Hidx, Hfile, Hread. cbn [obind snd fst]. by rewrite Ht.
  - unfold GetInt64. rewrite Hidx, Hfile, Hread. cbn [obind snd fst]. by rewrite Ht.
Qed.

Lemma len_Encode_pos (r : entry) : 13 <= len (Encode r).
Proof.
  rewrite len_Encode. pose proof (len_valueData_pos r).
  pose proof (len_nonneg (bytes_of (key r))). lia.
Qed.

(** Appending to the active file moves no record that the index points
    to. *)
Lemma entry_at_append (db db' : Db) (fs : FS) (k : string) (r : entry) (x : list byte) :
  index db' !! k = index db !! k ->
  activeSegmentID db' = activeSegmentID db ->
  entry_at db fs k r ->
  entry_at db' (<[current_data := default [] (fs !! current_data) ++ x]> fs) k r.
Proof.
  intros Hidx Hact (ie & content & rest & Hi & Hseg & Hoff & Hfile & Hdrop).
  assert (Hfo : file_of db' ie = file_of db ie) by (unfold file_of; by rewrite Hact).
  destruct (decide (file_of db ie = current_data)) as [Hcur|Hcur].
  - exists ie, (content ++ x), (rest ++ x).
    rewrite Hidx, Hact, Hfo, Hcur. rewrite Hcur in Hfile. rewrite Hfile. cbn [default].
    repeat split; try done.
    + by rewrite lookup_insert_eq.
    + rewrite drop_app_le.
      * by rewrite Hdrop, <- app_assoc.
      * destruct (decide (Z.to_nat (offset ie) <= length content)%nat) as [|Hgt]; [done|].
        rewrite drop_ge in Hdrop by lia.
        pose proof (len_Encode_pos r) as Hp. apply (f_equal length) in Hdrop.
        rewrite length_app in Hdrop. unfold len in Hp. simpl in Hdrop. lia.
  - exists ie, content, rest. rewrite Hidx, Hact, Hfo.
    repeat split; try done. by rewrite lookup_insert_ne.
Qed.

Lemma rotateActiveSegment_entry_at (db : Db) (fs : FS) (k : string) (r : entry) :
  entry_at db fs k r ->
  entry_at (fst (fst (rotateActiveSegment db fs))) (snd (fst (rotateActiveSegment db fs))) k r.
Proof.
  intros (ie & content & rest & Hi & Hseg & Hoff & Hfile & Hdrop).
  unfold rotateActiveSegment, rename, openActiveSegment.
  destruct (out db) as [h|]; [|by exists ie, content, rest].
  cbn [set_out activeSegmentID].
  destruct (fs !! current_data) as [c|] eqn:Ec.
  2: { cbn [fst snd]. exists ie, content, rest. by repeat split. }
  cbn [fst snd]. exists ie, content, rest.
  cbn [set_out set_segments index activeSegmentID].
  repeat split; try done; [lia|].
  unfold file_of in *. cbn [set_out set_segments activeSegmentID].
  replace (segmentID ie =? activeSegmentID db + 1) with false
    by (symmetry; apply Z.eqb_neq; lia).
  destruct (Z.eqb_spec (segmentID ie) (activeSegmentID db)) as [Heq|Hne].
  - rewrite Heq. rewrite lookup_insert_ne, lookup_insert_eq by done. congruence.
  - rewrite !lookup_insert_ne, lookup_delete_ne by congruence. done.
Qed.

Lemma append_entry_entry_at (w : write_fault) (db : Db) (fs : FS) (req : putRequest)
    (k : string) (r : entry) :
  entry_at db fs k r ->
  req_key req <> k ->
  exists db' fs' err,
    append_entry w db fs req = Returns (db', fs', err) /\ entry_at db' fs' k r.
Proof.
  intros Hat Hk. unfold append_entry, out_Write.
  destruct (request_entry req) as [e|]; [|by eexists _, _, _].
  destruct (out db) as [[|]|]; try (by eexists _, _, _).
  destruct w as [|n].
  - eexists _, _, _. split; [done|]. apply (entry_at_append db); [|done|done].
    cbn [set_out set_index index]. by rewrite lookup_insert_ne.
  - eexists _, _, _. split; [done|]. by apply (entry_at_append db).
Qed.

(** A request under another key, whatever becomes of it, leaves the
    entry of [k] in place. *)
Lemma handlePut_entry_at (order : gmap string entry -> list (string * entry))
    (w : write_fault) (db : Db) (fs : FS) (req : putRequest) (k : string) (r : entry) :
  entry_at db fs k r ->
  req_key req <> k ->
  req_key req <> MERGE ->
  exists db' fs' err,
    handlePut order w db fs req = Returns (db', fs', err) /\ entry_at db' fs' k r.
Proof.
  intros Hat Hk Hm. unfold handlePut.
  destruct (String.eqb_spec (req_key req) MERGE) as [|_]; [done|].
  destruct (maxSegmentSize db <=? outOffset db).
  - pose proof (rotateActiveSegment_entry_at db fs k r Hat) as Hrot.
    destruct (rotateActiveSegment db fs) as [[db1 fs1] [err|]]; cbn [fst snd] in Hrot.
    + by eexists _, _, _.
    + by apply append_entry_entry_at.
  - by apply append_entry_entry_at.
Qed.

Lemma run_entry_at (order : gmap string entry -> list (string * entry))
    (reqs : list (write_fault * putRequest)) (db : Db) (fs : FS) (k : string) (r : entry) :
  entry_at db fs k r ->
  Forall (fun wr => req_key (snd wr) <> k /\ req_key (snd wr) <> MERGE) reqs ->
  exists db' fs', run order reqs db fs = Returns (db', fs') /\ entry_at db' fs' k r.
Proof.
  revert db fs. induction reqs as [|[w req] reqs IH]; intros db fs Hat Hall.
  - by exists db, fs.
  - inversion Hall as [|? ? [Hk Hm] Hrest]; subst. cbn [snd] in *.
    destruct (handlePut_entry_at order w db fs req k r Hat Hk Hm)
      as (db1 & fs1 & err & Hput & Hat1).
    cbn [run fst snd]. rewrite Hput. cbn [obind fst snd]. by apply IH.
Qed.

(** A request that is written leaves its record where the index says. *)
Lemma handlePut_establishes (order : gmap string entry -> list (string * entry))
    (db : Db) (fs : FS) (req : putRequest) (e : entry) :
  offset_in_step db fs ->
  req_key req <> MERGE ->
  request_entry req = Some e ->
  exists db' fs',
    handlePut order write_ok db fs req = Returns (db', fs', None) /\
    entry_at db' fs' (req_key req) e.
Proof.
  intros Hstep Hk He.
  assert (Happ : forall db1 fs1, offset_in_step db1 fs1 ->
    exists db' fs', append_entry write_ok db1 fs1 req = Returns (db', fs', None) /\
      entry_at db' fs' (req_key req) e).
  { intros db1 fs1 (Ho & c & Hc & Hoff).
    rewrite (append_entry_ok db1 fs1 req e c) by done.
    eexists _, _. split; [done|].
    exists (mkIndexEntry (activeSegmentID db1) (outOffset db1)), (c ++ Encode e), [].
    cbn [set_out set_index index activeSegmentID segmentID offset].
    unfold file_of. cbn [segmentID activeSegmentID]. rewrite Z.eqb_refl.
    rewrite !lookup_insert_eq. repeat split; try done; try lia.
    - rewrite Hoff. apply len_nonneg.
    - rewrite Hoff, app_nil_r. apply drop_app_length'. unfold len. lia. }
  unfold handlePut.
  destruct (String.eqb_spec (req_key req) MERGE) as [|_]; [done|].
  destruct (maxSegmentSize db <=? outOffset db).
  - destruct (rotateActiveSegment_in_step db fs Hstep) as (db1 & fs1 & -> & Hstep1 & _).
    by apply Happ.
  - by apply Happ.
Qed.

(** C1, as the code has it: for a key other than the reserved
    ["__MERGE__"] and a record that fits the reader's buffer, on a
    database whose [outOffset] is the size of the active file, [Put]
    (or [PutInt64]) succeeds, and after any further requests under other
    keys than [k] and the reserved one, written or failed, with the
    rotations they bring, [Get] (or [GetInt64]) returns the value. *)
Theorem Put_Get_round_trip (order : gmap string entry -> list (string * entry))
    (db : Db) (fs : FS) (k : string) (reqs : list (write_fault * putRequest)) :
  offset_in_step db fs ->
  k <> MERGE ->
  Forall (fun wr => req_key (snd wr) <> k /\ req_key (snd wr) <> MERGE) reqs ->
  (forall v : string,
     len (Encode (mkEntry k TypeString v 0)) <= defaultBufSize ->
     exists db1 fs1 db2 fs2,
       Put order write_ok db fs k v = Returns (db1, fs1, None) /\
       run order reqs db1 fs1 = Returns (db2, fs2) /\
       Get db2 fs2 k = Returns (v, None)) /\
  (forall v : Z,
     - 2 ^ 63 <= v < 2 ^ 63 ->
     len (Encode (mkEntry k TypeInt64 EmptyString v)) <= defaultBufSize ->
     exists db1 fs1 db2 fs2,
       PutInt64 order write_ok db fs k v = Returns (db1, fs1, None) /\
       run order reqs db1 fs1 = Returns (db2, fs2) /\
       GetInt64 db2 fs2 k = Returns (v, None)).
Proof.
  intros Hstep Hk Hreqs.
  assert (Hgen : forall req e, req_key req = k -> request_entry req = Some e ->
            is_record e -> len (Encode e) <= defaultBufSize ->
            exists db1 fs1 db2 fs2,
              handlePut order write_ok db fs req = Returns (db1, fs1, None) /\
              run order reqs db1 fs1 = Returns (db2, fs2) /\
              (valueType e = TypeString -> Get db2 fs2 k = Returns (stringValue e, None)) /\
              (valueType e = TypeInt64 -> GetInt64 db2 fs2 k = Returns (int64Value e, None))).
  { intros req e Hreq He Hrec Hsize.
    destruct (handlePut_establishes order db fs req e Hstep) as (db1 & fs1 & Hput & Hat);
      [by rewrite Hreq | done |].
    rewrite Hreq in Hat.
    destruct (run_entry_at order reqs db1 fs1 k e Hat Hreqs) as (db2 & fs2 & Hrun & Hat2).
    exists db1, fs1, db2, fs2. split; [done|]. split; [done|].
    by apply Get_entry_at. }
  split.
  - intros v Hsize.
    destruct (Hgen (mkRequest k v 0 TypeString) (mkEntry k TypeString v 0))
      as (db1 & fs1 & db2 & fs2 & H1 & H2 & H3 & _); try done.
    { split; [unfold defaultBufSize in Hsize; lia | by left]. }
    exists db1, fs1, db2, fs2. split; [exact H1|]. split; [exact H2|]. by apply H3.
  - intros v Hv Hsize.
    destruct (Hgen (mkRequest k EmptyString v TypeInt64) (mkEntry k TypeInt64 EmptyString v))
      as (db1 & fs1 & db2 & fs2 & H1 & H2 & _ & H4); try done.
    { split; [unfold defaultBufSize in Hsize; lia | by right]. }
    exists db1, fs1, db2, fs2. split; [exact H1|]. split; [exact H2|]. by apply H4.
Qed.

Lemma Put_Get_round_trip_witness :
  exists db1 fs1 db2 fs2,
    Put map_to_list write_ok (fresh_db 20) fresh_fs "a" "1" = Returns (db1, fs1, None) /\
    run map_to_list [(write_ok, mkRequest "b" "2" 0 TypeString);
                     (write_fails 2, mkRequest "c" "3" 0 TypeString)] db1 fs1
    = Returns (db2, fs2) /\
    Get db2 fs2 "a" = Returns ("1", None).
Proof.
  destruct (Put_Get_round_trip map_to_list (fresh_db 20) fresh_fs "a"
              [(write_ok, mkRequest "b" "2" 0 TypeString);
               (write_fails 2, mkRequest "c" "3" 0 TypeString)]) as [H _].
  - split; [reflexivity|]. exists []. split; reflexivity.
  - discriminate.
  - repeat constructor; discriminate.
  - apply (H "1"). vm_compute. discriminate.
Defined.

(** C1, as stated, fails at the key ["__MERGE__"]: the [Put] returns
    without an error and the [Get] that follows does not return the
    value but [ErrNotFound]. *)
Lemma Put_Get_reserved_key :
  Put map_to_list write_ok (fresh_db 100) fresh_fs "__MERGE__" "value"
  = Returns (fresh_db 100, fresh_fs, None) /\
  Get (fresh_db 100) fresh_fs "__MERGE__" = Returns (EmptyString, Some ErrNotFound) /\
  Get (fresh_db 100) fresh_fs "__MERGE__" <> Returns ("value", None).
Proof. split; [reflexivity | split; [reflexivity | discriminate]]. Qed.

(** * Further properties of the codec *)

(** X1: [Decode] of [Encode]'s bytes into any receiver.  An [INT64]
    entry comes back with its key and integer, the receiver keeping its
    string; an entry of any other type, the unknown ones included, comes
    back as a [STRING] entry with its key and string, the receiver
    keeping its integer. *)
Theorem Decode_Encode_receiver (e0 r : entry) :
  len (Encode r) < 2 ^ 32 ->
  - 2 ^ 63 <= int64Value r < 2 ^ 63 ->
  Decode e0 (Encode r)
  = Returns (if Byte.eqb (valueType r) TypeInt64
             then mkEntry (key r) TypeInt64 (stringValue e0) (int64Value r)
             else mkEntry (key r) TypeString (stringValue r) (int64Value e0),
             None).
Proof. apply Decode_Encode_into. Qed.

Lemma Decode_Encode_receiver_witness :
  Decode (mkEntry "old" TypeInt64 "kept" 5) (Encode (mkEntry "key" x07 "value" 9))
  = Returns (mkEntry "key" TypeString "value" 5, None).
Proof.
  apply (Decode_Encode_receiver (mkEntry "old" TypeInt64 "kept" 5) (mkEntry "key" x07 "value" 9)).
  - vm_compute. reflexivity.
  - cbn [int64Value]. lia.
Defined.

(** X2: the header [Encode] writes: the first four bytes hold the
    length of the whole encoding, the next four the length of the key,
    and the encoding is 9 bytes longer than key and payload. *)
Theorem Encode_header (e : entry) :
  len (Encode e) < 2 ^ 32 ->
  le_get (take 4 (Encode e)) = len (Encode e) /\
  le_get (take 4 (drop 4 (Encode e))) = len (bytes_of (key e)) /\
  len (Encode e) = 9 + len (bytes_of (key e)) + len (valueData_of e).
Proof.
  intros Hfit. pose proof (len_Encode e) as Hlen. rewrite Hlen in Hfit.
  pose proof (len_valueData_pos e) as Hvd.
  pose proof (len_nonneg (bytes_of (key e))) as Hk.
  split; [|split; [|done]].
  - rewrite Hlen. unfold Encode. cbv zeta.
    rewrite take_app_length' by (by rewrite length_le_put).
    replace (4 + 4 + len (bytes_of (key e)) + 1 + len (valueData_of e))
      with (9 + len (bytes_of (key e)) + len (valueData_of e)) by lia.
    apply le_get_put_uint32. lia.
  - unfold Encode. cbv zeta.
    rewrite drop_app_length' by (by rewrite length_le_put).
    rewrite take_app_length' by (by rewrite length_le_put).
    apply le_get_put_uint32. lia.
Qed.

Lemma Encode_header_witness :
  le_get (take 4 (Encode (mkEntry "key" TypeString "value" 0)))
  = len (Encode (mkEntry "key" TypeString "value" 0)) /\
  le_get (take 4 (drop 4 (Encode (mkEntry "key" TypeString "value" 0))))
  = len (bytes_of (key (mkEntry "key" TypeString "value" 0))) /\
  len (Encode (mkEntry "key" TypeString "value" 0))
  = 9 + len (bytes_of (key (mkEntry "key" TypeString "value" 0)))
    + len (valueData_of (mkEntry "key" TypeString "value" 0)).
Proof.
  apply (Encode_header (mkEntry "key" TypeString "value" 0)). vm_compute. reflexivity.
Defined.

(** X3: records with the same encoding are the same record. *)
Theorem Encode_injective (r1 r2 : entry) :
  is_record r1 -> is_record r2 -> Encode r1 = Encode r2 -> r1 = r2.
Proof.
  intros H1 H2 HE.
  pose proof (Decode_Encode r1 H1) as D1. pose proof (Decode_Encode r2 H2) as D2.
  rewrite HE in D1. rewrite D1 in D2. by inversion D2.
Qed.

Lemma Encode_injective_witness :
  mkEntry "n" TypeInt64 EmptyString 42 = mkEntry "n" TypeInt64 EmptyString 42.
Proof.
  apply (Encode_injective (mkEntry "n" TypeInt64 EmptyString 42)
           (mkEntry "n" TypeInt64 EmptyString 42)).
  - split; [vm_compute; reflexivity|]. right. repeat split; cbn [int64Value]; lia.
  - split; [vm_compute; reflexivity|]. right. repeat split; cbn [int64Value]; lia.
  - reflexivity.
Defined.

(** * Further properties of the stream decoder *)

(** X4: a record that fits the reader's buffer is read back from a new
    reader, whatever follows it in the stream: the count is the length
    of its encoding, and the reader is left with the bytes behind it. *)
Theorem DecodeFromReader_round_trip (r : entry) (rest : list byte) :
  is_record r ->
  len (Encode r) <= defaultBufSize ->
  DecodeFromReader zero_entry (NewReader (Encode r ++ rest))
  = Returns (mkReader (drop (Z.to_nat defaultBufSize) (Encode r ++ rest))
               (take (Z.to_nat defaultBufSize - length (Encode r)) rest) None,
             r, len (Encode r), None).
Proof.
  intros Hr Hsize.
  pose proof (len_Encode_pos r) as H13.
  assert (Htake : take (Z.to_nat defaultBufSize) (Encode r ++ rest)
                  = Encode r ++ take (Z.to_nat defaultBufSize - length (Encode r)) rest).
  { apply take_app_ge. unfold len in Hsize. lia. }
  rewrite DecodeFromReader_fresh.
  2: { rewrite Htake, len_app.
       pose proof (len_nonneg (take (Z.to_nat defaultBufSize - length (Encode r)) rest)). lia. }
  destruct (DecodeFromReader_buffered zero_entry
              (mkReader (drop (Z.to_nat defaultBufSize) (Encode r ++ rest))
                 (take (Z.to_nat defaultBufSize) (Encode r ++ rest)) None)
              r _ Htake Hr) as (e' & o & Hdec & ->).
  rewrite (Decode_Encode r Hr) in Hdec. by inversion Hdec.
Qed.

Lemma DecodeFromReader_round_trip_witness :
  DecodeFromReader zero_entry (NewReader (Encode (mkEntry "n" TypeInt64 EmptyString 42) ++ [x01; x02]))
  = Returns (mkReader (drop (Z.to_nat defaultBufSize)
                         (Encode (mkEntry "n" TypeInt64 EmptyString 42) ++ [x01; x02]))
               (take (Z.to_nat defaultBufSize - length (Encode (mkEntry "n" TypeInt64 EmptyString 42)))
                  [x01; x02]) None,
             mkEntry "n" TypeInt64 EmptyString 42,
             len (Encode (mkEntry "n" TypeInt64 EmptyString 42)), None).
Proof.
  apply (DecodeFromReader_round_trip (mkEntry "n" TypeInt64 EmptyString 42) [x01; x02]).
  - split; [vm_compute; reflexivity|]. right. repeat split; cbn [int64Value]; lia.
  - vm_compute. discriminate.
Defined.

(** A record longer than the buffer of a new reader is cut short. *)
Lemma DecodeFromReader_too_long (e r : entry) (rest : list byte) :
  len (Encode r) < 2 ^ 32 ->
  defaultBufSize < len (Encode r) ->
  DecodeFromReader e (NewReader (Encode r ++ rest))
  = Returns (mkReader (drop (Z.to_nat defaultBufSize) (Encode r ++ rest)) [] None,
             e, defaultBufSize,
             Some (ErrIncompleteRead (len (Encode r)) defaultBufSize)).
Proof.
  intros Hfit Hbig.
  set (src := Encode r ++ rest).
  assert (Hsrc : (Z.to_nat defaultBufSize <= length src)%nat).
  { unfold src. rewrite length_app. unfold len in Hbig. lia. }
  assert (Hlt : len (take (Z.to_nat defaultBufSize) src) = defaultBufSize).
  { unfold len. rewrite length_take. unfold defaultBufSize in *. lia. }
  rewrite DecodeFromReader_fresh by (rewrite Hlt; unfold defaultBufSize; lia).
  assert (Hhead : take 4 (take (Z.to_nat defaultBufSize) src) = take 4 (Encode r)).
  { rewrite take_take. unfold src.
    replace (4 `min` Z.to_nat defaultBufSize)%nat with 4%nat by (unfold defaultBufSize; lia).
    apply take_app_le. unfold len, defaultBufSize in Hbig. lia. }
  unfold DecodeFromReader, Peek. cbn [buf rd rerr].
  rewrite peek_fill_enough by (cbn [buf]; rewrite Hlt; unfold defaultBufSize; lia).
  change (defaultBufSize <? 4) with false. cbv iota. cbn [buf rd rerr].
  rewrite Hlt. change (defaultBufSize <? 4) with false. cbv iota.
  change (Z.to_nat 4) with 4%nat. rewrite Hhead.
  rewrite (le_get_Encode r Hfit).
  replace (len (Encode r) <? 9) with false
    by (symmetry; apply Z.ltb_ge; unfold defaultBufSize in Hbig; lia).
  unfold Read. cbn [buf rd rerr].
  replace (len (Encode r) =? 0) with false
    by (symmetry; apply Z.eqb_neq; unfold defaultBufSize in Hbig; lia).
  destruct (take (Z.to_nat defaultBufSize) src) as [|x l] eqn:Et.
  { unfold len in Hlt. simpl in Hlt. unfold defaultBufSize in Hlt. lia. }
  assert (Hle : (length (x :: l) <= Z.to_nat (len (Encode r)))%nat)
    by (unfold len in *; lia).
  rewrite (take_ge (x :: l)), (drop_ge (x :: l)) by exact Hle.
  rewrite Hlt.
  replace (defaultBufSize =? len (Encode r)) with false by (symmetry; apply Z.eqb_neq; lia).
  done.
Qed.

(** X5: an encoding longer than the reader's buffer is not read back
    from a new reader: [Read] hands out the 4096 buffered bytes, the
    count is 4096, the receiver is untouched and the error is
    "incomplete read". *)
Theorem DecodeFromReader_beyond_buffer (e r : entry) (rest : list byte) :
  len (Encode r) < 2 ^ 32 ->
  defaultBufSize < len (Encode r) ->
  DecodeFromReader e (NewReader (Encode r ++ rest))
  = Returns (mkReader (drop (Z.to_nat defaultBufSize) (Encode r ++ rest)) [] None,
             e, defaultBufSize,
             Some (ErrIncompleteRead (len (Encode r)) defaultBufSize)).
Proof. apply DecodeFromReader_too_long. Qed.

Lemma DecodeFromReader_beyond_buffer_witness :
  DecodeFromReader zero_entry (NewReader (Encode big_record ++ []))
  = Returns (mkReader (drop (Z.to_nat defaultBufSize) (Encode big_record ++ [])) [] None,
             zero_entry, defaultBufSize,
             Some (ErrIncompleteRead (len (Encode big_record)) defaultBufSize)).
Proof.
  apply (DecodeFromReader_beyond_buffer zero_entry big_record []).
  - vm_compute. reflexivity.
  - vm_compute. reflexivity.
Defined.

(** X6: a stream of fewer than four bytes, empty or a torn size
    header, is reported as a clean end: count [0] and [io.EOF], the
    receiver untouched. *)
Theorem DecodeFromReader_short_stream (e : entry) (src : list byte) :
  (length src < 4)%nat ->
  DecodeFromReader e (NewReader src) = Returns (mkReader [] src None, e, 0, Some EOF).
Proof.
  intros H.
  destruct src as [|a [|b [|c [|d src]]]]; [| | | | simpl in H; lia];
    vm_compute; reflexivity.
Qed.

Lemma DecodeFromReader_short_stream_witness :
  DecodeFromReader zero_entry (NewReader [x10; x00; x00]%byte)
  = Returns (mkReader [] [x10; x00; x00]%byte None, zero_entry, 0, Some EOF).
Proof.
  apply (DecodeFromReader_short_stream zero_entry [x10; x00; x00]%byte). simpl. lia.
Defined.

(** X7: a stream whose first four bytes declare a total size below 9
    is refused with "invalid entry size" and a count of [0]; nothing is
    taken from the reader beyond the filling of its buffer. *)
Theorem DecodeFromReader_invalid_size (e : entry) (src : list byte) :
  (4 <= length src)%nat ->
  le_get (take 4 src) < 9 ->
  DecodeFromReader e (NewReader src)
  = Returns (mkReader (drop (Z.to_nat defaultBufSize) src)
               (take (Z.to_nat defaultBufSize) src) None,
             e, 0, Some (ErrInvalidEntrySize (le_get (take 4 src)))).
Proof.
  intros H4 Hsize.
  assert (Hlen : 4 <= len (take (Z.to_nat defaultBufSize) src)).
  { unfold len. rewrite length_take. unfold defaultBufSize. lia. }
  rewrite DecodeFromReader_fresh by exact Hlen.
  unfold DecodeFromReader, Peek.
  rewrite peek_fill_enough by (cbn [buf]; exact Hlen).
  change (defaultBufSize <? 4) with false. cbv iota. cbn [buf rd rerr].
  replace (len (take (Z.to_nat defaultBufSize) src) <? 4) with false
    by (symmetry; apply Z.ltb_ge; lia).
  change (Z.to_nat 4) with 4%nat. rewrite take_take.
  replace (4 `min` Z.to_nat defaultBufSize)%nat with 4%nat by (unfold defaultBufSize; lia).
  by replace (le_get (take 4 src) <? 9) with true by (symmetry; apply Z.ltb_lt; lia).
Qed.

Lemma DecodeFromReader_invalid_size_witness :
  DecodeFromReader zero_entry (NewReader [x08; x00; x00; x00; x01]%byte)
  = Returns (mkReader (drop (Z.to_nat defaultBufSize) [x08; x00; x00; x00; x01]%byte)
               (take (Z.to_nat defaultBufSize) [x08; x00; x00; x00; x01]%byte) None,
             zero_entry, 0,
             Some (ErrInvalidEntrySize (le_get (take 4 [x08; x00; x00; x00; x01]%byte)))).
Proof.
  apply (DecodeFromReader_invalid_size zero_entry [x08; x00; x00; x00; x01]%byte).
  - simpl. lia.
  - vm_compute. reflexivity.
Defined.

Lemma fill_content (b : Reader) : buf (fill b) ++ rd (fill b) = buf b ++ rd b.
Proof.
  unfold fill, src_read. destruct (rd b) as [|x l]; cbn [buf rd].
  - by rewrite app_nil_r.
  - by rewrite <- app_assoc, take_drop.
Qed.

Lemma peek_fill_content (fuel : nat) (n : Z) (b : Reader) :
  buf (peek_fill fuel n b) ++ rd (peek_fill fuel n b) = buf b ++ rd b.
Proof.
  revert b. induction fuel as [|fuel IH]; intros b; [done|].
  rewrite peek_fill_step. destruct (peek_more n b); [|done].
  by rewrite IH, fill_content.
Qed.

Lemma DecodeFromReader_consumes (e : entry) (b b' : Reader) (e' : entry) (n : Z) :
  DecodeFromReader e b = Returns (b', e', n, None) ->
  exists data,
    buf b ++ rd b = data ++ buf b' ++ rd b' /\
    len data = n /\ 9 <= n /\ le_get (take 4 data) = n /\
    Decode e data = Returns (e', None).
Proof.
  unfold DecodeFromReader, Peek.
  pose proof (peek_fill_content (Z.to_nat 4) 4 b) as Hcontent.
  set (b1 := peek_fill (Z.to_nat 4) 4 b) in *.
  change (defaultBufSize <? 4) with false. cbv iota.
  destruct (Z.ltb_spec (len (buf b1)) 4) as [Hshort|Hlong].
  { destruct (is_EOF _); intros H; inversion H. }
  set (ts := le_get (take (Z.to_nat 4) (buf b1))).
  destruct (Z.ltb_spec ts 9) as [Hsmall|Hbig]; [intros H; inversion H|].
  unfold Read.
  replace (ts =? 0) with false by (symmetry; apply Z.eqb_neq; lia).
  destruct (buf b1) as [|x l] eqn:Eb.
  { unfold len in Hlong. simpl in Hlong. lia. }
  rewrite <- Eb in *. cbn [fst snd].
  destruct (Z.eqb_spec (len (take (Z.to_nat ts) (buf b1))) ts) as [Heq|Hne];
    cbn [negb]; [|intros H; inversion H].
  destruct (Decode e (take (Z.to_nat ts) (buf b1))) as [[e1 o1]| |] eqn:Ed;
    cbn [obind fst snd]; intros H; inversion H; subst. clear H.
  exists (take (Z.to_nat ts) (buf b1)). cbn [buf rd].
  split; [|split; [|split; [|split]]].
  - rewrite <- Hcontent. by rewrite app_assoc, take_drop.
  - done.
  - lia.
  - rewrite take_take. replace (4 `min` Z.to_nat ts)%nat with 4%nat by lia.
    rewrite Heq. unfold ts. by rewrite Eb.
  - done.
Qed.

(** X8: what a successful [DecodeFromReader] has done: it has taken
    from the stream exactly [n] bytes, [n] being at least 9 and the
    total size those bytes declare, and the record it returns is
    [Decode] of those bytes. *)
Theorem DecodeFromReader_success (e : entry) (b b' : Reader) (e' : entry) (n : Z) :
  DecodeFromReader e b = Returns (b', e', n, None) ->
  exists data,
    buf b ++ rd b = data ++ buf b' ++ rd b' /\
    len data = n /\ 9 <= n /\ le_get (take 4 data) = n /\
    Decode e data = Returns (e', None).
Proof. apply DecodeFromReader_consumes. Qed.

Lemma DecodeFromReader_success_witness :
  exists data,
    buf (NewReader (Encode (mkEntry "key" TypeString "value" 0)))
    ++ rd (NewReader (Encode (mkEntry "key" TypeString "value" 0)))
    = data ++ buf (mkReader [] [] None) ++ rd (mkReader [] [] None) /\
    len data = 21 /\ 9 <= 21 /\ le_get (take 4 data) = 21 /\
    Decode zero_entry data = Returns (mkEntry "key" TypeString "value" 0, None).
Proof.
  apply (DecodeFromReader_success zero_entry
           (NewReader (Encode (mkEntry "key" TypeString "value" 0)))
           (mkReader [] [] None) (mkEntry "key" TypeString "value" 0) 21).
  vm_compute. reflexivity.
Defined.

(** ** The scans end *)

Lemma slice_finishes (s : list byte) (lo hi : Z) : slice s lo hi <> Unfinished.
Proof. unfold slice. by destruct (_ && _). Qed.

Lemma at_index_finishes (s : list byte) (i : Z) : at_index s i <> Unfinished.
Proof. unfold at_index. destruct (_ && _); [|done]. by destruct (s !! Z.to_nat i). Qed.

Lemma obind_finishes {A B : Type} (c : outcome A) (k : A -> outcome B) :
  c <> Unfinished -> (forall a, k a <> Unfinished) -> obind c k <> Unfinished.
Proof. intros Hc Hk. destruct c; [apply Hk | done | done]. Qed.

Lemma Decode_value_finishes (e : entry) (t : byte) (vd : list byte) :
  Decode_value e t vd <> Unfinished.
Proof.
  unfold Decode_value.
  repeat first
    [ done
    | apply obind_finishes; [apply slice_finishes | intros ?]
    | match goal with |- context [if ?c then _ else _] => destruct c end ].
Qed.

Lemma Decode_finishes (e : entry) (input : list byte) : Decode e input <> Unfinished.
Proof.
  unfold Decode.
  repeat first
    [ done
    | apply Decode_value_finishes
    | apply obind_finishes; [first [apply slice_finishes | apply at_index_finishes] | intros ?]
    | match goal with |- context [if ?c then _ else _] => destruct c end ].
Qed.

Lemma DecodeFromReader_finishes (e : entry) (b : Reader) : DecodeFromReader e b <> Unfinished.
Proof.
  unfold DecodeFromReader.
  destruct (Peek b 4) as [[b1 sizeBuf] [err|]].
  - by destruct (is_EOF err).
  - destruct (le_get sizeBuf <? 9); [done|].
    destruct (Read b1 (le_get sizeBuf)) as [[b2 data] [err|]]; [done|].
    destruct (negb _); [done|].
    apply obind_finishes; [apply Decode_finishes | done].
Qed.

Lemma DecodeFromReader_shrinks (e : entry) (b b' : Reader) (e' : entry) (n : Z) :
  DecodeFromReader e b = Returns (b', e', n, None) ->
  (length (buf b') + length (rd b') < length (buf b) + length (rd b))%nat.
Proof.
  intros H. apply DecodeFromReader_consumes in H as (data & Hc & Hl & Hn & _).
  apply (f_equal length) in Hc. rewrite !length_app in Hc. unfold len in Hl. lia.
Qed.

Lemma index_records_finishes (fuel : nat) (b : Reader) (off id : Z) (idx : hashIndex) :
  (length (buf b) + length (rd b) < fuel)%nat ->
  index_records fuel b off id idx <> Unfinished.
Proof.
  revert b off idx. induction fuel as [|fuel IH]; intros b off idx Hm; [lia|].
  cbn [index_records].
  pose proof (DecodeFromReader_finishes zero_entry b) as Hf.
  destruct (DecodeFromReader zero_entry b) as [[[[b' e'] n] [err|]]| |] eqn:Ed;
    cbn [obind]; try done.
  - destruct (is_EOF err); [by destruct (negb _) | done].
  - apply IH. apply DecodeFromReader_shrinks in Ed. lia.
Qed.

Lemma merge_records_finishes (fuel : nat) (b : Reader) (ke : gmap string entry) :
  (length (buf b) + length (rd b) < fuel)%nat ->
  merge_records fuel b ke <> Unfinished.
Proof.
  revert b ke. induction fuel as [|fuel IH]; intros b ke Hm; [lia|].
  cbn [merge_records].
  pose proof (DecodeFromReader_finishes zero_entry b) as Hf.
  destruct (DecodeFromReader zero_entry b) as [[[[b' e'] n] [err|]]| |] eqn:Ed;
    cbn [obind]; try done.
  - by destruct (is_EOF err).
  - apply IH. apply DecodeFromReader_shrinks in Ed. lia.
Qed.

Lemma indexSegmentFile_finishes (fs : FS) (p : path) (id : Z) (idx : hashIndex) :
  indexSegmentFile fs p id idx <> Unfinished.
Proof.
  unfold indexSegmentFile. destruct (fs !! p) as [c|]; [|done].
  apply index_records_finishes. cbn [NewReader buf rd length]. lia.
Qed.

Lemma index_segments_finishes (fs : FS) (l : list (Z * path)) (idx : hashIndex) :
  index_segments fs l idx <> Unfinished.
Proof.
  revert idx. induction l as [|seg l IH]; intros idx; [done|]. cbn [index_segments].
  apply obind_finishes; [apply indexSegmentFile_finishes|].
  intros r. by destruct (snd r).
Qed.

Lemma rebuildIndex_finishes (db : Db) (fs : FS) : rebuildIndex db fs <> Unfinished.
Proof.
  unfold rebuildIndex. apply obind_finishes; [apply index_segments_finishes|].
  intros r. by destruct (snd r).
Qed.

Lemma collect_segments_finishes (fs : FS) (segs : list segmentInfo) (ke : gmap string entry) :
  collect_segments fs segs ke <> Unfinished.
Proof.
  revert ke. induction segs as [|seg segs IH]; intros ke; [done|]. cbn [collect_segments].
  destruct (fs !! filePath seg) as [c|]; [|apply IH].
  apply obind_finishes.
  - apply merge_records_finishes. cbn [NewReader buf rd length]. lia.
  - intros r. destruct (snd r); [done | apply IH].
Qed.

Lemma mergeSegments_finishes (order : gmap string entry -> list (string * entry))
    (db : Db) (fs : FS) :
  mergeSegments order db fs <> Unfinished.
Proof.
  unfold mergeSegments. apply obind_finishes; [apply collect_segments_finishes|].
  intros r. destruct (snd r); [done|]. destruct (decide _); [done|].
  destruct (segments db); [done|]. destruct (rename _ _ _); [|done].
  apply obind_finishes; [apply rebuildIndex_finishes|].
  intros r'. by destruct (snd r').
Qed.

(** X9: the scans end.  Every record that is decoded takes at least 9
    bytes from the file, so the loops of [indexSegmentFile] and
    [mergeSegments] come to an end on every file, and with them
    [rebuildIndex], [OpenWithMaxSegmentSize] and [handlePut]: none of
    them is ever cut short by the bound [S (length content)] of the
    embedding. *)
Theorem scans_end (order : gmap string entry -> list (string * entry))
    (w : write_fault) (db : Db) (fs : FS) (req : putRequest) (threshold : Z)
    (p : path) (id : Z) (idx : hashIndex) :
  indexSegmentFile fs p id idx <> Unfinished /\
  rebuildIndex db fs <> Unfinished /\
  OpenWithMaxSegmentSize fs threshold <> Unfinished /\
  mergeSegments order db fs <> Unfinished /\
  handlePut order w db fs req <> Unfinished.
Proof.
  split; [apply indexSegmentFile_finishes|]. split; [apply rebuildIndex_finishes|].
  split; [|split; [apply mergeSegments_finishes|]].
  - unfold OpenWithMaxSegmentSize, openActiveSegment.
    apply obind_finishes; [apply rebuildIndex_finishes | done].
  - unfold handlePut. destruct (String.eqb _ _); [apply mergeSegments_finishes|].
    destruct (if maxSegmentSize db <=? outOffset db then _ else _) as [[db1 fs1] [err|]]; [done|].
    unfold append_entry. destruct (request_entry req); [|done].
    cbv zeta. unfold out_Write. destruct (out db1) as [[|]|]; try done. by destruct w.
Qed.

(** * Further properties of the engine *)

Lemma Get_entry_at_mismatch (db : Db) (fs : FS) (k : string) (r : entry) :
  entry_at db fs k r ->
  is_record r ->
  len (Encode r) <= defaultBufSize ->
  (valueType r = TypeString -> GetInt64 db fs k = Returns (0, Some ErrTypeMismatch)) /\
  (valueType r = TypeInt64 -> Get db fs k = Returns (EmptyString, Some ErrTypeMismatch)).
Proof.
  intros (ie & content & rest & Hidx & _ & Hoff & Hfile & Hdrop) Hr Hsize.
  pose proof (readEntryFromFile_at content (offset ie) r rest Hoff Hdrop Hr Hsize) as Hread.
  split; intros Ht.
  - unfold GetInt64. rewrite Hidx, Hfile, Hread. cbn [obind snd fst]. by rewrite Ht.
  - unfold Get. rewrite Hidx, Hfile, Hread. cbn [obind snd fst]. by rewrite Ht.
Qed.

Lemma request_entry_key (req : putRequest) (e : entry) :
  request_entry req = Some e -> key e = req_key req.
Proof.
  unfold request_entry.
  destruct (Byte.eqb (req_valueType req) TypeString);
    [|destruct (Byte.eqb (req_valueType req) TypeInt64)]; intros H; by inversion H.
Qed.

Lemma request_entry_record (req : putRequest) (e : entry) :
  request_entry req = Some e ->
  len (Encode e) < 2 ^ 32 ->
  - 2 ^ 63 <= req_int64Value req < 2 ^ 63 ->
  is_record e.
Proof.
  unfold request_entry. intros H Hfit Hv. split; [done|].
  destruct (Byte.eqb (req_valueType req) TypeString);
    [|destruct (Byte.eqb (req_valueType req) TypeInt64)]; inversion H; subst.
  - by left.
  - by right.
Qed.

(** A written request leaves its record where the index says, and the
    writer's offset in step with the active file. *)
Lemma handlePut_written (order : gmap string entry -> list (string * entry))
    (db : Db) (fs : FS) (req : putRequest) (e : entry) :
  offset_in_step db fs ->
  req_key req <> MERGE ->
  request_entry req = Some e ->
  exists db' fs',
    handlePut order write_ok db fs req = Returns (db', fs', None) /\
    entry_at db' fs' (req_key req) e /\
    offset_in_step db' fs'.
Proof.
  intros Hstep Hk He.
  assert (Happ : forall db1 fs1, offset_in_step db1 fs1 ->
    exists db' fs', append_entry write_ok db1 fs1 req = Returns (db', fs', None) /\
      entry_at db' fs' (req_key req) e /\ offset_in_step db' fs').
  { intros db1 fs1 (Ho & c & Hc & Hoff).
    rewrite (append_entry_ok db1 fs1 req e c) by done.
    eexists _, _. split; [done|]. split.
    - exists (mkIndexEntry (activeSegmentID db1) (outOffset db1)), (c ++ Encode e), [].
      cbn [set_out set_index index activeSegmentID segmentID offset].
      unfold file_of. cbn [segmentID activeSegmentID]. rewrite Z.eqb_refl.
      rewrite !lookup_insert_eq. repeat split; try done; try lia.
      + rewrite Hoff. apply len_nonneg.
      + rewrite Hoff, app_nil_r. apply drop_app_length'. unfold len. lia.
    - split; [done|]. exists (c ++ Encode e). split; [by rewrite lookup_insert_eq|].
      cbn [set_out outOffset]. rewrite len_app. lia. }
  unfold handlePut.
  destruct (String.eqb_spec (req_key req) MERGE) as [|_]; [done|].
  destruct (maxSegmentSize db <=? outOffset db).
  - destruct (rotateActiveSegment_in_step db fs Hstep) as (db1 & fs1 & -> & Hstep1 & _).
    by apply Happ.
  - by apply Happ.
Qed.

(** X10: a value written with one accessor is not handed out by the
    other.  After [Put], and any later requests under other keys,
    [GetInt64] of the key reports [ErrTypeMismatch]; after [PutInt64],
    [Get] does. *)
Theorem accessor_of_other_type (order : gmap string entry -> list (string * entry))
    (db : Db) (fs : FS) (k : string) (reqs : list (write_fault * putRequest)) :
  offset_in_step db fs ->
  k <> MERGE ->
  Forall (fun wr => req_key (snd wr) <> k /\ req_key (snd wr) <> MERGE) reqs ->
  (forall v : string,
     len (Encode (mkEntry k TypeString v 0)) <= defaultBufSize ->
     exists db1 fs1 db2 fs2,
       Put order write_ok db fs k v = Returns (db1, fs1, None) /\
       run order reqs db1 fs1 = Returns (db2, fs2) /\
       GetInt64 db2 fs2 k = Returns (0, Some ErrTypeMismatch)) /\
  (forall v : Z,
     - 2 ^ 63 <= v < 2 ^ 63 ->
     len (Encode (mkEntry k TypeInt64 EmptyString v)) <= defaultBufSize ->
     exists db1 fs1 db2 fs2,
       PutInt64 order write_ok db fs k v = Returns (db1, fs1, None) /\
       run order reqs db1 fs1 = Returns (db2, fs2) /\
       Get db2 fs2 k = Returns (EmptyString, Some ErrTypeMismatch)).
Proof.
  intros Hstep Hk Hreqs.
  assert (Hgen : forall req e, req_key req = k -> request_entry req = Some e ->
            is_record e -> len (Encode e) <= defaultBufSize ->
            exists db1 fs1 db2 fs2,
              handlePut order write_ok db fs req = Returns (db1, fs1, None) /\
              run order reqs db1 fs1 = Returns (db2, fs2) /\
              (valueType e = TypeString -> GetInt64 db2 fs2 k = Returns (0, Some ErrTypeMismatch)) /\
              (valueType e = TypeInt64 -> Get db2 fs2 k = Returns (EmptyString, Some ErrTypeMismatch))).
  { intros req e Hreq He Hrec Hsize.
    destruct (handlePut_written order db fs req e Hstep) as (db1 & fs1 & Hput & Hat & _);
      [by rewrite Hreq | done |].
    rewrite Hreq in Hat.
    destruct (run_entry_at order reqs db1 fs1 k e Hat Hreqs) as (db2 & fs2 & Hrun & Hat2).
    exists db1, fs1, db2, fs2. split; [done|]. split; [done|].
    by apply Get_entry_at_mismatch. }
  split.
  - intros v Hsize.
    destruct (Hgen (mkRequest k v 0 TypeString) (mkEntry k TypeString v 0))
      as (db1 & fs1 & db2 & fs2 & H1 & H2 & H3 & _); try done.
    { split; [unfold defaultBufSize in Hsize; lia | by left]. }
    exists db1, fs1, db2, fs2. split; [exact H1|]. split; [exact H2|]. by apply H3.
  - intros v Hv Hsize.
    destruct (Hgen (mkRequest k EmptyString v TypeInt64) (mkEntry k TypeInt64 EmptyString v))
      as (db1 & fs1 & db2 & fs2 & H1 & H2 & _ & H4); try done.
    { split; [unfold defaultBufSize in Hsize; lia | by right]. }
    exists db1, fs1, db2, fs2. split; [exact H1|]. split; [exact H2|]. by apply H4.
Qed.

Lemma accessor_of_other_type_witness :
  exists db1 fs1 db2 fs2,
    PutInt64 map_to_list write_ok (fresh_db 20) fresh_fs "n" 42 = Returns (db1, fs1, None) /\
    run map_to_list [(write_ok, mkRequest "b" "2" 0 TypeString)] db1 fs1 = Returns (db2, fs2) /\
    Get db2 fs2 "n" = Returns (EmptyString, Some ErrTypeMismatch).
Proof.
  destruct (accessor_of_other_type map_to_list (fresh_db 20) fresh_fs "n"
              [(write_ok, mkRequest "b" "2" 0 TypeString)]) as [_ H].
  - split; [reflexivity|]. exists []. split; reflexivity.
  - discriminate.
  - repeat constructor; discriminate.
  - apply (H 42); [lia|]. vm_compute. discriminate.
Defined.

(** X11: the last write wins.  Two requests under one key, both
    written: the read that follows returns the value of the second, by
    the accessor of the second's type, whatever the type and value of
    the first. *)
Theorem last_write_wins (order : gmap string entry -> list (string * entry))
    (db : Db) (fs : FS) (req1 req2 : putRequest) (e1 e2 : entry) :
  offset_in_step db fs ->
  req_key req1 <> MERGE ->
  req_key req2 = req_key req1 ->
  request_entry req1 = Some e1 ->
  request_entry req2 = Some e2 ->
  - 2 ^ 63 <= req_int64Value req2 < 2 ^ 63 ->
  len (Encode e2) <= defaultBufSize ->
  exists db1 fs1 db2 fs2,
    handlePut order write_ok db fs req1 = Returns (db1, fs1, None) /\
    handlePut order write_ok db1 fs1 req2 = Returns (db2, fs2, None) /\
    (valueType e2 = TypeString ->
     Get db2 fs2 (req_key req1) = Returns (stringValue e2, None)) /\
    (valueType e2 = TypeInt64 ->
     GetInt64 db2 fs2 (req_key req1) = Returns (int64Value e2, None)).
Proof.
  intros Hstep Hk Hsame He1 He2 Hv Hsize.
  destruct (handlePut_written order db fs req1 e1 Hstep Hk He1)
    as (db1 & fs1 & Hput1 & _ & Hstep1).
  destruct (handlePut_written order db1 fs1 req2 e2 Hstep1)
    as (db2 & fs2 & Hput2 & Hat2 & _); [by rewrite Hsame | done |].
  rewrite Hsame in Hat2.
  exists db1, fs1, db2, fs2. split; [done|]. split; [done|].
  apply Get_entry_at; [done | | done].
  apply (request_entry_record req2); [done | unfold defaultBufSize in Hsize; lia | done].
Qed.

Lemma last_write_wins_witness :
  exists db1 fs1 db2 fs2,
    handlePut map_to_list write_ok (fresh_db 20) fresh_fs (mkRequest "key1" "value1" 0 TypeString)
    = Returns (db1, fs1, None) /\
    handlePut map_to_list write_ok db1 fs1 (mkRequest "key1" "value1_updated" 0 TypeString)
    = Returns (db2, fs2, None) /\
    (valueType (mkEntry "key1" TypeString "value1_updated" 0) = TypeString ->
     Get db2 fs2 (req_key (mkRequest "key1" "value1" 0 TypeString))
     = Returns (stringValue (mkEntry "key1" TypeString "value1_updated" 0), None)) /\
    (valueType (mkEntry "key1" TypeString "value1_updated" 0) = TypeInt64 ->
     GetInt64 db2 fs2 (req_key (mkRequest "key1" "value1" 0 TypeString))
     = Returns (int64Value (mkEntry "key1" TypeString "value1_updated" 0), None)).
Proof.
  apply (last_write_wins map_to_list (fresh_db 20) fresh_fs
           (mkRequest "key1" "value1" 0 TypeString)
           (mkRequest "key1" "value1_updated" 0 TypeString)
           (mkEntry "key1" TypeString "value1" 0)
           (mkEntry "key1" TypeString "value1_updated" 0)).
  - split; [reflexivity|]. exists []. split; reflexivity.
  - discriminate.
  - reflexivity.
  - reflexivity.
  - reflexivity.
  - cbn [req_int64Value]. lia.
  - vm_compute. discriminate.
Defined.



(** ** Size and rotation *)

Lemma foldl_sealed_acc (fs : FS) (segs : list segmentInfo) (a : Z) :
  foldl (fun totalSize seg =>
           match fs !! filePath seg with
           | Some c => totalSize + len c
           | None => totalSize
           end) a segs
  = a + sealed_size fs segs.
Proof.
  unfold sealed_size. revert a. induction segs as [|seg segs IH]; intros a; simpl; [lia|].
  rewrite IH, (IH (match fs !! filePath seg with Some c => 0 + len c | None => 0 end)).
  destruct (fs !! filePath seg); lia.
Qed.

Lemma sealed_size_cons (fs : FS) (seg : segmentInfo) (segs : list segmentInfo) :
  sealed_size fs (seg :: segs)
  = match fs !! filePath seg with Some c => len c | None => 0 end + sealed_size fs segs.
Proof.
  unfold sealed_size at 1. simpl. rewrite foldl_sealed_acc.
  destruct (fs !! filePath seg); lia.
Qed.

Lemma sealed_size_app (fs : FS) (l1 l2 : list segmentInfo) :
  sealed_size fs (l1 ++ l2) = sealed_size fs l1 + sealed_size fs l2.
Proof.
  induction l1 as [|seg l1 IH]; [unfold sealed_size at 2; simpl; lia|].
  simpl. rewrite !sealed_size_cons, IH. lia.
Qed.

Lemma sealed_size_ext (fs fs' : FS) (segs : list segmentInfo) :
  Forall (fun seg => fs' !! filePath seg = fs !! filePath seg) segs ->
  sealed_size fs' segs = sealed_size fs segs.
Proof.
  induction 1 as [|seg segs H Hrest IH]; [done|].
  by rewrite !sealed_size_cons, H, IH.
Qed.

Lemma rotateActiveSegment_explicit (db : Db) (fs : FS) (c : list byte) :
  out db = Some handle_open ->
  fs !! current_data = Some c ->
  rotateActiveSegment db fs
  = (set_out (set_segments (set_out db (Some handle_closed) (outOffset db))
                (activeSegmentID db + 1)
                (segments db ++ [mkSegment (activeSegmentID db)
                                           (segment_file (activeSegmentID db)) true]))
       (Some handle_open) 0,
     <[current_data := []]> (<[segment_file (activeSegmentID db) := c]> (delete current_data fs)),
     None).
Proof.
  intros Ho Hc. unfold rotateActiveSegment, rename, openActiveSegment.
  rewrite Ho. cbn [set_out activeSegmentID]. rewrite Hc.
  by rewrite lookup_insert_ne, lookup_delete_eq.
Qed.

Lemma rotateActiveSegment_facts (db : Db) (fs : FS) :
  segment_integrity db fs ->
  exists db' fs',
    rotateActiveSegment db fs = (db', fs', None) /\
    segments db' = segments db ++ [mkSegment (activeSegmentID db)
                                             (segment_file (activeSegmentID db)) true] /\
    activeSegmentID db' = activeSegmentID db + 1 /\
    fs' !! segment_file (activeSegmentID db) = fs !! current_data /\
    fs' !! current_data = Some [] /\ outOffset db' = 0 /\
    index db' = index db /\
    Size db' fs' = Size db fs /\
    segment_integrity db' fs' /\
    (forall k r, entry_at db fs k r -> entry_at db' fs' k r).
Proof.
  intros Hinv. pose proof Hinv as ([c Hc] & Ho & Hs).
  pose proof (rotateActiveSegment_explicit db fs c Ho Hc) as Hrot.
  destruct (rotateActiveSegment_integrity db fs Hinv)
    as (db1 & fs1 & Hrot1 & Hinv1 & _).
  rewrite Hrot in Hrot1. inversion Hrot1 as [[Hdb Hfs]]. rewrite Hdb, Hfs in *. clear Hrot1.
  exists db1, fs1. split; [done|]. rewrite <- Hdb, <- Hfs.
  cbn [set_out set_segments segments activeSegmentID outOffset index].
  split; [done|]. split; [done|].
  split; [by rewrite lookup_insert_ne, lookup_insert_eq|].
  split; [by rewrite lookup_insert_eq|]. split; [done|]. split; [done|].
  split; [|split].
  - unfold Size. cbn [set_out set_segments segments].
    rewrite lookup_insert_eq, Hc, sealed_size_app.
    rewrite (sealed_size_ext fs).
    + rewrite sealed_size_cons. cbn [filePath].
      rewrite lookup_insert_ne, lookup_insert_eq by done.
      unfold sealed_size at 2. simpl. f_equal. change (len []) with 0. lia.
    + eapply Forall_impl; [exact Hs|]. cbn beta. intros seg [Hid Hp]. rewrite Hp.
      rewrite !lookup_insert_ne, lookup_delete_ne; [done | done | | done].
      intros Heq. inversion Heq. lia.
  - by rewrite Hdb, Hfs.
  - intros k r Hat. pose proof (rotateActiveSegment_entry_at db fs k r Hat) as H.
    rewrite Hrot in H. cbn [fst snd] in H. rewrite Hdb, Hfs. exact H.
Qed.



Lemma append_entry_size (db : Db) (fs : FS) (req : putRequest) (e : entry) :
  segment_integrity db fs ->
  offset_in_step db fs ->
  request_entry req = Some e ->
  exists db' fs',
    append_entry write_ok db fs req = Returns (db', fs', None) /\
    Size db' fs' = (fst (Size db fs) + len (Encode e), None).
Proof.
  intros (_ & _ & Hs) (Ho & c & Hc & Hoff) He.
  rewrite (append_entry_ok db fs req e c) by done.
  eexists _, _. split; [done|].
  unfold Size. cbn [set_out set_index segments]. rewrite lookup_insert_eq, Hc. cbn [fst].
  rewrite (sealed_size_ext fs).
  - f_equal. rewrite len_app. lia.
  - eapply Forall_impl; [exact Hs|]. cbn beta. intros seg [_ Hp]. rewrite Hp.
    by rewrite lookup_insert_ne.
Qed.

(** X14: every written request adds the length of its record to
    [Size], with or without a rotation before it. *)
Theorem Size_after_put (order : gmap string entry -> list (string * entry))
    (db : Db) (fs : FS) (req : putRequest) (e : entry) :
  segment_integrity db fs ->
  offset_in_step db fs ->
  req_key req <> MERGE ->
  request_entry req = Some e ->
  exists db' fs',
    handlePut order write_ok db fs req = Returns (db', fs', None) /\
    Size db' fs' = (fst (Size db fs) + len (Encode e), None).
Proof.
  intros Hinv Hstep Hk He. unfold handlePut.
  destruct (String.eqb_spec (req_key req) MERGE) as [|_]; [done|].
  destruct (maxSegmentSize db <=? outOffset db).
  - destruct (rotateActiveSegment_facts db fs Hinv)
      as (db1 & fs1 & -> & _ & _ & _ & Hempty & Hoff & _ & Hsize & Hinv1 & _).
    rewrite <- Hsize. apply append_entry_size; [done | | done].
    split; [apply Hinv1|]. exists []. split; [done|]. by rewrite Hoff.
  - by apply append_entry_size.
Qed.

Lemma Size_after_put_witness :
  exists db' fs',
    handlePut map_to_list write_ok (fresh_db 0) fresh_fs (mkRequest "a" "1" 0 TypeString)
    = Returns (db', fs', None) /\
    Size db' fs'
    = (fst (Size (fresh_db 0) fresh_fs) + len (Encode (mkEntry "a" TypeString "1" 0)), None).
Proof.
  apply (Size_after_put map_to_list (fresh_db 0) fresh_fs
           (mkRequest "a" "1" 0 TypeString) (mkEntry "a" TypeString "1" 0)).
  - split; [by eexists | split; [reflexivity | constructor]].
  - split; [reflexivity|]. exists []. split; reflexivity.
  - discriminate.
  - reflexivity.
Defined.

(** ** The directory scan *)

Lemma insert_by_perm {A : Type} (f : A -> Z) (x : A) (l : list A) :
  insert_by f x l ≡ₚ x :: l.
Proof.
  induction l as [|y r IH]; simpl; [done|].
  destruct (f x <? f y); [done|]. rewrite IH. apply Permutation_swap.
Qed.

Lemma sort_by_perm {A : Type} (f : A -> Z) (l : list A) : sort_by f l ≡ₚ l.
Proof.
  unfold sort_by. induction l as [|x l IH]; simpl; [done|].
  by rewrite insert_by_perm, IH.
Qed.

Lemma insert_by_sorted {A : Type} (f : A -> Z) (x : A) (l : list A) :
  StronglySorted (fun a b => f a <= f b) l ->
  StronglySorted (fun a b => f a <= f b) (insert_by f x l).
Proof.
  induction 1 as [|y r Hr IH Hy]; simpl.
  - repeat constructor.
  - destruct (Z.ltb_spec (f x) (f y)) as [Hlt|Hge].
    + constructor; [by constructor|]. constructor; [lia|].
      eapply Forall_impl; [exact Hy|]. cbn beta. intros; lia.
    + constructor; [done|]. rewrite insert_by_perm. by constructor.
Qed.

Lemma sort_by_sorted {A : Type} (f : A -> Z) (l : list A) :
  StronglySorted (fun a b => f a <= f b) (sort_by f l).
Proof.
  unfold sort_by. induction l as [|x l IH]; simpl; [constructor|].
  by apply insert_by_sorted.
Qed.

Lemma scan_entries_spec (names : list path) (infos : list segmentInfo) (m : Z) (h : bool) :
  exists h', foldl scan_entry (infos, m, h) names
             = (infos ++ omap segment_of names, max_seen m names, h').
Proof.
  revert infos m h. induction names as [|name names IH]; intros infos m h.
  - exists h. simpl. by rewrite app_nil_r.
  - destruct name as [|i| |n]; cbn [foldl scan_entry omap segment_of max_seen];
      try apply IH.
    destruct (IH (infos ++ [mkSegment i (segment_file i) true])
                 (if m <? i then i else m) h) as [h' ->].
    exists h'. unfold max_seen. cbn [option_bind mbind]. by rewrite <- app_assoc.
Qed.

Lemma max_seen_ge (names : list path) (m : Z) :
  m <= max_seen m names /\
  (forall i, segment_file i ∈ names -> i <= max_seen m names) /\
  (max_seen m names = m \/ segment_file (max_seen m names) ∈ names).
Proof.
  revert m. induction names as [|name names IH]; intros m.
  - unfold max_seen. simpl. split; [lia|]. split; [|by left].
    intros i Hi. by apply elem_of_nil in Hi.
  - unfold max_seen. cbn [foldl]. fold (max_seen (match name with
                       | segment_file i => if m <? i then i else m
                       | _ => m
                       end) names).
    set (m' := match name with segment_file i => if m <? i then i else m | _ => m end).
    destruct (IH m') as (H1 & H2 & H3).
    assert (Hm : m <= m').
    { unfold m'. destruct name; try lia. destruct (Z.ltb_spec m id0); lia. }
    split; [lia|]. split.
    + intros i Hi. apply elem_of_cons in Hi as [<-|Hi]; [|by apply H2].
      assert (i <= m'); [|lia]. unfold m'. destruct (Z.ltb_spec m i); lia.
    + destruct H3 as [H3|H3]; [|right; by apply elem_of_cons; right].
      rewrite H3. unfold m'. destruct name as [|i| |n]; try (by left).
      destruct (Z.ltb_spec m i); [|by left]. right. apply elem_of_cons. by left.
Qed.

Lemma elem_of_ReadDir (fs : FS) (p : path) : p ∈ ReadDir fs <-> is_Some (fs !! p).
Proof.
  unfold ReadDir. rewrite list_elem_of_fmap. split.
  - intros ([p' c] & -> & Hin). apply elem_of_map_to_list in Hin. by eexists.
  - intros [c Hc]. exists (p, c). split; [done|]. by apply elem_of_map_to_list.
Qed.

Lemma elem_of_segments_of (names : list path) (seg : segmentInfo) :
  seg ∈ omap segment_of names <->
  exists i, seg = mkSegment i (segment_file i) true /\ segment_file i ∈ names.
Proof.
  rewrite list_elem_of_omap. split.
  - intros (name & Hin & Hseg). destruct name as [|i| |n]; try discriminate.
    inversion Hseg. by exists i.
  - intros (i & -> & Hin). by exists (segment_file i).
Qed.


(** ** Scanning a file of records *)

Lemma file_of_records_cons (r : entry) (rs : list entry) :
  file_of_records (r :: rs) = Encode r ++ file_of_records rs.
Proof. reflexivity. Qed.

Lemma file_of_records_app (a b : list entry) :
  file_of_records (a ++ b) = file_of_records a ++ file_of_records b.
Proof. unfold file_of_records. by rewrite map_app, concat_app. Qed.

Lemma length_records (rs : list entry) : (length rs <= length (file_of_records rs))%nat.
Proof.
  induction rs as [|r rs IH]; [done|].
  rewrite file_of_records_cons, length_app. pose proof (len_Encode_pos r) as H.
  unfold len in H. simpl. lia.
Qed.

(** At the end of the file the decoder reports [io.EOF] and a count of
    [0]. *)
Lemma DecodeFromReader_end (e : entry) :
  DecodeFromReader e (mkReader [] [] None) = Returns (mkReader [] [] None, e, 0, Some EOF).
Proof. reflexivity. Qed.

(** With the rest of the file in the buffer, the decoder hands out the
    next record. *)
Lemma DecodeFromReader_next (r : entry) (rest : list byte) :
  is_record r ->
  DecodeFromReader zero_entry (mkReader [] (Encode r ++ rest) None)
  = Returns (mkReader [] rest None, r, len (Encode r), None).
Proof.
  intros Hr.
  destruct (DecodeFromReader_buffered zero_entry (mkReader [] (Encode r ++ rest) None)
              r rest eq_refl Hr) as (e' & o & Hdec & ->).
  rewrite (Decode_Encode r Hr) in Hdec. by inversion Hdec.
Qed.

(** The first [Peek] on a file that fits the buffer loads all of it. *)
Lemma DecodeFromReader_load (e : entry) (content : list byte) :
  len content <= defaultBufSize ->
  content = [] \/ 4 <= len content ->
  DecodeFromReader e (NewReader content) = DecodeFromReader e (mkReader [] content None).
Proof.
  intros Hfit [->|H4]; [done|].
  assert (Ht : take (Z.to_nat defaultBufSize) content = content)
    by (apply take_ge; unfold len in Hfit; lia).
  assert (Hd : drop (Z.to_nat defaultBufSize) content = [])
    by (apply drop_ge; unfold len in Hfit; lia).
  rewrite DecodeFromReader_fresh by (by rewrite Ht).
  by rewrite Ht, Hd.
Qed.

Lemma records_empty_or_long (rs : list entry) :
  file_of_records rs = [] \/ 4 <= len (file_of_records rs).
Proof.
  destruct rs as [|r rs]; [by left|]. right.
  rewrite file_of_records_cons, len_app.
  pose proof (len_Encode_pos r). pose proof (len_nonneg (file_of_records rs)). lia.
Qed.

Lemma index_records_buffered (rs : list entry) (fuel : nat) (off sid : Z) (idx : hashIndex) :
  Forall is_record rs ->
  (length rs < fuel)%nat ->
  index_records fuel (mkReader [] (file_of_records rs) None) off sid idx
  = Returns (index_of_records sid off rs idx, None).
Proof.
  intros Hrs. revert fuel off idx.
  induction Hrs as [|r rs Hr Hrs IH]; intros fuel off idx Hfuel;
    (destruct fuel as [|fuel]; [simpl in Hfuel; lia|]); cbn [index_records].
  - change (file_of_records []) with (@nil byte). by rewrite DecodeFromReader_end.
  - rewrite file_of_records_cons, DecodeFromReader_next by done.
    cbn [obind]. apply IH. simpl in Hfuel. lia.
Qed.

Lemma indexSegmentFile_scan (fs : FS) (p : path) (sid : Z) (idx : hashIndex) (rs : list entry) :
  fs !! p = Some (file_of_records rs) ->
  Forall is_record rs ->
  len (file_of_records rs) <= defaultBufSize ->
  indexSegmentFile fs p sid idx = Returns (index_of_records sid 0 rs idx, None).
Proof.
  intros Hp Hrs Hfit. unfold indexSegmentFile. rewrite Hp.
  pose proof (length_records rs) as Hlen.
  set (fuel := length (file_of_records rs)) in *.
  cbn [index_records].
  rewrite DecodeFromReader_load by (done || apply records_empty_or_long).
  change (let* r := DecodeFromReader zero_entry (mkReader [] (file_of_records rs) None) in
          let '(reader', record, n, err) := r in
          match err with
          | Some err =>
            if is_EOF err then
              if negb (n =? 0) then Returns (idx, Some ErrCorruptedSegment)
              else Returns (idx, None)
            else Returns (idx, Some err)
          | None =>
            index_records fuel reader' (0 + n) sid
              (<[key record := mkIndexEntry sid 0]> idx)
          end)
    with (index_records (S fuel) (mkReader [] (file_of_records rs) None) 0 sid idx).
  apply index_records_buffered; [done | lia].
Qed.

Lemma index_of_records_app (sid off : Z) (a b : list entry) (idx : hashIndex) :
  index_of_records sid off (a ++ b) idx
  = index_of_records sid (off + len (file_of_records a)) b (index_of_records sid off a idx).
Proof.
  revert off idx. induction a as [|r a IH]; intros off idx.
  - change (len (file_of_records [])) with 0. by rewrite Z.add_0_r.
  - cbn [app index_of_records]. rewrite IH, file_of_records_cons, len_app.
    by rewrite Z.add_assoc.
Qed.

Lemma index_of_records_other (sid off : Z) (rs : list entry) (idx : hashIndex) (k : string) :
  (forall r, r ∈ rs -> key r <> k) ->
  index_of_records sid off rs idx !! k = idx !! k.
Proof.
  revert off idx. induction rs as [|r rs IH]; intros off idx H; [done|].
  cbn [index_of_records]. rewrite IH.
  - apply lookup_insert_ne. apply H. by left.
  - intros r' Hr'. apply H. by right.
Qed.

Lemma index_of_records_last (sid off : Z) (before : list entry) (r : entry)
    (after : list entry) (idx : hashIndex) :
  (forall r', r' ∈ after -> key r' <> key r) ->
  index_of_records sid off (before ++ r :: after) idx !! key r
  = Some (mkIndexEntry sid (off + len (file_of_records before))).
Proof.
  intros H. rewrite index_of_records_app. cbn [index_of_records].
  rewrite index_of_records_other by done. by rewrite lookup_insert_eq.
Qed.

(** X16: the index [indexSegmentFile] builds from a file that holds
    records and fits the reader's buffer: the scan ends without an
    error; a key with no record in the file keeps the entry it had; a
    key with records gets the segment id and the offset at which the
    last of its records starts. *)
Theorem indexSegmentFile_last_record (fs : FS) (p : path) (sid : Z) (idx : hashIndex)
    (rs : list entry) :
  fs !! p = Some (file_of_records rs) ->
  Forall is_record rs ->
  len (file_of_records rs) <= defaultBufSize ->
  exists idx',
    indexSegmentFile fs p sid idx = Returns (idx', None) /\
    (forall k, (forall r, r ∈ rs -> key r <> k) -> idx' !! k = idx !! k) /\
    (forall before r after,
       rs = before ++ r :: after ->
       (forall r', r' ∈ after -> key r' <> key r) ->
       idx' !! key r = Some (mkIndexEntry sid (len (file_of_records before)))).
Proof.
  intros Hp Hrs Hfit. exists (index_of_records sid 0 rs idx).
  split; [by apply indexSegmentFile_scan|]. split.
  - intros k Hk. by apply index_of_records_other.
  - intros before r after -> Hafter. by rewrite index_of_records_last.
Qed.

Lemma indexSegmentFile_last_record_witness :
  exists idx',
    indexSegmentFile
      {[ segment_file 3 := file_of_records [mkEntry "a" TypeString "1" 0;
                                            mkEntry "b" TypeInt64 EmptyString 7;
                                            mkEntry "a" TypeString "2" 0] ]}
      (segment_file 3) 3 {[ "c" := mkIndexEntry 1 0 ]}
    = Returns (idx', None) /\
    (forall k, (forall r, r ∈ [mkEntry "a" TypeString "1" 0;
                               mkEntry "b" TypeInt64 EmptyString 7;
                               mkEntry "a" TypeString "2" 0] -> key r <> k) ->
       idx' !! k = ({[ "c" := mkIndexEntry 1 0 ]} : hashIndex) !! k) /\
    (forall before r after,
       [mkEntry "a" TypeString "1" 0; mkEntry "b" TypeInt64 EmptyString 7;
        mkEntry "a" TypeString "2" 0] = before ++ r :: after ->
       (forall r', r' ∈ after -> key r' <> key r) ->
       idx' !! key r = Some (mkIndexEntry 3 (len (file_of_records before)))).
Proof.
  apply (indexSegmentFile_last_record _ (segment_file 3) 3 {[ "c" := mkIndexEntry 1 0 ]}
           [mkEntry "a" TypeString "1" 0; mkEntry "b" TypeInt64 EmptyString 7;
            mkEntry "a" TypeString "2" 0]).
  - apply lookup_singleton_eq.
  - apply Forall_cons. split; [split; [vm_compute; reflexivity | by left]|].
    apply Forall_cons. split.
    { split; [vm_compute; reflexivity|]. right. repeat split; cbn [int64Value]; lia. }
    apply Forall_cons. split; [split; [vm_compute; reflexivity | by left]|].
    apply Forall_nil_2.
  - vm_compute. discriminate.
Defined.

(** ** Rebuilding the index from a directory of records *)

Lemma index_segments_scan (fs : FS) (recs : path -> list entry) (l : list (Z * path))
    (idx : hashIndex) :
  holds_records fs recs ->
  Forall (fun f => data_file (snd f)) l ->
  index_segments fs l idx = Returns (index_of_files recs l idx, None).
Proof.
  intros Hfs Hl. revert idx. induction Hl as [|f l Hf Hl IH]; intros idx; [done|].
  cbn [index_segments]. unfold index_of_files. cbn [foldl].
  destruct (Hfs (snd f) Hf) as (Hr & Hfit & Hfile).
  destruct (fs !! snd f) as [content|] eqn:E.
  - subst content. rewrite (indexSegmentFile_scan fs (snd f) (fst f) idx (recs (snd f))) by done.
    cbn [obind snd fst]. apply IH.
  - unfold indexSegmentFile. rewrite E. cbn [obind snd fst]. rewrite Hfile.
    cbn [index_of_records]. apply IH.
Qed.

Lemma index_of_files_other (recs : path -> list entry) (l : list (Z * path))
    (idx : hashIndex) (k : string) :
  (forall f r, f ∈ l -> r ∈ recs (snd f) -> key r <> k) ->
  index_of_files recs l idx !! k = idx !! k.
Proof.
  unfold index_of_files. revert idx. induction l as [|f l IH]; intros idx H; [done|].
  cbn [foldl]. rewrite IH.
  - apply index_of_records_other. intros r Hr. apply (H f); [by left | done].
  - intros f' r Hf' Hr. apply (H f'); [by right | done].
Qed.

Lemma index_of_files_last (recs : path -> list entry) (l1 l2 : list (Z * path))
    (i : Z) (p : path) (before : list entry) (r : entry) (after : list entry)
    (idx : hashIndex) :
  recs p = before ++ r :: after ->
  (forall r', r' ∈ after -> key r' <> key r) ->
  (forall f r', f ∈ l2 -> r' ∈ recs (snd f) -> key r' <> key r) ->
  index_of_files recs (l1 ++ (i, p) :: l2) idx !! key r
  = Some (mkIndexEntry i (len (file_of_records before))).
Proof.
  intros Hp Hafter Hl2. unfold index_of_files. rewrite foldl_app. cbn [foldl fst snd].
  fold (index_of_files recs l2
          (index_of_records i 0 (recs p)
             (foldl (fun index f => index_of_records (fst f) 0 (recs (snd f)) index) idx l1))).
  rewrite index_of_files_other by done.
  rewrite Hp, index_of_records_last by done. by rewrite Z.add_0_l.
Qed.

Lemma StronglySorted_after {A : Type} (R : A -> A -> Prop) (l1 : list A) (x : A)
    (l2 : list A) :
  StronglySorted R (l1 ++ x :: l2) -> Forall (R x) l2.
Proof.
  induction l1 as [|y l1 IH]; cbn [app]; intros H; apply StronglySorted_inv in H as [H1 H2].
  - exact H2.
  - by apply IH.
Qed.

Lemma sorted_files_other (recs : path -> list entry) (L : list (Z * path))
    (idx : hashIndex) (k : string) :
  (forall f r, f ∈ L -> r ∈ recs (snd f) -> key r <> k) ->
  index_of_files recs (sort_by fst L) idx !! k = idx !! k.
Proof.
  intros H. apply index_of_files_other. intros f r Hf. apply H.
  by rewrite <- (sort_by_perm fst L).
Qed.

(** Files scanned in ascending order of id: the entry of a key comes
    from the file of the greatest id that has a record of the key. *)
Lemma sorted_files_last (recs : path -> list entry) (L : list (Z * path))
    (i : Z) (p : path) (before : list entry) (r : entry) (after : list entry)
    (idx : hashIndex) :
  NoDup (L.*1) ->
  (i, p) ∈ L ->
  recs p = before ++ r :: after ->
  (forall r', r' ∈ after -> key r' <> key r) ->
  (forall f r', f ∈ L -> i < fst f -> r' ∈ recs (snd f) -> key r' <> key r) ->
  index_of_files recs (sort_by fst L) idx !! key r
  = Some (mkIndexEntry i (len (file_of_records before))).
Proof.
  intros Hnd Hin Hp Hafter Hnewer.
  pose proof (sort_by_perm fst L) as Hperm.
  pose proof (sort_by_sorted fst L) as Hsorted.
  assert (Hin' : (i, p) ∈ sort_by fst L) by (by rewrite Hperm).
  apply list_elem_of_split in Hin' as (l1 & l2 & Hl).
  rewrite Hl in *. clear Hl.
  apply (index_of_files_last recs l1 l2 i p before r after idx Hp Hafter).
  intros f r' Hf. apply Hnewer.
  - rewrite <- Hperm. apply elem_of_app. right. by right.
  - assert (Hle : i <= fst f).
    { pose proof (StronglySorted_after _ _ _ _ Hsorted) as Hall.
      rewrite Forall_forall in Hall. by apply (Hall f). }
    assert (Hne : fst f <> i); [|lia].
    intros Heq. rewrite <- Hperm in Hnd. rewrite fmap_app, fmap_cons in Hnd.
    apply NoDup_app in Hnd as (_ & _ & Hnd). apply NoDup_cons in Hnd as [Hnotin _].
    apply Hnotin. cbn [fst]. rewrite <- Heq. apply list_elem_of_fmap. by exists f.
Qed.

Lemma rebuildIndex_scan (db : Db) (fs : FS) (recs : path -> list entry) (h : handle) :
  out db = Some h ->
  holds_records fs recs ->
  Forall (fun seg => filePath seg = segment_file (id seg)) (segments db) ->
  rebuildIndex db fs
  = Returns (set_index db
               (index_of_files recs
                  (sort_by fst (map (fun seg => (id seg, filePath seg)) (segments db)
                                ++ [(activeSegmentID db, current_data)])) ∅), None).
Proof.
  intros Ho Hfs Hsegs. unfold rebuildIndex. rewrite Ho.
  rewrite (index_segments_scan fs recs); [done | done |].
  apply Forall_forall. intros f Hf.
  rewrite (sort_by_perm fst) in Hf. apply elem_of_app in Hf as [Hf|Hf].
  - apply list_elem_of_fmap in Hf as (seg & -> & Hseg). cbn [snd].
    rewrite Forall_forall in Hsegs. right. exists (id seg). by apply Hsegs.
  - apply list_elem_of_singleton in Hf as ->. by left.
Qed.

Lemma loadExistingSegments_closed (db : Db) (fs : FS) :
  loadExistingSegments db fs
  = set_segments db (max_seen (-1) (ReadDir fs) + 1)
      (sort_by id (omap segment_of (ReadDir fs))).
Proof.
  unfold loadExistingSegments.
  destruct (scan_entries_spec (ReadDir fs) [] (-1) false) as [h ->]. cbn [app].
  destruct (max_seen_ge (ReadDir fs) (-1)) as (Hm & _).
  destruct h; [done|].
  destruct (Z.leb_spec 0 (max_seen (-1) (ReadDir fs))); [done|].
  by replace (max_seen (-1) (ReadDir fs)) with (-1) by lia.
Qed.

Lemma NoDup_segment_ids (names : list path) :
  NoDup names -> NoDup (map id (omap segment_of names)).
Proof.
  induction 1 as [|name names Hnotin Hnd IH]; [constructor|].
  destruct name as [|i| |n]; cbn [omap segment_of option_bind mbind]; try exact IH.
  cbn [map id]. apply NoDup_cons. split; [|exact IH].
  intros Hin. apply list_elem_of_fmap in Hin as (seg & Hid & Hseg).
  apply elem_of_segments_of in Hseg as (j & -> & Hj). cbn [id] in Hid. by subst j.
Qed.

(** The index [rebuildIndex] makes of a directory of records, when the
    sealed list names every segment file once: a key without a record
    gets no entry; a key with records gets an entry that points to the
    start of the newest of them. *)
Lemma rebuildIndex_restores (db : Db) (fs : FS) (recs : path -> list entry) :
  segment_integrity db fs ->
  NoDup (map id (segments db)) ->
  (forall i, is_Some (fs !! segment_file i) -> exists seg, seg ∈ segments db /\ id seg = i) ->
  holds_records fs recs ->
  exists idx,
    rebuildIndex db fs = Returns (set_index db idx, None) /\
    (forall k, (forall p r, data_file p -> r ∈ recs p -> key r <> k) -> idx !! k = None) /\
    (forall p before r after,
       data_file p ->
       recs p = before ++ r :: after ->
       (forall r', r' ∈ after -> key r' <> key r) ->
       (forall p' r', newer p' p -> r' ∈ recs p' -> key r' <> key r) ->
       entry_at (set_index db idx) fs (key r) r).
Proof.
  intros (Hcur & Hout & Hsegs) Hnd Hlisted Hfs.
  set (L := map (fun seg => (id seg, filePath seg)) (segments db)
            ++ [(activeSegmentID db, current_data)]).
  exists (index_of_files recs (sort_by fst L) ∅).
  rewrite Forall_forall in Hsegs.
  assert (HL : forall f, f ∈ L ->
            (fst f < activeSegmentID db /\ snd f = segment_file (fst f)) \/
            f = (activeSegmentID db, current_data)).
  { intros f Hf. apply elem_of_app in Hf as [Hf|Hf].
    - apply list_elem_of_fmap in Hf as (seg & -> & Hseg). left. cbn [fst snd].
      by apply Hsegs.
    - apply list_elem_of_singleton in Hf. by right. }
  assert (HndL : NoDup (L.*1)).
  { unfold L. rewrite fmap_app, <- list_fmap_compose. cbn [fmap list_fmap fst].
    apply NoDup_app. split; [exact Hnd|]. split; [|apply NoDup_singleton].
    intros i Hi Hact. apply list_elem_of_singleton in Hact. subst i.
    apply list_elem_of_fmap in Hi as (seg & Hid & Hseg). cbn [compose fst] in Hid.
    destruct (Hsegs seg Hseg) as [Hlt _]. lia. }
  split; [|split].
  - apply (rebuildIndex_scan db fs recs handle_open); [done | done |].
    apply Forall_forall. intros seg Hseg. by apply Hsegs.
  - intros k Hk. rewrite sorted_files_other; [done|].
    intros f r Hf. apply Hk. destruct (HL f Hf) as [[_ ->]| ->]; [right; by eexists | by left].
  - intros p before r after Hp Hrecs Hafter Hnewer.
    destruct (Hfs p Hp) as (Hr & Hfit & Hfile).
    assert (Hcontent : fs !! p = Some (file_of_records (before ++ r :: after))).
    { destruct (fs !! p) as [c|]; [by rewrite Hfile, Hrecs|].
      rewrite Hfile in Hrecs. by destruct before. }
    assert (Hdrop : drop (Z.to_nat (len (file_of_records before)))
                      (file_of_records (before ++ r :: after))
                    = Encode r ++ file_of_records after).
    { rewrite file_of_records_app, file_of_records_cons.
      apply drop_app_length'. unfold len. lia. }
    assert (Hidx : forall i, (i, p) ∈ L ->
              (forall f, f ∈ L -> i < fst f -> newer (snd f) p) ->
              index_of_files recs (sort_by fst L) ∅ !! key r
              = Some (mkIndexEntry i (len (file_of_records before)))).
    { intros i Hi Hn. apply (sorted_files_last recs L i p before r after); try done.
      intros f r' Hf Hlt. apply Hnewer. by apply Hn. }
    destruct Hp as [->|[i ->]].
    + exists (mkIndexEntry (activeSegmentID db) (len (file_of_records before))),
             (file_of_records (before ++ r :: after)), (file_of_records after).
      cbn [set_index index activeSegmentID segmentID offset]. unfold file_of.
      cbn [segmentID activeSegmentID]. rewrite Z.eqb_refl.
      split; [|split; [lia | split; [apply len_nonneg | by split]]].
      apply Hidx; [apply elem_of_app; right; by apply list_elem_of_singleton|].
      intros f Hf Hlt. destruct (HL f Hf) as [[Hlt' _]| ->]; cbn [fst] in *; lia.
    + destruct (Hlisted i) as (seg & Hseg & Hid); [by eexists|].
      destruct (Hsegs seg Hseg) as [Hlt Hpath]. subst i.
      exists (mkIndexEntry (id seg) (len (file_of_records before))),
             (file_of_records (before ++ r :: after)), (file_of_records after).
      cbn [set_index index activeSegmentID segmentID offset]. unfold file_of.
      cbn [segmentID activeSegmentID set_index].
      replace (id seg =? activeSegmentID db) with false by (symmetry; apply Z.eqb_neq; lia).
      split; [|split; [lia | split; [apply len_nonneg | by split]]].
      apply Hidx.
      * apply elem_of_app. left. apply list_elem_of_fmap. exists seg.
        by rewrite Hpath.
      * intros f Hf Hlt'. destruct (HL f Hf) as [[_ ->]| ->]; [exact Hlt' | exact I].
Qed.

Lemma len_record_in_file (before : list entry) (r : entry) (after : list entry) :
  len (Encode r) <= len (file_of_records (before ++ r :: after)).
Proof.
  rewrite file_of_records_app, file_of_records_cons, !len_app.
  pose proof (len_nonneg (file_of_records before)).
  pose proof (len_nonneg (file_of_records after)). lia.
Qed.

Lemma Open_scan (fs : FS) (threshold : Z) (recs : path -> list entry) :
  holds_records fs recs ->
  exists db,
    OpenWithMaxSegmentSize fs threshold
    = Returns (db, <[current_data := default [] (fs !! current_data)]> fs, None) /\
    maxSegmentSize db = threshold /\
    offset_in_step db (<[current_data := default [] (fs !! current_data)]> fs) /\
    (forall k, (forall p r, data_file p -> r ∈ recs p -> key r <> k) ->
       index db !! k = None) /\
    (forall p before r after,
       data_file p ->
       recs p = before ++ r :: after ->
       (forall r', r' ∈ after -> key r' <> key r) ->
       (forall p' r', newer p' p -> r' ∈ recs p' -> key r' <> key r) ->
       entry_at db (<[current_data := default [] (fs !! current_data)]> fs) (key r) r).
Proof.
  intros Hfs. unfold OpenWithMaxSegmentSize, openActiveSegment.
  rewrite loadExistingSegments_closed.
  set (content := default [] (fs !! current_data)).
  set (db1 := set_out _ _ _). set (fs' := <[current_data := content]> fs).
  assert (Hint : segment_integrity db1 fs').
  { split; [unfold fs'; rewrite lookup_insert_eq; by eexists|]. split; [done|].
    pose proof (loadExistingSegments_ids (mkDb ∅ threshold 0 [] None 0) fs) as H.
    by rewrite loadExistingSegments_closed in H. }
  assert (Hnd : NoDup (map id (segments db1))).
  { unfold db1. cbn [set_out set_segments segments].
    rewrite (sort_by_perm id). apply NoDup_segment_ids. apply NoDup_fst_map_to_list. }
  assert (Hlisted : forall i, is_Some (fs' !! segment_file i) ->
            exists seg, seg ∈ segments db1 /\ id seg = i).
  { intros i Hi. unfold fs' in Hi. rewrite lookup_insert_ne in Hi by done.
    exists (mkSegment i (segment_file i) true). split; [|done].
    unfold db1. cbn [set_out set_segments segments]. rewrite (sort_by_perm id).
    apply elem_of_segments_of. exists i. split; [done|]. by apply elem_of_ReadDir. }
  assert (Hfs' : holds_records fs' recs).
  { intros p Hp. destruct (Hfs p Hp) as (Hr & Hfit & Hfile). split; [done|]. split; [done|].
    unfold fs'. destruct (decide (p = current_data)) as [->|Hne].
    - rewrite lookup_insert_eq. unfold content.
      destruct (fs !! current_data); [done|]. by rewrite Hfile.
    - by rewrite lookup_insert_ne. }
  destruct (rebuildIndex_restores db1 fs' recs Hint Hnd Hlisted Hfs')
    as (idx & -> & Hnone & Hlast).
  cbn [obind fst snd]. exists (set_index db1 idx). split; [done|]. split; [done|].
  split; [|by split].
  split; [done|]. exists content. split; [apply lookup_insert_eq | done].
Qed.


Lemma two_files_hold : holds_records two_files two_files_records.
Proof.
  intros p [->|[i ->]].
  - split; [|split; [vm_compute; discriminate | vm_compute; reflexivity]].
    apply Forall_cons. split; [split; [vm_compute; reflexivity | by left]|].
    apply Forall_nil_2.
  - cbn [two_files_records]. destruct (Z.eqb_spec i 0) as [->|Hne].
    + split; [|split; [vm_compute; discriminate | vm_compute; reflexivity]].
      apply Forall_cons. split; [split; [vm_compute; reflexivity | by left]|].
      apply Forall_cons. split; [|apply Forall_nil_2].
      split; [vm_compute; reflexivity|]. right. repeat split; cbn [int64Value]; lia.
    + split; [apply Forall_nil_2|]. split; [vm_compute; discriminate|].
      unfold two_files. rewrite lookup_insert_ne by congruence.
      by rewrite lookup_singleton_ne.
Qed.


(** ** Merging segments of records *)

Lemma merge_records_buffered (rs : list entry) (fuel : nat) (ke : gmap string entry) :
  Forall is_record rs ->
  (length rs < fuel)%nat ->
  merge_records fuel (mkReader [] (file_of_records rs) None) ke
  = Returns (latest_entries rs ke, None).
Proof.
  intros Hrs. revert fuel ke.
  induction Hrs as [|r rs Hr Hrs IH]; intros fuel ke Hfuel;
    (destruct fuel as [|fuel]; [simpl in Hfuel; lia|]); cbn [merge_records].
  - change (file_of_records []) with (@nil byte). by rewrite DecodeFromReader_end.
  - rewrite file_of_records_cons, DecodeFromReader_next by done.
    cbn [obind]. apply IH. simpl in Hfuel. lia.
Qed.

Lemma merge_records_load (fuel : nat) (content : list byte) (ke : gmap string entry) :
  len content <= defaultBufSize ->
  content = [] \/ 4 <= len content ->
  merge_records (S fuel) (NewReader content) ke
  = merge_records (S fuel) (mkReader [] content None) ke.
Proof. intros Hfit Hlong. cbn [merge_records]. by rewrite DecodeFromReader_load. Qed.

Lemma latest_entries_app (a b : list entry) (ke : gmap string entry) :
  latest_entries (a ++ b) ke = latest_entries b (latest_entries a ke).
Proof. apply foldl_app. Qed.

Lemma collect_segments_scan (fs : FS) (recs : path -> list entry) (segs : list segmentInfo)
    (ke : gmap string entry) :
  holds_records fs recs ->
  Forall (fun seg => data_file (filePath seg)) segs ->
  collect_segments fs segs ke = Returns (latest_entries (sealed_records recs segs) ke, None).
Proof.
  intros Hfs Hsegs. revert ke. induction Hsegs as [|seg segs Hseg Hsegs IH]; intros ke; [done|].
  cbn [collect_segments]. unfold sealed_records. cbn [map concat].
  rewrite latest_entries_app. fold (sealed_records recs segs).
  destruct (Hfs (filePath seg) Hseg) as (Hr & Hfit & Hfile).
  destruct (fs !! filePath seg) as [content|].
  - subst content.
    rewrite merge_records_load by (done || apply records_empty_or_long).
    rewrite merge_records_buffered by (done || (pose proof (length_records (recs (filePath seg))); lia)).
    cbn [obind snd fst]. apply IH.
  - rewrite Hfile. apply IH.
Qed.

Lemma latest_entries_other (rs : list entry) (ke : gmap string entry) (k : string) :
  (forall r, r ∈ rs -> key r <> k) -> latest_entries rs ke !! k = ke !! k.
Proof.
  unfold latest_entries. revert ke. induction rs as [|r rs IH]; intros ke H; [done|].
  cbn [foldl]. rewrite IH.
  - apply lookup_insert_ne. apply H. by left.
  - intros r' Hr'. apply H. by right.
Qed.

Lemma latest_entries_last (before : list entry) (r : entry) (after : list entry)
    (ke : gmap string entry) :
  (forall r', r' ∈ after -> key r' <> key r) ->
  latest_entries (before ++ r :: after) ke !! key r = Some r.
Proof.
  intros H. rewrite latest_entries_app. unfold latest_entries at 1. cbn [foldl].
  fold (latest_entries after (<[key r := r]> (latest_entries before ke))).
  rewrite latest_entries_other by done. apply lookup_insert_eq.
Qed.

Lemma latest_entries_inv (rs : list entry) (ke : gmap string entry) (k : string) (r : entry) :
  latest_entries rs ke !! k = Some r -> (r ∈ rs /\ key r = k) \/ ke !! k = Some r.
Proof.
  unfold latest_entries. revert ke. induction rs as [|x rs IH]; intros ke H; [by right|].
  cbn [foldl] in H. apply IH in H as [[Hin Hk]|H].
  - left. split; [by right | done].
  - destruct (decide (key x = k)) as [Hx|Hx].
    + subst k. rewrite lookup_insert_eq in H. inversion H; subst. left. split; [by left | done].
    + rewrite lookup_insert_ne in H by done. by right.
Qed.

(** *** The size of the merged file *)

Lemma len_file_perm (l l' : list entry) :
  l ≡ₚ l' -> len (file_of_records l) = len (file_of_records l').
Proof.
  induction 1 as [|x l l' _ IH|x y l|l l' l'' _ IH1 _ IH2].
  - done.
  - by rewrite !file_of_records_cons, !len_app, IH.
  - rewrite !file_of_records_cons, !len_app. lia.
  - by rewrite IH1.
Qed.

Lemma merged_size_insert (m : gmap string entry) (k : string) (r : entry) :
  len (file_of_records (map_to_list (<[k := r]> m)).*2)
  <= len (file_of_records (map_to_list m).*2) + len (Encode r).
Proof.
  destruct (m !! k) as [v|] eqn:E.
  - rewrite <- (insert_delete_eq m).
    rewrite (len_file_perm _ (r :: (map_to_list (delete k m)).*2)).
    2: { rewrite map_to_list_insert by apply lookup_delete_eq. done. }
    rewrite (len_file_perm (map_to_list m).*2 (v :: (map_to_list (delete k m)).*2)).
    2: { rewrite <- (map_to_list_delete m k v E). done. }
    rewrite !file_of_records_cons, !len_app. pose proof (len_nonneg (Encode v)). lia.
  - rewrite (len_file_perm _ (r :: (map_to_list m).*2)).
    2: { rewrite map_to_list_insert by done. done. }
    rewrite file_of_records_cons, len_app. lia.
Qed.

Lemma merged_size (rs : list entry) (ke : gmap string entry) :
  len (file_of_records (map_to_list (latest_entries rs ke)).*2)
  <= len (file_of_records (map_to_list ke).*2) + len (file_of_records rs).
Proof.
  unfold latest_entries. revert ke. induction rs as [|r rs IH]; intros ke.
  - change (len (file_of_records [])) with 0. cbn [foldl]. lia.
  - cbn [foldl]. rewrite file_of_records_cons, len_app.
    pose proof (IH (<[key r := r]> ke)). pose proof (merged_size_insert ke (key r) r). lia.
Qed.

Lemma len_sealed_records (fs : FS) (recs : path -> list entry) (segs : list segmentInfo) :
  holds_records fs recs ->
  Forall (fun seg => data_file (filePath seg)) segs ->
  len (file_of_records (sealed_records recs segs)) = sealed_size fs segs.
Proof.
  intros Hfs Hsegs. induction Hsegs as [|seg segs Hseg Hsegs IH]; [done|].
  unfold sealed_records. cbn [map concat]. fold (sealed_records recs segs).
  rewrite file_of_records_app, len_app, sealed_size_cons, IH.
  destruct (Hfs (filePath seg) Hseg) as (_ & _ & Hfile).
  destruct (fs !! filePath seg) as [content|]; [by subst|]. by rewrite Hfile.
Qed.

Lemma lookup_foldl_delete_cases (fs : FS) (segs : list segmentInfo) (p : path) :
  (p ∈ map filePath segs /\
   foldl (fun fs seg => delete (filePath seg) fs) fs segs !! p = None) \/
  ((p ∉ map filePath segs) /\
   foldl (fun fs seg => delete (filePath seg) fs) fs segs !! p = fs !! p).
Proof.
  revert fs. induction segs as [|seg segs IH]; intros fs.
  - right. split; [apply not_elem_of_nil | done].
  - cbn [foldl map]. destruct (IH (delete (filePath seg) fs)) as [[Hin Hnone]|[Hnotin Hsame]].
    + left. split; [by right | done].
    + destruct (decide (filePath seg = p)) as [Heq|Hne].
      * left. split; [subst p; by left|]. by rewrite Hsame, Heq, lookup_delete_eq.
      * right. split; [|by rewrite Hsame, lookup_delete_ne].
        intros Hin. apply elem_of_cons in Hin as [Hin|Hin]; [by subst | done].
Qed.

Lemma latest_entries_keeps (rs : list entry) (ke : gmap string entry) (k : string) :
  is_Some (ke !! k) -> is_Some (latest_entries rs ke !! k).
Proof.
  unfold latest_entries. revert ke. induction rs as [|r rs IH]; intros ke H; [done|].
  cbn [foldl]. apply IH. destruct (decide (key r = k)) as [->|Hne].
  - rewrite lookup_insert_eq. by eexists.
  - by rewrite lookup_insert_ne.
Qed.

Lemma latest_entries_is_Some (rs : list entry) (ke : gmap string entry) (r : entry) :
  r ∈ rs -> is_Some (latest_entries rs ke !! key r).
Proof.
  revert ke. induction rs as [|x rs IH]; intros ke Hin; [by apply elem_of_nil in Hin|].
  apply elem_of_cons in Hin as [->|Hin].
  - change (latest_entries (x :: rs) ke) with (latest_entries rs (<[key x := x]> ke)).
    apply latest_entries_keeps. rewrite lookup_insert_eq. by eexists.
  - by apply (IH (<[key x := x]> ke)).
Qed.

Lemma sealed_records_app (recs : path -> list entry) (l1 l2 : list segmentInfo) :
  sealed_records recs (l1 ++ l2) = sealed_records recs l1 ++ sealed_records recs l2.
Proof. unfold sealed_records. by rewrite map_app, concat_app. Qed.

Lemma elem_of_sealed_records (recs : path -> list entry) (segs : list segmentInfo) (r : entry) :
  r ∈ sealed_records recs segs <-> exists seg, seg ∈ segs /\ r ∈ recs (filePath seg).
Proof.
  induction segs as [|seg segs IH].
  - split; [intros H; by apply elem_of_nil in H|]. intros (seg & H & _). by apply elem_of_nil in H.
  - change (sealed_records recs (seg :: segs))
      with (recs (filePath seg) ++ sealed_records recs segs).
    rewrite elem_of_app, IH. split.
    + intros [H|(seg' & Hseg' & H)]; [exists seg; split; [by left | done]|].
      exists seg'. split; [by right | done].
    + intros (seg' & Hseg' & H). apply elem_of_cons in Hseg' as [->|Hseg']; [by left|].
      right. by exists seg'.
Qed.

(** The merge scan keeps, for a key, the record a rebuild would point
    to among the sealed segments: the last one in the sealed segment of
    the greatest id that has one. *)
Lemma sealed_newest (recs : path -> list entry) (segs : list segmentInfo)
    (seg : segmentInfo) (before : list entry) (r : entry) (after : list entry) :
  StronglySorted (fun a b => id a < id b) segs ->
  Forall (fun seg => filePath seg = segment_file (id seg)) segs ->
  seg ∈ segs ->
  recs (filePath seg) = before ++ r :: after ->
  (forall r', r' ∈ after -> key r' <> key r) ->
  (forall p' r', newer p' (filePath seg) -> r' ∈ recs p' -> key r' <> key r) ->
  latest_entries (sealed_records recs segs) ∅ !! key r = Some r.
Proof.
  intros Hsorted Hpaths Hseg Hrecs Hafter Hnewer.
  apply list_elem_of_split in Hseg as (l1 & l2 & ->).
  rewrite sealed_records_app.
  change (seg :: l2) with ([seg] ++ l2). rewrite sealed_records_app.
  unfold sealed_records at 2. cbn [map concat]. rewrite app_nil_r, Hrecs.
  replace (sealed_records recs l1 ++ (before ++ r :: after) ++ sealed_records recs l2)
    with ((sealed_records recs l1 ++ before) ++ r :: (after ++ sealed_records recs l2))
    by (rewrite <- !app_assoc; reflexivity).
  apply latest_entries_last.
  intros r' Hr'. apply elem_of_app in Hr' as [Hr'|Hr']; [by apply Hafter|].
  apply elem_of_sealed_records in Hr' as (seg' & Hseg' & Hr').
  apply (Hnewer (filePath seg')); [|done].
  pose proof (StronglySorted_after _ _ _ _ Hsorted) as Hall.
  rewrite Forall_forall in Hall, Hpaths.
  rewrite (Hpaths seg'), (Hpaths seg).
  - cbn [newer]. by apply Hall.
  - apply elem_of_app. right. by left.
  - apply elem_of_app. right. by right.
Qed.

(** Where a collected entry stands in the merged file: once, so with
    no record of its key behind it. *)
Lemma merged_split (l : list (string * entry)) (ke : gmap string entry) (r : entry) :
  l ≡ₚ map_to_list ke ->
  (forall k r', ke !! k = Some r' -> key r' = k) ->
  ke !! key r = Some r ->
  exists o1 o2, l.*2 = o1 ++ r :: o2 /\ forall r', r' ∈ o2 -> key r' <> key r.
Proof.
  intros Hperm Hkeys Hr.
  assert (Hin : (key r, r) ∈ l) by (rewrite Hperm; by apply elem_of_map_to_list).
  apply list_elem_of_split in Hin as (l1 & l2 & ->).
  exists (l1.*2), (l2.*2). split; [by rewrite fmap_app|].
  intros r' Hr'. apply list_elem_of_fmap in Hr' as ([k' r''] & -> & Hin'). cbn [snd].
  assert (Hk' : key r'' = k').
  { apply Hkeys. apply elem_of_map_to_list. rewrite <- Hperm.
    apply elem_of_app. right. by right. }
  pose proof (NoDup_fst_map_to_list ke) as Hnd. rewrite <- Hperm in Hnd.
  rewrite fmap_app, fmap_cons in Hnd.
  apply NoDup_app in Hnd as (_ & _ & Hnd). apply NoDup_cons in Hnd as [Hnotin _].
  intros Heq. apply Hnotin. cbn [fst]. apply list_elem_of_fmap.
  exists (k', r''). split; [cbn [fst]; congruence | done].
Qed.

Lemma merged_content (l : list (string * entry)) :
  concat (map (fun kv => Encode (snd kv)) l) = file_of_records l.*2.
Proof.
  induction l as [|kv l IH]; [done|].
  cbn [map concat fmap list_fmap]. rewrite file_of_records_cons. by rewrite IH.
Qed.

Lemma mergeSegments_scan (order : gmap string entry -> list (string * entry))
    (db : Db) (fs : FS) (recs : path -> list entry) :
  (forall m, order m ≡ₚ map_to_list m) ->
  segment_integrity db fs ->
  StronglySorted (fun a b => id a < id b) (segments db) ->
  (forall i, is_Some (fs !! segment_file i) -> exists seg, seg ∈ segments db /\ id seg = i) ->
  holds_records fs recs ->
  sealed_size fs (segments db) <= defaultBufSize ->
  (exists seg r, seg ∈ segments db /\ r ∈ recs (filePath seg)) ->
  exists db' fs' first,
    mergeSegments order db fs = Returns (db', fs', None) /\
    head (segments db) = Some first /\
    segments db' = [mkSegment (id first) (segment_file (id first)) true] /\
    activeSegmentID db' = activeSegmentID db /\
    out db' = out db /\ outOffset db' = outOffset db /\
    maxSegmentSize db' = maxSegmentSize db /\
    fs' !! current_data = fs !! current_data /\
    (forall i, i <> id first -> fs' !! segment_file i = None) /\
    fst (Size db' fs') <= fst (Size db fs) /\
    (forall k, (forall p r, data_file p -> r ∈ recs p -> key r <> k) ->
       index db' !! k = None) /\
    (forall p before r after,
       data_file p ->
       recs p = before ++ r :: after ->
       (forall r', r' ∈ after -> key r' <> key r) ->
       (forall p' r', newer p' p -> r' ∈ recs p' -> key r' <> key r) ->
       entry_at db' fs' (key r) r).
Proof.
  intros Hord (Hcur & Hout & Hsegs) Hsorted Hlisted Hfs Hsize (seg0 & r0 & Hseg0 & Hr0).
  remember (segments db) as segs eqn:Esegs.
  destruct segs as [|first rest]; [by apply elem_of_nil in Hseg0|].
  assert (Hdata : Forall (fun seg => data_file (filePath seg)) (first :: rest)).
  { eapply Forall_impl; [exact Hsegs|]. cbn beta. intros seg [_ ->]. right. by eexists. }
  assert (Hpaths : Forall (fun seg => filePath seg = segment_file (id seg)) (first :: rest)).
  { eapply Forall_impl; [exact Hsegs|]. cbn beta. by intros seg [_ ->]. }
  rewrite Forall_forall in Hsegs.
  destruct (Hsegs first) as [Hfirst_lt Hfirst_path]; [by left|].
  unfold mergeSegments. rewrite <- Esegs.
  rewrite (collect_segments_scan fs recs (first :: rest)) by done.
  cbn [obind snd fst].
  set (ke := latest_entries (sealed_records recs (first :: rest)) ∅).
  assert (Hke_in : forall k r, ke !! k = Some r ->
            key r = k /\ exists seg, seg ∈ first :: rest /\ r ∈ recs (filePath seg)).
  { intros k r H. apply latest_entries_inv in H as [[Hin Hk]|H]; [|by rewrite lookup_empty in H].
    split; [done|]. by apply elem_of_sealed_records. }
  assert (Hnonempty : size ke <> 0%nat).
  { intros H0. apply map_size_empty_inv in H0.
    destruct (latest_entries_is_Some (sealed_records recs (first :: rest)) ∅ r0) as [x Hx].
    { apply elem_of_sealed_records. by exists seg0. }
    fold ke in Hx. rewrite H0, lookup_empty in Hx. discriminate. }
  destruct (decide (size ke = 0%nat)) as [|_]; [done|].
  rewrite merged_content.
  set (merged := file_of_records (order ke).*2).
  set (fs2 := foldl _ (<[temp_merge := merged]> fs) (first :: rest)).
  assert (Htemp : fs2 !! temp_merge = Some merged).
  { unfold fs2. rewrite lookup_foldl_delete; [apply lookup_insert_eq|].
    eapply Forall_impl; [exact Hpaths|]. cbn beta. by intros seg ->. }
  unfold rename. rewrite Htemp.
  set (fs3 := <[filePath first := merged]> (delete temp_merge fs2)).
  set (db1 := set_segments db (activeSegmentID db) [mkSegment (id first) (filePath first) true]).
  assert (Hfs3_cur : fs3 !! current_data = fs !! current_data).
  { unfold fs3, fs2. rewrite Hfirst_path, lookup_insert_ne, lookup_delete_ne by done.
    rewrite lookup_foldl_delete; [by rewrite lookup_insert_ne|].
    eapply Forall_impl; [exact Hpaths|]. cbn beta. by intros seg ->. }
  assert (Hfs3_first : fs3 !! segment_file (id first) = Some merged).
  { unfold fs3. rewrite Hfirst_path. apply lookup_insert_eq. }
  assert (Hfs3_other : forall i, i <> id first -> fs3 !! segment_file i = None).
  { intros i Hi. unfold fs3. rewrite Hfirst_path.
    rewrite lookup_insert_ne, lookup_delete_ne by congruence. unfold fs2.
    destruct (lookup_foldl_delete_cases (<[temp_merge := merged]> fs) (first :: rest)
                (segment_file i)) as [[_ ->]|[Hnotin ->]]; [done|].
    rewrite lookup_insert_ne by done.
    destruct (fs !! segment_file i) as [c|] eqn:E; [|done].
    destruct (Hlisted i) as (seg & Hseg & Hid); [by rewrite E; eexists|].
    exfalso. apply Hnotin. apply list_elem_of_fmap. exists seg. split; [|done].
    destruct (Hsegs seg Hseg) as [_ ->]. by rewrite Hid. }
  set (recs' := fun p => match p with
                         | current_data => recs current_data
                         | segment_file i => if i =? id first then (order ke).*2 else []
                         | _ => []
                         end).
  assert (Hmerged_in : forall r, r ∈ (order ke).*2 ->
            key r ∈ (order ke).*1 /\ ke !! key r = Some r).
  { intros r Hr. apply list_elem_of_fmap in Hr as ([k r'] & -> & Hin). cbn [snd].
    rewrite Hord in Hin. apply elem_of_map_to_list in Hin.
    destruct (Hke_in k r' Hin) as [Hk _]. rewrite Hk. split; [|done].
    apply list_elem_of_fmap. exists (k, r'). split; [done|].
    rewrite Hord. by apply elem_of_map_to_list. }
  assert (Hmerged_len : len merged <= sealed_size fs (first :: rest)).
  { unfold merged. rewrite (len_file_perm _ (map_to_list ke).*2) by (by rewrite Hord).
    pose proof (merged_size (sealed_records recs (first :: rest)) ∅) as H. fold ke in H.
    rewrite map_to_list_empty in H. change (len (file_of_records ([] : list (string * entry)).*2)) with 0 in H.
    rewrite (len_sealed_records fs) in H by done. lia. }
  assert (Hfs3 : holds_records fs3 recs').
  { intros p [->|[i ->]].
    - destruct (Hfs current_data) as (Hr & Hfit & Hfile); [by left|].
      split; [done|]. split; [done|]. by rewrite Hfs3_cur.
    - cbn [recs']. unfold recs'. destruct (Z.eqb_spec i (id first)) as [->|Hne].
      + split; [|split; [fold merged; lia | by rewrite Hfs3_first]].
        apply Forall_forall. intros r Hr. apply Hmerged_in in Hr as [_ Hr].
        destruct (Hke_in _ _ Hr) as [_ (seg & Hseg & Hin)].
        destruct (Hfs (filePath seg)) as (Hrec & _).
        { rewrite Forall_forall in Hdata. by apply Hdata. }
        rewrite Forall_forall in Hrec. by apply Hrec.
      + split; [apply Forall_nil_2|]. split; [vm_compute; discriminate|].
        by rewrite Hfs3_other. }
  assert (Hint1 : segment_integrity db1 fs3).
  { split; [by rewrite Hfs3_cur|]. split; [done|].
    apply Forall_cons. split; [|apply Forall_nil_2].
    cbn [id filePath db1 set_segments activeSegmentID]. by split. }
  destruct (rebuildIndex_restores db1 fs3 recs' Hint1) as (idx & -> & Hnone & Hlast); [| |done|].
  { cbn [db1 set_segments segments map id]. apply NoDup_singleton. }
  { intros i Hi. exists (mkSegment (id first) (filePath first) true). split; [by left|].
    cbn [id]. destruct (decide (i = id first)) as [|Hne]; [done|].
    rewrite Hfs3_other in Hi by done. by destruct Hi. }
  cbn [obind snd fst].
  exists (set_index db1 idx), fs3, first.
  split; [done|]. split; [done|].
  split; [cbn [set_index db1 set_segments segments]; by rewrite Hfirst_path|].
  split; [done|]. split; [done|]. split; [done|]. split; [done|].
  split; [done|]. split; [done|].
  assert (Hrecs'_in : forall p r, data_file p -> r ∈ recs' p ->
            exists p0, data_file p0 /\ r ∈ recs p0).
  { intros p r [->|[i ->]] Hr; [exists current_data; split; [by left | done]|].
    unfold recs' in Hr. destruct (i =? id first); [|by apply elem_of_nil in Hr].
    apply Hmerged_in in Hr as [_ Hr]. destruct (Hke_in _ _ Hr) as [_ (seg & Hseg & Hin)].
    exists (filePath seg). split; [|done]. rewrite Forall_forall in Hdata. by apply Hdata. }
  split; [|split].
  - unfold Size. cbn [set_index db1 set_segments segments]. rewrite <- Esegs.
    rewrite Hfs3_cur, sealed_size_cons. cbn [filePath]. rewrite Hfirst_path, Hfs3_first.
    change (sealed_size fs3 []) with 0.
    destruct (fs !! current_data); cbn [fst]; lia.
  - intros k Hk. cbn [set_index index]. apply Hnone.
    intros p r Hp Hr. destruct (Hrecs'_in p r Hp Hr) as (p0 & Hp0 & Hr0'). by apply (Hk p0).
  - intros p before r after Hp Hrecs Hafter Hnewer.
    destruct Hp as [->|[i ->]].
    + apply (Hlast current_data before r after); [by left | done | done|].
      intros p' r' Hp'. by destruct p'.
    + assert (Hfile : is_Some (fs !! segment_file i)).
      { destruct (Hfs (segment_file i)) as (_ & _ & Hfile); [right; by eexists|].
        destruct (fs !! segment_file i); [by eexists|].
        rewrite Hfile in Hrecs. by destruct before. }
      destruct (Hlisted i Hfile) as (seg & Hseg & Hid).
      destruct (Hsegs seg Hseg) as [_ Hpath].
      assert (Hke : ke !! key r = Some r).
      { apply (sealed_newest recs (first :: rest) seg before r after); try done.
        - by rewrite Hpath, Hid.
        - by rewrite Hpath, Hid. }
      destruct (merged_split (order ke) ke r (Hord ke)) as (o1 & o2 & Hsplit & Ho2);
        [intros k r' H; by apply Hke_in in H as [? _] | done |].
      apply (Hlast (segment_file (id first)) o1 r o2).
      * right. by eexists.
      * unfold recs'. by rewrite Z.eqb_refl.
      * done.
      * intros p' r' Hp' Hr'. destruct p' as [|j| |n]; try done.
        -- apply (Hnewer current_data); done.
        -- cbn [newer] in Hp'. unfold recs' in Hr'.
           replace (j =? id first) with false in Hr' by (symmetry; apply Z.eqb_neq; lia).
           by apply elem_of_nil in Hr'.
Qed.

(** X18: merging segments of records keeps the data.  When the sealed
    list is in ascending order of id and names every segment file, the
    data files hold records, the sealed files together fit the
    reader's buffer and hold at least one record, and the loop over the
    collected entries visits each of them once, [mergeSegments]
    succeeds: one sealed segment is left, under the id and path of the
    first; the other segment files are gone; the active file, its id,
    the handle and the offset are as before; [Size] has not grown; a
    key without a record is not found, and a key with records still
    reads as the newest of them. *)
Theorem mergeSegments_keeps_newest (order : gmap string entry -> list (string * entry))
    (db : Db) (fs : FS) (recs : path -> list entry) :
  (forall m, order m ≡ₚ map_to_list m) ->
  segment_integrity db fs ->
  StronglySorted (fun a b => id a < id b) (segments db) ->
  (forall i, is_Some (fs !! segment_file i) -> exists seg, seg ∈ segments db /\ id seg = i) ->
  holds_records fs recs ->
  sealed_size fs (segments db) <= defaultBufSize ->
  (exists seg r, seg ∈ segments db /\ r ∈ recs (filePath seg)) ->
  exists db' fs' first,
    mergeSegments order db fs = Returns (db', fs', None) /\
    head (segments db) = Some first /\
    segments db' = [mkSegment (id first) (segment_file (id first)) true] /\
    activeSegmentID db' = activeSegmentID db /\
    out db' = out db /\ outOffset db' = outOffset db /\
    maxSegmentSize db' = maxSegmentSize db /\
    fs' !! current_data = fs !! current_data /\
    (forall i, i <> id first -> fs' !! segment_file i = None) /\
    fst (Size db' fs') <= fst (Size db fs) /\
    (forall k, (forall p r, data_file p -> r ∈ recs p -> key r <> k) ->
       Get db' fs' k = Returns (EmptyString, Some ErrNotFound) /\
       GetInt64 db' fs' k = Returns (0, Some ErrNotFound)) /\
    (forall p before r after,
       data_file p ->
       recs p = before ++ r :: after ->
       (forall r', r' ∈ after -> key r' <> key r) ->
       (forall p' r', newer p' p -> r' ∈ recs p' -> key r' <> key r) ->
       (valueType r = TypeString -> Get db' fs' (key r) = Returns (stringValue r, None)) /\
       (valueType r = TypeInt64 -> GetInt64 db' fs' (key r) = Returns (int64Value r, None))).
Proof.
  intros Hord Hint Hsorted Hlisted Hfs Hsize Hne.
  destruct (mergeSegments_scan order db fs recs Hord Hint Hsorted Hlisted Hfs Hsize Hne)
    as (db' & fs' & first & Hm & Hhead & Hs & Ha & Ho & Hoff & Hmax & Hcur & Hgone & Hsz
        & Hnone & Hlast).
  exists db', fs', first. do 10 (split; [done|]). split.
  - intros k Hk. unfold Get, GetInt64. by rewrite (Hnone k Hk).
  - intros p before r after Hp Hrecs Hafter Hnewer.
    destruct (Hfs p Hp) as (Hr & Hfit & _). rewrite Hrecs in Hr, Hfit.
    apply Get_entry_at.
    + by apply (Hlast p before r after).
    + rewrite Forall_forall in Hr. apply Hr. apply elem_of_app. right. by left.
    + pose proof (len_record_in_file before r after). lia.
Qed.

Lemma mergeSegments_keeps_newest_witness :
  exists db' fs' first,
    mergeSegments map_to_list
      (mkDb ∅ 100 1 [mkSegment 0 (segment_file 0) true] (Some handle_open) 15) two_files
    = Returns (db', fs', None) /\
    head [mkSegment 0 (segment_file 0) true] = Some first /\
    segments db' = [mkSegment (id first) (segment_file (id first)) true] /\
    activeSegmentID db' = 1 /\
    out db' = Some handle_open /\ outOffset db' = 15 /\
    maxSegmentSize db' = 100 /\
    fs' !! current_data = two_files !! current_data /\
    (forall i, i <> id first -> fs' !! segment_file i = None) /\
    fst (Size db' fs')
    <= fst (Size (mkDb ∅ 100 1 [mkSegment 0 (segment_file 0) true] (Some handle_open) 15)
              two_files) /\
    (forall k, (forall p r, data_file p -> r ∈ two_files_records p -> key r <> k) ->
       Get db' fs' k = Returns (EmptyString, Some ErrNotFound) /\
       GetInt64 db' fs' k = Returns (0, Some ErrNotFound)) /\
    (forall p before r after,
       data_file p ->
       two_files_records p = before ++ r :: after ->
       (forall r', r' ∈ after -> key r' <> key r) ->
       (forall p' r', newer p' p -> r' ∈ two_files_records p' -> key r' <> key r) ->
       (valueType r = TypeString -> Get db' fs' (key r) = Returns (stringValue r, None)) /\
       (valueType r = TypeInt64 -> GetInt64 db' fs' (key r) = Returns (int64Value r, None))).
Proof.
  apply (mergeSegments_keeps_newest map_to_list
           (mkDb ∅ 100 1 [mkSegment 0 (segment_file 0) true] (Some handle_open) 15)
           two_files two_files_records).
  - intros m. reflexivity.
  - split; [by eexists|]. split; [reflexivity|].
    apply Forall_cons. split; [cbn [id filePath activeSegmentID]; split; [lia | reflexivity]|].
    apply Forall_nil_2.
  - cbn [segments]. repeat constructor.
  - intros i Hi. exists (mkSegment 0 (segment_file 0) true). split; [by left|]. cbn [id].
    destruct (decide (i = 0)) as [|Hne]; [done|].
    unfold two_files in Hi. rewrite lookup_insert_ne in Hi by congruence.
    rewrite lookup_singleton_ne in Hi by done. by destruct Hi.
  - exact two_files_hold.
  - vm_compute. discriminate.
  - exists (mkSegment 0 (segment_file 0) true), (mkEntry "a" TypeString "1" 0).
    split; [by left|]. cbn [filePath two_files_records]. by left.
Defined.

(** ** Requests that are refused, and the merge trigger *)



(** X20: the merge trigger.  [tryMerge] does nothing with fewer than
    three sealed segments or when the writer's queue does not take the
    request; it always comes to an end; and whenever it returns, the
    active file, its id, the offset and the threshold are as before,
    the state has the active file open and the sealed ids below the
    active id, and the sealed list is the one it found or a single
    segment. *)
Theorem tryMerge_effect (order : gmap string entry -> list (string * entry))
    (accepted : bool) (db : Db) (fs : FS) :
  segment_integrity db fs ->
  (Z.of_nat (length (segments db)) < 3 \/ accepted = false ->
   tryMerge order accepted db fs = Returns (db, fs)) /\
  tryMerge order accepted db fs <> Unfinished /\
  (forall db' fs',
     tryMerge order accepted db fs = Returns (db', fs') ->
     segment_integrity db' fs' /\
     fs' !! current_data = fs !! current_data /\
     activeSegmentID db' = activeSegmentID db /\
     outOffset db' = outOffset db /\
     maxSegmentSize db' = maxSegmentSize db /\
     (segments db' = segments db \/ length (segments db') = 1%nat)).
Proof.
  intros Hinv. pose proof Hinv as (Hcur & Hout & Hsegs).
  assert (Hpaths : Forall (fun seg => filePath seg <> current_data) (segments db)).
  { eapply Forall_impl; [exact Hsegs|]. cbn beta. by intros seg [_ ->]. }
  unfold tryMerge.
  destruct (Z.ltb_spec (Z.of_nat (length (segments db))) 3) as [Hfew|Hmany].
  { split; [done|]. split; [done|]. intros db' fs' H. inversion H; subst.
    repeat split; try done; by left. }
  destruct accepted.
  2: { split; [done|]. split; [done|]. intros db' fs' H. inversion H; subst.
       repeat split; try done; by left. }
  unfold handlePut. cbn [req_key]. rewrite String.eqb_refl.
  pose proof (mergeSegments_finishes order db fs) as Hfin.
  destruct (mergeSegments order db fs) as [[[db1 fs1] err]| |] eqn:Em; cbn [obind fst snd].
  - split; [intros [H|H]; [lia | discriminate]|]. split; [done|].
    intros db' fs' H. inversion H; subst. clear H.
    destruct (mergeSegments_effect order db fs db' fs' err Hpaths Em)
      as (Hc & Ho & Ha & Hm & Hoff & Hseg).
    split.
    { split; [by rewrite Hc|]. split; [by rewrite Ho|]. rewrite Ha.
      destruct Hseg as [->|(first & rest & E1 & ->)]; [done|].
      rewrite E1 in Hsegs. inversion Hsegs as [|? ? [H1 H2] _]; subst.
      repeat constructor; done. }
    repeat split; try done.
    destruct Hseg as [->|(first & rest & _ & ->)]; [by left | by right].
  - split; [intros [H|H]; [lia | discriminate]|]. split; [done|]. intros db' fs' H. discriminate.
  - done.
Qed.

Lemma tryMerge_effect_witness :
  (Z.of_nat (length (segments (fresh_db 20))) < 3 \/ true = false ->
   tryMerge map_to_list true (fresh_db 20) fresh_fs = Returns (fresh_db 20, fresh_fs)) /\
  tryMerge map_to_list true (fresh_db 20) fresh_fs <> Unfinished /\
  (forall db' fs',
     tryMerge map_to_list true (fresh_db 20) fresh_fs = Returns (db', fs') ->
     segment_integrity db' fs' /\
     fs' !! current_data = fresh_fs !! current_data /\
     activeSegmentID db' = activeSegmentID (fresh_db 20) /\
     outOffset db' = outOffset (fresh_db 20) /\
     maxSegmentSize db' = maxSegmentSize (fresh_db 20) /\
     (segments db' = segments (fresh_db 20) \/ length (segments db') = 1%nat)).
Proof.
  apply (tryMerge_effect map_to_list true (fresh_db 20) fresh_fs).
  split; [by eexists | split; [done | constructor]].
Defined.

(** ** What is written is there after a reopen *)

Lemma StronglySorted_before {A : Type} (R : A -> A -> Prop) (l1 : list A) (x : A)
    (l2 : list A) :
  StronglySorted R (l1 ++ x :: l2) -> Forall (fun y => R y x) l1.
Proof.
  induction l1 as [|y l1 IH]; cbn [app]; intros H; [constructor|].
  apply StronglySorted_inv in H as [H1 H2]. constructor; [|by apply IH].
  rewrite Forall_forall in H2. apply H2. apply elem_of_app. right. by left.
Qed.

Lemma StronglySorted_snoc {A : Type} (R : A -> A -> Prop) (l : list A) (x : A) :
  StronglySorted R l -> Forall (fun y => R y x) l -> StronglySorted R (l ++ [x]).
Proof.
  induction 1 as [|y l Hl IH Hy]; cbn [app]; intros Hx.
  - repeat constructor.
  - apply Forall_cons in Hx as [Hyx Hx]. constructor; [by apply IH|].
    apply Forall_app. split; [done|]. by repeat constructor.
Qed.

Lemma sealed_records_ext (recs recs' : path -> list entry) (segs : list segmentInfo) :
  Forall (fun seg => recs' (filePath seg) = recs (filePath seg)) segs ->
  sealed_records recs' segs = sealed_records recs segs.
Proof.
  induction 1 as [|seg segs H _ IH]; [done|].
  unfold sealed_records in *. cbn [map concat]. by rewrite H, IH.
Qed.

Lemma sealed_split (recs : path -> list entry) (segs : list segmentInfo)
    (L1 : list entry) (e : entry) (K : list entry) :
  sealed_records recs segs = L1 ++ e :: K ->
  exists s1 seg s2 bf af,
    segs = s1 ++ seg :: s2 /\
    recs (filePath seg) = bf ++ e :: af /\
    K = af ++ sealed_records recs s2.
Proof.
  revert L1. induction segs as [|seg segs IH]; intros L1 H.
  - by destruct L1.
  - change (sealed_records recs (seg :: segs))
      with (recs (filePath seg) ++ sealed_records recs segs) in H.
    apply app_eq_inv in H as [(k & Hk1 & Hk2)|(k & Hk1 & Hk2)].
    + destruct k as [|e' k].
      * cbn [app] in Hk2. symmetry in Hk2.
        destruct (IH [] Hk2) as (s1 & seg' & s2 & bf & af & -> & Hr & HK).
        by exists (seg :: s1), seg', s2, bf, af.
      * cbn [app] in Hk2. injection Hk2 as <- ->.
        by exists [], seg, segs, L1, k.
    + destruct (IH k Hk2) as (s1 & seg' & s2 & bf & af & -> & Hr & HK).
      by exists (seg :: s1), seg', s2, bf, af.
Qed.

Lemma len_sealed_member (recs : path -> list entry) (segs : list segmentInfo)
    (seg : segmentInfo) :
  seg ∈ segs ->
  len (file_of_records (recs (filePath seg)))
  <= len (file_of_records (sealed_records recs segs)).
Proof.
  intros Hseg. apply list_elem_of_split in Hseg as (s1 & s2 & ->).
  rewrite sealed_records_app. change (seg :: s2) with ([seg] ++ s2).
  rewrite sealed_records_app. unfold sealed_records at 2. cbn [map concat].
  rewrite app_nil_r, !file_of_records_app, !len_app.
  pose proof (len_nonneg (file_of_records (sealed_records recs s1))).
  pose proof (len_nonneg (file_of_records (sealed_records recs s2))). lia.
Qed.

Lemma holds_log_fresh (threshold : Z) : holds_log (fresh_db threshold) fresh_fs [].
Proof.
  split; [split; [by eexists | split; [done | constructor]]|].
  split; [split; [done|]; exists []; by split|].
  split; [constructor|]. split.
  - intros i Hi. unfold fresh_fs in Hi. rewrite lookup_singleton_ne in Hi by done.
    by destruct Hi.
  - exists (fun _ => []). split; [|done].
    intros p [->|[i ->]]; [done|]. unfold fresh_fs. by rewrite lookup_singleton_ne.
Qed.

Lemma holds_log_rotate (db : Db) (fs : FS) (log : list entry) :
  holds_log db fs log ->
  exists db1 fs1,
    rotateActiveSegment db fs = (db1, fs1, None) /\ holds_log db1 fs1 log.
Proof.
  intros (Hint & Hstep & Hsorted & Hlisted & recs & Hrecs & Hlog).
  pose proof Hint as ([c Hc] & Ho & Hs).
  rewrite (rotateActiveSegment_explicit db fs c Ho Hc).
  eexists _, _. split; [reflexivity|].
  set (act := activeSegmentID db) in *.
  set (fs1 := <[current_data := []]> (<[segment_file act := c]> (delete current_data fs))).
  assert (Hseg_file : forall i, i <> act -> fs1 !! segment_file i = fs !! segment_file i).
  { intros i Hi. unfold fs1.
    rewrite lookup_insert_ne, lookup_insert_ne, lookup_delete_ne by congruence. done. }
  assert (Hact_file : fs1 !! segment_file act = Some c).
  { unfold fs1. rewrite lookup_insert_ne by done. apply lookup_insert_eq. }
  assert (Hcur_file : fs1 !! current_data = Some []) by apply lookup_insert_eq.
  rewrite Forall_forall in Hs.
  split; [|split; [|split; [|split]]].
  - split; [by eexists|]. split; [done|].
    cbn [set_out set_segments segments activeSegmentID]. apply Forall_app. split.
    + apply Forall_forall. intros seg Hseg. destruct (Hs seg Hseg). split; [lia | done].
    + repeat constructor; cbn [id]; lia.
  - split; [done|]. exists []. by split.
  - cbn [set_out set_segments segments]. apply StronglySorted_snoc; [done|].
    apply Forall_forall. intros seg Hseg. cbn [id]. by apply Hs.
  - intros i Hi. cbn [set_out set_segments segments].
    destruct (decide (i = act)) as [->|Hne].
    + exists (mkSegment act (segment_file act) true). split; [|done].
      apply elem_of_app. right. by left.
    + rewrite Hseg_file in Hi by done. destruct (Hlisted i Hi) as (seg & Hseg & Hid).
      exists seg. split; [|done]. apply elem_of_app. by left.
  - exists (fun p => match p with
                     | current_data => []
                     | segment_file i => if i =? act then recs current_data else recs p
                     | _ => recs p
                     end).
    split.
    + intros p [->|[i ->]]; [by rewrite Hcur_file|].
      destruct (Z.eqb_spec i act) as [->|Hne].
      * rewrite Hact_file. specialize (Hrecs current_data (or_introl eq_refl)).
        by rewrite Hc in Hrecs.
      * rewrite Hseg_file by done. apply Hrecs. right. by eexists.
    + cbn [set_out set_segments segments]. rewrite sealed_records_app, app_nil_r.
      unfold sealed_records at 2. cbn [map concat filePath]. rewrite Z.eqb_refl, app_nil_r.
      rewrite <- Hlog. f_equal. apply sealed_records_ext.
      apply Forall_forall. intros seg Hseg. destruct (Hs seg Hseg) as [Hlt ->].
      by replace (id seg =? act) with false by (symmetry; apply Z.eqb_neq; lia).
Qed.

Lemma holds_log_append (db : Db) (fs : FS) (log : list entry) (req : putRequest) (e : entry) :
  holds_log db fs log ->
  request_entry req = Some e ->
  exists db' fs',
    append_entry write_ok db fs req = Returns (db', fs', None) /\
    holds_log db' fs' (log ++ [e]).
Proof.
  intros (Hint & Hstep & Hsorted & Hlisted & recs & Hrecs & Hlog) He.
  destruct Hint as (_ & Ho & Hs). destruct Hstep as (_ & c & Hc & Hoff).
  rewrite (append_entry_ok db fs req e c Ho Hc He).
  eexists _, _. split; [reflexivity|].
  split; [|split; [|split; [|split]]].
  - split; [rewrite lookup_insert_eq; by eexists|]. by split.
  - split; [done|]. exists (c ++ Encode e). split; [apply lookup_insert_eq|].
    cbn [set_out outOffset]. rewrite len_app. lia.
  - done.
  - intros i Hi. rewrite lookup_insert_ne in Hi by done. by apply Hlisted.
  - exists (fun p => match p with
                     | current_data => recs current_data ++ [e]
                     | _ => recs p
                     end).
    split.
    + intros p [->|[i ->]].
      * rewrite lookup_insert_eq, file_of_records_app.
        specialize (Hrecs current_data (or_introl eq_refl)). rewrite Hc in Hrecs.
        rewrite <- Hrecs. unfold file_of_records. cbn [map concat]. by rewrite app_nil_r.
      * rewrite lookup_insert_ne by done. apply Hrecs. right. by eexists.
    + cbn [set_out set_index segments]. rewrite app_assoc, <- Hlog. f_equal. f_equal.
      apply sealed_records_ext. apply Forall_forall. intros seg Hseg.
      rewrite Forall_forall in Hs. by destruct (Hs seg Hseg) as [_ ->].
Qed.

Lemma handlePut_log (order : gmap string entry -> list (string * entry))
    (db : Db) (fs : FS) (log : list entry) (req : putRequest) (e : entry) :
  holds_log db fs log ->
  req_key req <> MERGE ->
  request_entry req = Some e ->
  exists db' fs',
    handlePut order write_ok db fs req = Returns (db', fs', None) /\
    holds_log db' fs' (log ++ [e]).
Proof.
  intros Hlog Hk He. unfold handlePut.
  destruct (String.eqb_spec (req_key req) MERGE) as [|_]; [done|].
  destruct (maxSegmentSize db <=? outOffset db).
  - destruct (holds_log_rotate db fs log Hlog) as (db1 & fs1 & -> & Hlog1).
    by apply holds_log_append.
  - by apply holds_log_append.
Qed.

Lemma run_log (order : gmap string entry -> list (string * entry))
    (reqs : list putRequest) (db : Db) (fs : FS) (log : list entry) :
  holds_log db fs log ->
  Forall (fun req => req_key req <> MERGE /\ is_Some (request_entry req)) reqs ->
  exists db' fs',
    run order (map (pair write_ok) reqs) db fs = Returns (db', fs') /\
    holds_log db' fs' (log ++ omap request_entry reqs).
Proof.
  intros Hlog Hreqs. revert db fs log Hlog.
  induction Hreqs as [|req reqs [Hk [e He]] _ IH]; intros db fs log Hlog.
  - exists db, fs. split; [done|]. by rewrite app_nil_r.
  - destruct (handlePut_log order db fs log req e Hlog Hk He) as (db1 & fs1 & Hput & Hlog1).
    cbn [map run fst snd]. rewrite Hput. cbn [obind fst snd].
    destruct (IH db1 fs1 _ Hlog1) as (db' & fs' & Hrun & Hlog').
    exists db', fs'. split; [done|].
    change (omap request_entry (req :: reqs))
      with (match request_entry req with
            | Some y => y :: omap request_entry reqs
            | None => omap request_entry reqs
            end).
    rewrite He. by rewrite <- app_assoc in Hlog'.
Qed.

(** The newest record of a key in the log is the newest one in the
    files. *)
Lemma newest_in_log (db : Db) (fs : FS) (recs : path -> list entry)
    (L1 : list entry) (e : entry) (L2 : list entry) :
  Forall (fun seg => id seg < activeSegmentID db /\ filePath seg = segment_file (id seg))
         (segments db) ->
  StronglySorted (fun a b => id a < id b) (segments db) ->
  (forall i, is_Some (fs !! segment_file i) -> exists seg, seg ∈ segments db /\ id seg = i) ->
  (forall p, data_file p ->
     match fs !! p with
     | Some content => content = file_of_records (recs p)
     | None => recs p = []
     end) ->
  sealed_records recs (segments db) ++ recs current_data = L1 ++ e :: L2 ->
  (forall r', r' ∈ L2 -> key r' <> key e) ->
  exists p bf af,
    data_file p /\ recs p = bf ++ e :: af /\
    (forall r', r' ∈ af -> key r' <> key e) /\
    (forall p' r', newer p' p -> r' ∈ recs p' -> key r' <> key e).
Proof.
  intros Hs Hsorted Hlisted Hrecs Hlog Hfree.
  assert (Hcur : forall k, recs current_data = k ++ e :: L2 ->
            exists p bf af,
              data_file p /\ recs p = bf ++ e :: af /\
              (forall r', r' ∈ af -> key r' <> key e) /\
              (forall p' r', newer p' p -> r' ∈ recs p' -> key r' <> key e)).
  { intros k Hk. exists current_data, k, L2. split; [by left|]. split; [done|].
    split; [done|]. intros p' r' Hp'. by destruct p'. }
  apply app_eq_inv in Hlog as [(k & Hk1 & Hk2)|(k & Hk1 & Hk2)]; [|by apply (Hcur k)].
  destruct k as [|e' k]; [cbn [app] in Hk2; apply (Hcur []); by rewrite <- Hk2|].
  cbn [app] in Hk2. injection Hk2 as <- ->.
  apply sealed_split in Hk1 as (s1 & seg & s2 & bf & af & Hsegs & Hr & ->).
  rewrite Forall_forall in Hs.
  assert (Hseg : seg ∈ segments db) by (rewrite Hsegs; apply elem_of_app; right; by left).
  destruct (Hs seg Hseg) as [_ Hpath].
  exists (filePath seg), bf, af. split; [right; by eexists|]. split; [done|]. split.
  - intros r' Hr'. apply Hfree. apply elem_of_app. left. apply elem_of_app. by left.
  - intros p' r' Hp' Hr'. rewrite Hpath in Hp'. destruct p' as [|j| |n]; try done.
    + apply Hfree. apply elem_of_app. by right.
    + cbn [newer] in Hp'.
      assert (Hfile : is_Some (fs !! segment_file j)).
      { specialize (Hrecs (segment_file j)). destruct (fs !! segment_file j); [by eexists|].
        rewrite Hrecs in Hr' by (right; by eexists). by apply elem_of_nil in Hr'. }
      destruct (Hlisted j Hfile) as (seg' & Hseg' & Hid).
      destruct (Hs seg' Hseg') as [_ Hpath'].
      rewrite Hsegs in Hseg', Hsorted.
      apply Hfree. apply elem_of_app. left. apply elem_of_app. right.
      apply elem_of_sealed_records. exists seg'. split; [|by rewrite Hpath', Hid].
      apply elem_of_app in Hseg' as [Hseg'|Hseg'].
      * pose proof (StronglySorted_before _ _ _ _ Hsorted) as Hall.
        rewrite Forall_forall in Hall. specialize (Hall seg' Hseg'). cbn beta in Hall. lia.
      * apply elem_of_cons in Hseg' as [->|Hseg']; [lia | done].
Qed.

Lemma reopen_scan (db : Db) (fs : FS) (log : list entry) (threshold : Z) :
  holds_log db fs log ->
  Forall is_record log ->
  (forall p c, data_file p -> fs !! p = Some c -> len c <= defaultBufSize) ->
  exists db',
    OpenWithMaxSegmentSize fs threshold = Returns (db', fs, None) /\
    offset_in_step db' fs /\
    maxSegmentSize db' = threshold /\
    (forall k, (forall r, r ∈ log -> key r <> k) -> index db' !! k = None) /\
    (forall before r after,
       log = before ++ r :: after ->
       (forall r', r' ∈ after -> key r' <> key r) ->
       entry_at db' fs (key r) r /\ len (Encode r) <= defaultBufSize).
Proof.
  intros (Hint & Hstep & Hsorted & Hlisted & recs & Hrecs & Hlog) Hrec Hsmall.
  pose proof Hint as ([c Hc] & Ho & Hs).
  assert (Hin_log : forall p r, data_file p -> r ∈ recs p -> r ∈ log).
  { intros p r Hp Hr. rewrite <- Hlog. apply elem_of_app.
    destruct Hp as [->|[i ->]]; [by right|]. left.
    specialize (Hrecs (segment_file i)).
    destruct (fs !! segment_file i) as [c'|] eqn:E.
    - destruct (Hlisted i) as (seg & Hseg & Hid); [by rewrite E; eexists|].
      apply elem_of_sealed_records. exists seg. split; [done|].
      rewrite Forall_forall in Hs. destruct (Hs seg Hseg) as [_ ->]. by rewrite Hid.
    - rewrite Hrecs in Hr by (right; by eexists). by apply elem_of_nil in Hr. }
  assert (Hfs : holds_records fs recs).
  { intros p Hp. split; [|split; [|by apply Hrecs]].
    - apply Forall_forall. intros r Hr. rewrite Forall_forall in Hrec.
      apply Hrec. by apply (Hin_log p).
    - specialize (Hrecs p Hp). destruct (fs !! p) as [c'|] eqn:E.
      + rewrite <- Hrecs. by apply (Hsmall p).
      + rewrite Hrecs. vm_compute. discriminate. }
  destruct (Open_scan fs threshold recs Hfs) as (db' & Hopen & Hmax & Hstep' & Hnone & Hlast).
  assert (Hsame : <[current_data := default [] (fs !! current_data)]> fs = fs).
  { apply insert_id. by rewrite Hc. }
  rewrite Hsame in *.
  exists db'. split; [done|]. split; [done|]. split; [done|]. split.
  - intros k Hk. apply Hnone. intros p r Hp Hr. apply Hk. by apply (Hin_log p).
  - intros before r after Hl Hafter.
    rewrite Hl in Hlog.
    rewrite Forall_forall in Hs.
    destruct (newest_in_log db fs recs before r after) as (p & bf & af & Hp & Hr & Haf & Hnew);
      try done.
    { by apply Forall_forall. }
    split; [by apply (Hlast p bf r af)|].
    destruct (Hfs p Hp) as (_ & Hfit & _). rewrite Hr in Hfit.
    pose proof (len_record_in_file bf r af). lia.
Qed.

Lemma len_record_member (r : entry) (rs : list entry) :
  r ∈ rs -> len (Encode r) <= len (file_of_records rs).
Proof.
  intros Hr. apply list_elem_of_split in Hr as (l1 & l2 & ->). apply len_record_in_file.
Qed.

Lemma request_entry_value (req : putRequest) (e : entry) :
  request_entry req = Some e ->
  (req_valueType req = TypeString ->
   valueType e = TypeString /\ stringValue e = req_value req) /\
  (req_valueType req = TypeInt64 ->
   valueType e = TypeInt64 /\ int64Value e = req_int64Value req).
Proof.
  unfold request_entry. intros H. split; intros Ht; rewrite Ht in H;
    cbn in H; by inversion H.
Qed.

(** Every record of a log stands in a data file. *)
Lemma holds_log_member (db : Db) (fs : FS) (log : list entry) (r : entry) :
  holds_log db fs log ->
  r ∈ log ->
  exists p c rs, data_file p /\ fs !! p = Some c /\ c = file_of_records rs /\ r ∈ rs.
Proof.
  intros (([c Hc] & _ & Hs) & _ & _ & _ & recs & Hrecs & Hlog) Hr.
  rewrite <- Hlog in Hr. apply elem_of_app in Hr as [Hr|Hr].
  - apply elem_of_sealed_records in Hr as (seg & Hseg & Hr).
    rewrite Forall_forall in Hs. destruct (Hs seg Hseg) as [_ Hpath]. rewrite Hpath in Hr.
    assert (Hp : data_file (segment_file (id seg))) by (right; by eexists).
    pose proof (Hrecs _ Hp) as Hfile.
    destruct (fs !! segment_file (id seg)) as [c'|] eqn:E.
    + by exists (segment_file (id seg)), c', (recs (segment_file (id seg))).
    + rewrite Hfile in Hr. by apply elem_of_nil in Hr.
  - pose proof (Hrecs current_data (or_introl eq_refl)) as Hfile. rewrite Hc in Hfile.
    exists current_data, c, (recs current_data). split; [by left | done].
Qed.

(** The files of a log are parts of it. *)
Lemma holds_log_files (db : Db) (fs : FS) (log : list entry) (p : path) (c : list byte) :
  holds_log db fs log ->
  data_file p ->
  fs !! p = Some c ->
  exists rs, c = file_of_records rs /\ (forall r, r ∈ rs -> r ∈ log) /\
    len c <= len (file_of_records log).
Proof.
  intros ((_ & _ & Hs) & _ & _ & Hlisted & recs & Hrecs & Hlog) Hp Hc.
  pose proof (Hrecs p Hp) as Hfile. rewrite Hc in Hfile. exists (recs p). split; [done|].
  rewrite <- Hlog, file_of_records_app, len_app, Hfile.
  pose proof (len_nonneg (file_of_records (sealed_records recs (segments db)))).
  pose proof (len_nonneg (file_of_records (recs current_data))).
  destruct Hp as [->|[i ->]].
  - split; [|lia]. intros r Hr. apply elem_of_app. by right.
  - destruct (Hlisted i) as (seg & Hseg & Hid); [by rewrite Hc; eexists|].
    rewrite Forall_forall in Hs. destruct (Hs seg Hseg) as [_ Hpath].
    rewrite <- Hid, <- Hpath. split.
    + intros r Hr. apply elem_of_app. left. apply elem_of_sealed_records. by exists seg.
    + pose proof (len_sealed_member recs (segments db) seg Hseg). lia.
Qed.

(** X21: what is written is there after a reopen.  Requests with a
    supported type and a key other than the reserved one, written to a
    store opened on an empty directory under any threshold, all
    succeed, and [Close] succeeds and changes no file.  When no data
    file has grown beyond the reader's buffer, as is the case when the
    records together fit it, a second open of the directory, under any
    threshold, succeeds and changes no file; a key no request wrote is
    not found, and every other key reads as the value of the last
    request that wrote it, by the accessor of that request's type. *)
Theorem written_data_persists (order : gmap string entry -> list (string * entry))
    (threshold threshold' : Z) (reqs : list putRequest) :
  Forall (fun req => req_key req <> MERGE /\ is_Some (request_entry req) /\
                     - 2 ^ 63 <= req_int64Value req < 2 ^ 63) reqs ->
  exists db fs,
    run order (map (pair write_ok) reqs) (fresh_db threshold) fresh_fs = Returns (db, fs) /\
    Close db fs = (set_out db (Some handle_closed) (outOffset db), fs, None) /\
    (len (file_of_records (omap request_entry reqs)) <= defaultBufSize ->
     forall p c, data_file p -> fs !! p = Some c -> len c <= defaultBufSize) /\
    ((forall p c, data_file p -> fs !! p = Some c -> len c <= defaultBufSize) ->
     exists db',
       OpenWithMaxSegmentSize fs threshold' = Returns (db', fs, None) /\
       offset_in_step db' fs /\
       maxSegmentSize db' = threshold' /\
       (forall k, (forall req, req ∈ reqs -> req_key req <> k) ->
          Get db' fs k = Returns (EmptyString, Some ErrNotFound) /\
          GetInt64 db' fs k = Returns (0, Some ErrNotFound)) /\
       (forall before req after,
          reqs = before ++ req :: after ->
          (forall req', req' ∈ after -> req_key req' <> req_key req) ->
          (req_valueType req = TypeString ->
           Get db' fs (req_key req) = Returns (req_value req, None)) /\
          (req_valueType req = TypeInt64 ->
           GetInt64 db' fs (req_key req) = Returns (req_int64Value req, None)))).
Proof.
  intros Hreqs.
  destruct (run_log order reqs (fresh_db threshold) fresh_fs [] (holds_log_fresh threshold))
    as (db & fs & Hrun & Hlog).
  { eapply Forall_impl; [exact Hreqs|]. cbn beta. by intros req (? & ? & _). }
  cbn [app] in Hlog. set (log := omap request_entry reqs) in *.
  exists db, fs. split; [done|]. split; [|split].
  - destruct Hlog as ((_ & Ho & _) & _). unfold Close. by rewrite Ho.
  - intros Htotal p c Hp Hc.
    destruct (holds_log_files db fs log p c Hlog Hp Hc) as (_ & _ & _ & Hle). lia.
  - intros Hsmall.
    assert (Hfrom : forall r, r ∈ log -> exists req, req ∈ reqs /\ request_entry req = Some r).
    { intros r Hr. by apply list_elem_of_omap in Hr. }
    assert (Hrec : Forall is_record log).
    { apply Forall_forall. intros r Hr.
      destruct (Hfrom r Hr) as (req & Hreq & He).
      rewrite Forall_forall in Hreqs. destruct (Hreqs req Hreq) as (_ & _ & Hv).
      apply (request_entry_record req); [done| |done].
      assert (len (Encode r) <= defaultBufSize); [|unfold defaultBufSize in *; lia].
      destruct (holds_log_member db fs log r Hlog Hr) as (p & c & rs & Hp & Hc & -> & Hin).
      pose proof (Hsmall p _ Hp Hc). pose proof (len_record_member r rs Hin). lia. }
    destruct (reopen_scan db fs log threshold' Hlog Hrec Hsmall)
      as (db' & Hopen & Hstep & Hmax & Hnone & Hlast).
    exists db'. split; [done|]. split; [done|]. split; [done|]. split.
    + intros k Hk. unfold Get, GetInt64. rewrite Hnone; [done|].
      intros r Hr. destruct (Hfrom r Hr) as (req & Hreq & He).
      rewrite (request_entry_key req r He). by apply Hk.
    + intros before req after Hsplit Hafter.
      rewrite Forall_forall in Hreqs.
      destruct (Hreqs req) as (_ & [e He] & _).
      { rewrite Hsplit. apply elem_of_app. right. by left. }
      assert (Hl : log = omap request_entry before ++ e :: omap request_entry after).
      { unfold log. rewrite Hsplit, omap_app.
        change (omap request_entry (req :: after))
          with (match request_entry req with
                | Some y => y :: omap request_entry after
                | None => omap request_entry after
                end).
        by rewrite He. }
      destruct (Hlast _ e _ Hl) as [Hat Hsize].
      { intros r' Hr'. apply list_elem_of_omap in Hr' as (req' & Hreq' & He').
        rewrite (request_entry_key req' r' He'), (request_entry_key req e He).
        by apply Hafter. }
      rewrite Forall_forall in Hrec.
      assert (Hre : is_record e).
      { apply Hrec. rewrite Hl. apply elem_of_app. right. by left. }
      destruct (Get_entry_at db' fs (key e) e Hat Hre Hsize) as [Hget Hgeti].
      rewrite (request_entry_key req e He) in Hget, Hgeti.
      destruct (request_entry_value req e He) as [Hstr Hint].
      split; intros Ht.
      * destruct (Hstr Ht) as [Hvt <-]. by apply Hget.
      * destruct (Hint Ht) as [Hvt <-]. by apply Hgeti.
Qed.

Lemma written_data_persists_witness :
  exists db fs,
    run map_to_list
      (map (pair write_ok) [mkRequest "a" "1" 0 TypeString;
                            mkRequest "n" EmptyString 7 TypeInt64;
                            mkRequest "a" "2" 0 TypeString])
      (fresh_db 20) fresh_fs
    = Returns (db, fs) /\
    Close db fs = (set_out db (Some handle_closed) (outOffset db), fs, None) /\
    (len (file_of_records (omap request_entry [mkRequest "a" "1" 0 TypeString;
                                               mkRequest "n" EmptyString 7 TypeInt64;
                                               mkRequest "a" "2" 0 TypeString]))
     <= defaultBufSize ->
     forall p c, data_file p -> fs !! p = Some c -> len c <= defaultBufSize) /\
    ((forall p c, data_file p -> fs !! p = Some c -> len c <= defaultBufSize) ->
     exists db',
       OpenWithMaxSegmentSize fs 100 = Returns (db', fs, None) /\
       offset_in_step db' fs /\
       maxSegmentSize db' = 100 /\
       (forall k, (forall req, req ∈ [mkRequest "a" "1" 0 TypeString;
                                      mkRequest "n" EmptyString 7 TypeInt64;
                                      mkRequest "a" "2" 0 TypeString] -> req_key req <> k) ->
          Get db' fs k = Returns (EmptyString, Some ErrNotFound) /\
          GetInt64 db' fs k = Returns (0, Some ErrNotFound)) /\
       (forall before req after,
          [mkRequest "a" "1" 0 TypeString; mkRequest "n" EmptyString 7 TypeInt64;
           mkRequest "a" "2" 0 TypeString] = before ++ req :: after ->
          (forall req', req' ∈ after -> req_key req' <> req_key req) ->
          (req_valueType req = TypeString ->
           Get db' fs (req_key req) = Returns (req_value req, None)) /\
          (req_valueType req = TypeInt64 ->
           GetInt64 db' fs (req_key req) = Returns (req_int64Value req, None)))).
Proof.
  apply (written_data_persists map_to_list 20 100
           [mkRequest "a" "1" 0 TypeString; mkRequest "n" EmptyString 7 TypeInt64;
            mkRequest "a" "2" 0 TypeString]).
  apply Forall_cons. split.
  { split; [discriminate|]. split; [by eexists | cbn [req_int64Value]; lia]. }
  apply Forall_cons. split.
  { split; [discriminate|]. split; [by eexists | cbn [req_int64Value]; lia]. }
  apply Forall_cons. split.
  { split; [discriminate|]. split; [by eexists | cbn [req_int64Value]; lia]. }
  apply Forall_nil_2.
Defined.

(** ** Records beyond the reader's buffer, and the HTTP front-end *)

Lemma readEntryFromFile_too_long (content : list byte) (off : Z) (r : entry)
    (rest : list byte) :
  0 <= off ->
  drop (Z.to_nat off) content = Encode r ++ rest ->
  len (Encode r) < 2 ^ 32 ->
  defaultBufSize < len (Encode r) ->
  readEntryFromFile content off
  = Returns (zero_entry, Some (ErrIncompleteRead (len (Encode r)) defaultBufSize)).
Proof.
  intros Hoff Hdrop Hfit Hbig. unfold readEntryFromFile.
  replace (off <? 0) with false by (symmetry; apply Z.ltb_ge; lia).
  by rewrite Hdrop, DecodeFromReader_too_long.
Qed.

Lemma Get_entry_at_too_long (db : Db) (fs : FS) (k : string) (r : entry) :
  entry_at db fs k r ->
  len (Encode r) < 2 ^ 32 ->
  defaultBufSize < len (Encode r) ->
  Get db fs k
  = Returns (EmptyString, Some (ErrIncompleteRead (len (Encode r)) defaultBufSize)) /\
  GetInt64 db fs k
  = Returns (0, Some (ErrIncompleteRead (len (Encode r)) defaultBufSize)).
Proof.
  intros (ie & content & rest & Hidx & _ & Hoff & Hfile & Hdrop) Hfit Hbig.
  pose proof (readEntryFromFile_too_long content (offset ie) r rest Hoff Hdrop Hfit Hbig)
    as Hread.
  unfold Get, GetInt64. by rewrite Hidx, Hfile, Hread.
Qed.

(** X22: a record whose encoding is longer than the reader's buffer is
    written but cannot be read.  The request succeeds and the record
    stands in the active file where the index says; [Get] and
    [GetInt64] of its key then fail with "incomplete read", and go on
    failing after any later requests under other keys. *)
Theorem record_beyond_buffer_unreadable (order : gmap string entry -> list (string * entry))
    (db : Db) (fs : FS) (req : putRequest) (e : entry)
    (reqs : list (write_fault * putRequest)) :
  offset_in_step db fs ->
  req_key req <> MERGE ->
  request_entry req = Some e ->
  len (Encode e) < 2 ^ 32 ->
  defaultBufSize < len (Encode e) ->
  Forall (fun wr => req_key (snd wr) <> req_key req /\ req_key (snd wr) <> MERGE) reqs ->
  exists db1 fs1 db2 fs2,
    handlePut order write_ok db fs req = Returns (db1, fs1, None) /\
    entry_at db1 fs1 (req_key req) e /\
    run order reqs db1 fs1 = Returns (db2, fs2) /\
    Get db2 fs2 (req_key req)
    = Returns (EmptyString, Some (ErrIncompleteRead (len (Encode e)) defaultBufSize)) /\
    GetInt64 db2 fs2 (req_key req)
    = Returns (0, Some (ErrIncompleteRead (len (Encode e)) defaultBufSize)).
Proof.
  intros Hstep Hk He Hfit Hbig Hreqs.
  destruct (handlePut_written order db fs req e Hstep Hk He) as (db1 & fs1 & Hput & Hat & _).
  destruct (run_entry_at order reqs db1 fs1 (req_key req) e Hat Hreqs)
    as (db2 & fs2 & Hrun & Hat2).
  exists db1, fs1, db2, fs2. split; [done|]. split; [done|]. split; [done|].
  by apply Get_entry_at_too_long.
Qed.

Lemma record_beyond_buffer_unreadable_witness :
  exists db1 fs1 db2 fs2,
    handlePut map_to_list write_ok (fresh_db 20) fresh_fs
      (mkRequest "k" (string_of (repeat "a"%byte 4083)) 0 TypeString)
    = Returns (db1, fs1, None) /\
    entry_at db1 fs1 (req_key (mkRequest "k" (string_of (repeat "a"%byte 4083)) 0 TypeString))
      big_record /\
    run map_to_list [(write_ok, mkRequest "b" "2" 0 TypeString)] db1 fs1
    = Returns (db2, fs2) /\
    Get db2 fs2 (req_key (mkRequest "k" (string_of (repeat "a"%byte 4083)) 0 TypeString))
    = Returns (EmptyString, Some (ErrIncompleteRead (len (Encode big_record)) defaultBufSize)) /\
    GetInt64 db2 fs2 (req_key (mkRequest "k" (string_of (repeat "a"%byte 4083)) 0 TypeString))
    = Returns (0, Some (ErrIncompleteRead (len (Encode big_record)) defaultBufSize)).
Proof.
  apply (record_beyond_buffer_unreadable map_to_list (fresh_db 20) fresh_fs
           (mkRequest "k" (string_of (repeat "a"%byte 4083)) 0 TypeString) big_record
           [(write_ok, mkRequest "b" "2" 0 TypeString)]).
  - split; [reflexivity|]. exists []. split; reflexivity.
  - discriminate.
  - reflexivity.
  - vm_compute. reflexivity.
  - vm_compute. reflexivity.
  - apply Forall_cons. split; [split; discriminate | apply Forall_nil_2].
Defined.

(** X23: what [GET /db/<key>] answers for a key whose index entry
    points to a record.  A record that fits the reader's buffer is
    handed out as JSON when the request names its type (no [type]
    parameter stands for [string]) and is "Not found", status 404,
    when it names the other type; a record beyond the buffer is "Not
    found" under either type, as is a key without an index entry; and
    any other [type] parameter is a bad request, status 400. *)
Theorem handleGet_answers (db : Db) (fs : FS) (k : string) (r : entry) :
  entry_at db fs k r ->
  k <> EmptyString ->
  len (Encode r) < 2 ^ 32 ->
  (is_record r -> len (Encode r) <= defaultBufSize -> valueType r = TypeString ->
   handleGet db fs k EmptyString = Returns (http_json k (string_value (stringValue r))) /\
   handleGet db fs k "string" = Returns (http_json k (string_value (stringValue r))) /\
   handleGet db fs k "int64" = Returns (http_error "Not found" StatusNotFound)) /\
  (is_record r -> len (Encode r) <= defaultBufSize -> valueType r = TypeInt64 ->
   handleGet db fs k "int64" = Returns (http_json k (int64_value (int64Value r))) /\
   handleGet db fs k EmptyString = Returns (http_error "Not found" StatusNotFound) /\
   handleGet db fs k "string" = Returns (http_error "Not found" StatusNotFound)) /\
  (defaultBufSize < len (Encode r) ->
   handleGet db fs k "int64" = Returns (http_error "Not found" StatusNotFound) /\
   handleGet db fs k EmptyString = Returns (http_error "Not found" StatusNotFound) /\
   handleGet db fs k "string" = Returns (http_error "Not found" StatusNotFound)) /\
  (forall k', k' <> EmptyString -> index db !! k' = None ->
   handleGet db fs k' "int64" = Returns (http_error "Not found" StatusNotFound) /\
   handleGet db fs k' EmptyString = Returns (http_error "Not found" StatusNotFound)) /\
  (forall t, t <> EmptyString -> t <> "int64"%string -> t <> "string"%string ->
   handleGet db fs k t = Returns (http_error "Invalid type parameter" StatusBadRequest)).
Proof.
  intros Hat Hk Hfit.
  assert (Hkey : forall k', k' <> EmptyString -> String.eqb k' EmptyString = false).
  { intros k' H. by apply String.eqb_neq. }
  unfold handleGet. rewrite (Hkey k Hk).
  change (String.eqb EmptyString EmptyString) with true.
  change (String.eqb "string" EmptyString) with false.
  change (String.eqb "int64" EmptyString) with false.
  change (String.eqb "string" "int64") with false.
  change (String.eqb "int64" "int64") with true.
  change (String.eqb "string" "string") with true. cbv iota zeta.
  split; [|split; [|split; [|split]]].
  - intros Hr Hsize Ht.
    destruct (Get_entry_at db fs k r Hat Hr Hsize) as [Hget _].
    destruct (Get_entry_at_mismatch db fs k r Hat Hr Hsize) as [Hmis _].
    by rewrite (Hget Ht), (Hmis Ht).
  - intros Hr Hsize Ht.
    destruct (Get_entry_at db fs k r Hat Hr Hsize) as [_ Hget].
    destruct (Get_entry_at_mismatch db fs k r Hat Hr Hsize) as [_ Hmis].
    by rewrite (Hget Ht), (Hmis Ht).
  - intros Hbig. destruct (Get_entry_at_too_long db fs k r Hat Hfit Hbig) as [-> ->]. done.
  - intros k' Hk' Hnone. rewrite (Hkey k' Hk'). unfold Get, GetInt64. by rewrite Hnone.
  - intros t Ht Hi Hs.
    apply String.eqb_neq in Ht, Hi, Hs. by rewrite Ht, Hi, Hs.
Qed.

Lemma handleGet_answers_witness :
  handleGet (mkDb {[ "n" := mkIndexEntry 0 0 ]} 10 0 [] (Some handle_open) 18)
    {[ current_data := Encode (mkEntry "n" TypeInt64 EmptyString 42) ]} "n" "int64"
  = Returns (http_json "n" (int64_value 42)) /\
  handleGet (mkDb {[ "n" := mkIndexEntry 0 0 ]} 10 0 [] (Some handle_open) 18)
    {[ current_data := Encode (mkEntry "n" TypeInt64 EmptyString 42) ]} "n" EmptyString
  = Returns (http_error "Not found" StatusNotFound) /\
  handleGet (mkDb {[ "n" := mkIndexEntry 0 0 ]} 10 0 [] (Some handle_open) 18)
    {[ current_data := Encode (mkEntry "n" TypeInt64 EmptyString 42) ]} "n" "string"
  = Returns (http_error "Not found" StatusNotFound).
Proof.
  destruct (handleGet_answers (mkDb {[ "n" := mkIndexEntry 0 0 ]} 10 0 [] (Some handle_open) 18)
              {[ current_data := Encode (mkEntry "n" TypeInt64 EmptyString 42) ]} "n"
              (mkEntry "n" TypeInt64 EmptyString 42)) as (_ & H & _).
  - exists (mkIndexEntry 0 0), (Encode (mkEntry "n" TypeInt64 EmptyString 42)), [].
    repeat split; try reflexivity; cbn [segmentID activeSegmentID offset]; lia.
  - discriminate.
  - vm_compute. reflexivity.
  - apply H.
    + split; [vm_compute; reflexivity|]. right. repeat split; cbn [int64Value]; lia.
    + vm_compute. discriminate.
    + reflexivity.
Defined.

(** ** After a short write *)

(** X24: a short write shifts the next record.  When the append of a
    request fails after [written] bytes, [handlePut] reports the error
    and leaves [outOffset] where it was, but the bytes stay in the
    active file.  The next request that is written to this segment is
    appended behind them, while its index entry gets the stale offset:
    the entry points to the leftover of the failed write, [written]
    bytes before the record, and [outOffset] stays behind the size of
    the file by as much. *)
Theorem short_write_shifts_next_record (order : gmap string entry -> list (string * entry))
    (db : Db) (fs : FS) (req1 req2 : putRequest) (e1 e2 : entry) (written : nat)
    (c : list byte) :
  out db = Some handle_open ->
  fs !! current_data = Some c ->
  outOffset db = len c ->
  outOffset db < maxSegmentSize db ->
  req_key req1 <> MERGE ->
  req_key req2 <> MERGE ->
  request_entry req1 = Some e1 ->
  request_entry req2 = Some e2 ->
  (0 < written <= length (Encode e1))%nat ->
  exists fs1 db2 fs2,
    handlePut order (write_fails written) db fs req1 = Returns (db, fs1, Some ErrWrite) /\
    fs1 !! current_data = Some (c ++ take written (Encode e1)) /\
    handlePut order write_ok db fs1 req2 = Returns (db2, fs2, None) /\
    fs2 !! current_data = Some (c ++ take written (Encode e1) ++ Encode e2) /\
    index db2 !! req_key req2 = Some (mkIndexEntry (activeSegmentID db) (len c)) /\
    outOffset db2 = len c + len (Encode e2) /\
    outOffset db2 + Z.of_nat written = len (c ++ take written (Encode e1) ++ Encode e2) /\
    ~ offset_in_step db2 fs2.
Proof.
  intros Ho Hc Hoff Hroom Hk1 Hk2 He1 He2 Hw.
  assert (Hput1 : handlePut order (write_fails written) db fs req1
                  = Returns (db, <[current_data := c ++ take written (Encode e1)]> fs,
                             Some ErrWrite)).
  { unfold handlePut.
    destruct (String.eqb_spec (req_key req1) MERGE) as [|_]; [done|].
    replace (maxSegmentSize db <=? outOffset db) with false by (symmetry; apply Z.leb_gt; lia).
    unfold append_entry, out_Write. rewrite He1, Ho, Hc. done. }
  set (fs1 := <[current_data := c ++ take written (Encode e1)]> fs) in *.
  assert (Hc1 : fs1 !! current_data = Some (c ++ take written (Encode e1)))
    by apply lookup_insert_eq.
  assert (Hput2 : handlePut order write_ok db fs1 req2
                  = Returns (set_out (set_index db (<[req_key req2 :=
                                         mkIndexEntry (activeSegmentID db) (outOffset db)]>
                                         (index db)))
                               (Some handle_open) (outOffset db + len (Encode e2)),
                             <[current_data := (c ++ take written (Encode e1)) ++ Encode e2]> fs1,
                             None)).
  { unfold handlePut.
    destruct (String.eqb_spec (req_key req2) MERGE) as [|_]; [done|].
    replace (maxSegmentSize db <=? outOffset db) with false by (symmetry; apply Z.leb_gt; lia).
    by apply append_entry_ok. }
  assert (Hlen : len (c ++ take written (Encode e1) ++ Encode e2)
                 = len c + Z.of_nat written + len (Encode e2)).
  { rewrite !len_app. unfold len at 2. rewrite length_take. lia. }
  eexists fs1, _, _. split; [exact Hput1|]. split; [exact Hc1|]. split; [exact Hput2|].
  cbn [set_out set_index index outOffset]. rewrite Hoff.
  split; [by rewrite lookup_insert_eq, <- app_assoc|].
  split; [by rewrite lookup_insert_eq|]. split; [done|]. split; [lia|].
  intros (_ & c' & Hc' & Hoff'). cbn [set_out outOffset] in Hoff'.
  rewrite lookup_insert_eq in Hc'. inversion Hc'; subst c'.
  rewrite <- app_assoc, Hlen in Hoff'. lia.
Qed.

Lemma short_write_shifts_next_record_witness :
  exists fs1 db2 fs2,
    handlePut map_to_list (write_fails 5) (fresh_db 20) fresh_fs
      (mkRequest "a" "1" 0 TypeString)
    = Returns (fresh_db 20, fs1, Some ErrWrite) /\
    fs1 !! current_data = Some ([] ++ take 5 (Encode (mkEntry "a" TypeString "1" 0))) /\
    handlePut map_to_list write_ok (fresh_db 20) fs1 (mkRequest "b" "2" 0 TypeString)
    = Returns (db2, fs2, None) /\
    fs2 !! current_data
    = Some ([] ++ take 5 (Encode (mkEntry "a" TypeString "1" 0))
               ++ Encode (mkEntry "b" TypeString "2" 0)) /\
    index db2 !! req_key (mkRequest "b" "2" 0 TypeString)
    = Some (mkIndexEntry (activeSegmentID (fresh_db 20)) (len [])) /\
    outOffset db2 = len [] + len (Encode (mkEntry "b" TypeString "2" 0)) /\
    outOffset db2 + Z.of_nat 5
    = len ([] ++ take 5 (Encode (mkEntry "a" TypeString "1" 0))
              ++ Encode (mkEntry "b" TypeString "2" 0)) /\
    ~ offset_in_step db2 fs2.
Proof.
  apply (short_write_shifts_next_record map_to_list (fresh_db 20) fresh_fs
           (mkRequest "a" "1" 0 TypeString) (mkRequest "b" "2" 0 TypeString)
           (mkEntry "a" TypeString "1" 0) (mkEntry "b" TypeString "2" 0) 5 []).
  - reflexivity.
  - reflexivity.
  - reflexivity.
  - cbn [outOffset maxSegmentSize fresh_db]. lia.
  - discriminate.
  - discriminate.
  - reflexivity.
  - reflexivity.
  - vm_compute. split; lia.
Defined.

(** ** Merging what was written *)

Lemma handlePut_index_other (order : gmap string entry -> list (string * entry))
    (w : write_fault) (db : Db) (fs : FS) (req : putRequest) (k : string)
    (db' : Db) (fs' : FS) (err : option error) :
  req_key req <> MERGE ->
  req_key req <> k ->
  handlePut order w db fs req = Returns (db', fs', err) ->
  index db' !! k = index db !! k.
Proof.
  intros Hm Hk. unfold handlePut.
  destruct (String.eqb_spec (req_key req) MERGE) as [|_]; [done|].
  assert (Happ : forall db1 fs1, append_entry w db1 fs1 req = Returns (db', fs', err) ->
            index db' !! k = index db1 !! k).
  { intros db1 fs1. unfold append_entry. destruct (request_entry req) as [e|].
    - cbv zeta. destruct (out_Write db1 w fs1 (Encode e)) as [[fs2 n] [e2|]];
        intros H; inversion H; subst; [done|].
      cbn [set_out set_index index]. by rewrite lookup_insert_ne.
    - intros H. by inversion H. }
  destruct (maxSegmentSize db <=? outOffset db).
  - pose proof (rotateActiveSegment_index db fs) as Hidx.
    destruct (rotateActiveSegment db fs) as [[db1 fs1] [e1|]]; cbn [fst] in Hidx.
    + intros H. inversion H; subst. by rewrite Hidx.
    + intros H. rewrite (Happ db1 fs1 H). by rewrite Hidx.
  - apply Happ.
Qed.

Lemma handlePut_reads_log (order : gmap string entry -> list (string * entry))
    (db : Db) (fs : FS) (log : list entry) (req : putRequest) (e : entry)
    (db' : Db) (fs' : FS) :
  offset_in_step db fs ->
  reads_log db fs log ->
  req_key req <> MERGE ->
  request_entry req = Some e ->
  handlePut order write_ok db fs req = Returns (db', fs', None) ->
  reads_log db' fs' (log ++ [e]).
Proof.
  intros Hstep [Hnone Hlast] Hm He Hput.
  pose proof (request_entry_key req e He) as Hkey.
  destruct (handlePut_written order db fs req e Hstep Hm He) as (db1 & fs1 & Hput1 & Hat & _).
  rewrite Hput in Hput1. injection Hput1 as <- <-.
  split.
  - intros k Hk.
    rewrite (handlePut_index_other order write_ok db fs req k db' fs' None Hm); [|  |done].
    + apply Hnone. intros r Hr. apply Hk. apply elem_of_app. by left.
    + rewrite <- Hkey. apply Hk. apply elem_of_app. right. by left.
  - intros before r after Hl Hafter.
    destruct after as [|x after _] using rev_ind.
    + apply app_inj_tail in Hl as [_ <-]. by rewrite Hkey.
    + rewrite app_comm_cons, app_assoc in Hl. apply app_inj_tail in Hl as [Hl <-].
      assert (Hne : key e <> key r).
      { apply Hafter. apply elem_of_app. right. by left. }
      destruct (handlePut_entry_at order write_ok db fs req (key r) r)
        as (db2 & fs2 & err & Hput2 & Hat2); [| by rewrite <- Hkey | done |].
      * apply (Hlast before r after); [done|].
        intros r' Hr'. apply Hafter. apply elem_of_app. by left.
      * rewrite Hput in Hput2. by injection Hput2 as <- <- _.
Qed.

Lemma reads_log_fresh (threshold : Z) : reads_log (fresh_db threshold) fresh_fs [].
Proof.
  split; [done|]. intros before r after H. by destruct before.
Qed.

Lemma run_reads_log (order : gmap string entry -> list (string * entry))
    (reqs : list putRequest) (db : Db) (fs : FS) (log : list entry) :
  holds_log db fs log ->
  reads_log db fs log ->
  Forall (fun req => req_key req <> MERGE /\ is_Some (request_entry req)) reqs ->
  exists db' fs',
    run order (map (pair write_ok) reqs) db fs = Returns (db', fs') /\
    holds_log db' fs' (log ++ omap request_entry reqs) /\
    reads_log db' fs' (log ++ omap request_entry reqs).
Proof.
  intros Hlog Hreads Hreqs. revert db fs log Hlog Hreads.
  induction Hreqs as [|req reqs [Hk [e He]] _ IH]; intros db fs log Hlog Hreads.
  - exists db, fs. split; [done|]. by rewrite app_nil_r.
  - destruct (handlePut_log order db fs log req e Hlog Hk He) as (db1 & fs1 & Hput & Hlog1).
    assert (Hreads1 : reads_log db1 fs1 (log ++ [e])).
    { apply (handlePut_reads_log order db fs log req e db1 fs1); try done. apply Hlog. }
    cbn [map run fst snd]. rewrite Hput. cbn [obind fst snd].
    destruct (IH db1 fs1 _ Hlog1 Hreads1) as (db' & fs' & Hrun & Hlog' & Hreads').
    exists db', fs'. split; [done|].
    change (omap request_entry (req :: reqs))
      with (match request_entry req with
            | Some y => y :: omap request_entry reqs
            | None => omap request_entry reqs
            end).
    rewrite He. rewrite <- app_assoc in Hlog', Hreads'. by split.
Qed.

(** A merge of a store that holds a log keeps the index answering for
    the log. *)
Lemma mergeSegments_log (order : gmap string entry -> list (string * entry))
    (db : Db) (fs : FS) (log : list entry) :
  (forall m, order m ≡ₚ map_to_list m) ->
  holds_log db fs log ->
  reads_log db fs log ->
  Forall is_record log ->
  len (file_of_records log) <= defaultBufSize ->
  exists db' fs',
    mergeSegments order db fs = Returns (db', fs', None) /\
    reads_log db' fs' log /\
    fs' !! current_data = fs !! current_data /\
    activeSegmentID db' = activeSegmentID db /\
    outOffset db' = outOffset db /\
    (segments db' = segments db \/ length (segments db') = 1%nat) /\
    fst (Size db' fs') <= fst (Size db fs).
Proof.
  intros Hord Hlog Hreads Hrec Htotal.
  pose proof Hlog as (Hint & Hstep & Hsorted & Hlisted & recs & Hrecs & Hl).
  pose proof Hint as ([c Hc] & Ho & Hs).
  assert (Hsmall : forall p c', data_file p -> fs !! p = Some c' -> len c' <= defaultBufSize).
  { intros p c' Hp Hc'.
    destruct (holds_log_files db fs log p c' Hlog Hp Hc') as (_ & _ & _ & Hle). lia. }
  assert (Hin_log : forall p r, data_file p -> r ∈ recs p -> r ∈ log).
  { intros p r Hp Hr. rewrite <- Hl. apply elem_of_app.
    destruct Hp as [->|[i ->]]; [by right|]. left.
    specialize (Hrecs (segment_file i)).
    destruct (fs !! segment_file i) as [c'|] eqn:E.
    - destruct (Hlisted i) as (seg & Hseg & Hid); [by rewrite E; eexists|].
      apply elem_of_sealed_records. exists seg. split; [done|].
      rewrite Forall_forall in Hs. destruct (Hs seg Hseg) as [_ ->]. by rewrite Hid.
    - rewrite Hrecs in Hr by (right; by eexists). by apply elem_of_nil in Hr. }
  assert (Hfs : holds_records fs recs).
  { intros p Hp. split; [|split; [|by apply Hrecs]].
    - apply Forall_forall. intros r Hr. rewrite Forall_forall in Hrec.
      apply Hrec. by apply (Hin_log p).
    - specialize (Hrecs p Hp). destruct (fs !! p) as [c'|] eqn:E.
      + rewrite <- Hrecs. by apply (Hsmall p).
      + rewrite Hrecs. vm_compute. discriminate. }
  assert (Hdata : Forall (fun seg => data_file (filePath seg)) (segments db)).
  { eapply Forall_impl; [exact Hs|]. cbn beta. intros seg [_ ->]. right. by eexists. }
  destruct (decide (sealed_records recs (segments db) = [])) as [Esealed|Hsealed].
  - exists db, fs. split.
    + unfold mergeSegments. rewrite (collect_segments_scan fs recs) by done.
      rewrite Esealed. cbn [obind snd fst latest_entries foldl].
      destruct (decide (size (∅ : gmap string entry) = 0%nat)) as [|Hne]; [done|].
      by rewrite map_size_empty in Hne.
    + split; [done|]. split; [done|]. split; [done|]. split; [done|]. split; [by left | lia].
  - destruct (mergeSegments_scan order db fs recs Hord Hint Hsorted Hlisted Hfs)
      as (db' & fs' & first & Hm & Hhead & Hsegs' & Ha & Ho' & Hoff & Hmax & Hcur & Hgone
          & Hsz & Hnone & Hlast).
    { rewrite <- (len_sealed_records fs recs) by done.
      rewrite <- Hl, file_of_records_app, len_app in Htotal.
      pose proof (len_nonneg (file_of_records (recs current_data))). lia. }
    { destruct (sealed_records recs (segments db)) as [|r0 sealed] eqn:Esealed; [done|].
      assert (Hr0 : r0 ∈ sealed_records recs (segments db)) by (rewrite Esealed; by left).
      apply elem_of_sealed_records in Hr0 as (seg & Hseg & Hr0). by exists seg, r0. }
    exists db', fs'. split; [done|]. split; [|split; [done|]; split; [done|]; split; [done|]].
    + split.
      * intros k Hk. apply Hnone. intros p r Hp Hr. apply Hk. by apply (Hin_log p).
      * intros before r after Hsplit Hafter. rewrite Hsplit in Hl.
        destruct (newest_in_log db fs recs before r after)
          as (p & bf & af & Hp & Hr & Haf & Hnew); try done.
        by apply (Hlast p bf r af).
    + split; [|done]. right. by rewrite Hsegs'.
Qed.

(** X25: a merge keeps what was written.  Requests with a supported
    type and a key other than the reserved one, whose records together
    fit the reader's buffer, are written to a store opened on an empty
    directory, under any threshold; then a request under the reserved
    key runs the merge.  The merge succeeds, whatever value, type and
    write fault the request carries; it leaves the active file as it
    is and the sealed list as it is or with one segment; [Size] does
    not grow; a key no request wrote is not found, and every other key
    reads as the value of the last request that wrote it, by the
    accessor of that request's type. *)
Theorem merge_after_writes (order : gmap string entry -> list (string * entry))
    (threshold : Z) (reqs : list putRequest)
    (w : write_fault) (v : string) (i : Z) (t : byte) :
  (forall m, order m ≡ₚ map_to_list m) ->
  Forall (fun req => req_key req <> MERGE /\ is_Some (request_entry req) /\
                     - 2 ^ 63 <= req_int64Value req < 2 ^ 63) reqs ->
  len (file_of_records (omap request_entry reqs)) <= defaultBufSize ->
  exists db fs db' fs',
    run order (map (pair write_ok) reqs) (fresh_db threshold) fresh_fs = Returns (db, fs) /\
    handlePut order w db fs (mkRequest MERGE v i t) = Returns (db', fs', None) /\
    fs' !! current_data = fs !! current_data /\
    (segments db' = segments db \/ length (segments db') = 1%nat) /\
    fst (Size db' fs') <= fst (Size db fs) /\
    (forall k, (forall req, req ∈ reqs -> req_key req <> k) ->
       Get db' fs' k = Returns (EmptyString, Some ErrNotFound) /\
       GetInt64 db' fs' k = Returns (0, Some ErrNotFound)) /\
    (forall before req after,
       reqs = before ++ req :: after ->
       (forall req', req' ∈ after -> req_key req' <> req_key req) ->
       (req_valueType req = TypeString ->
        Get db' fs' (req_key req) = Returns (req_value req, None)) /\
       (req_valueType req = TypeInt64 ->
        GetInt64 db' fs' (req_key req) = Returns (req_int64Value req, None))).
Proof.
  intros Hord Hreqs Htotal.
  destruct (run_reads_log order reqs (fresh_db threshold) fresh_fs []
              (holds_log_fresh threshold) (reads_log_fresh threshold))
    as (db & fs & Hrun & Hlog & Hreads).
  { eapply Forall_impl; [exact Hreqs|]. cbn beta. by intros req (? & ? & _). }
  cbn [app] in Hlog, Hreads. set (log := omap request_entry reqs) in *.
  assert (Hfrom : forall r, r ∈ log -> exists req, req ∈ reqs /\ request_entry req = Some r).
  { intros r Hr. by apply list_elem_of_omap in Hr. }
  assert (Hlen : forall r, r ∈ log -> len (Encode r) <= defaultBufSize).
  { intros r Hr. pose proof (len_record_member r log Hr). lia. }
  assert (Hrec : Forall is_record log).
  { apply Forall_forall. intros r Hr.
    destruct (Hfrom r Hr) as (req & Hreq & He).
    rewrite Forall_forall in Hreqs. destruct (Hreqs req Hreq) as (_ & _ & Hv).
    apply (request_entry_record req); [done| |done].
    specialize (Hlen r Hr). unfold defaultBufSize in Hlen. lia. }
  destruct (mergeSegments_log order db fs log Hord Hlog Hreads Hrec Htotal)
    as (db' & fs' & Hm & [Hnone Hlast] & Hcur & _ & _ & Hsegs & Hsz).
  exists db, fs, db', fs'. split; [done|]. split.
  { unfold handlePut. cbn [req_key]. by rewrite String.eqb_refl. }
  split; [done|]. split; [done|]. split; [done|]. split.
  - intros k Hk. unfold Get, GetInt64. rewrite Hnone; [done|].
    intros r Hr. destruct (Hfrom r Hr) as (req & Hreq & He).
    rewrite (request_entry_key req r He). by apply Hk.
  - intros before req after Hsplit Hafter.
    rewrite Forall_forall in Hreqs.
    destruct (Hreqs req) as (_ & [e He] & _).
    { rewrite Hsplit. apply elem_of_app. right. by left. }
    assert (Hl : log = omap request_entry before ++ e :: omap request_entry after).
    { unfold log. rewrite Hsplit, omap_app.
      change (omap request_entry (req :: after))
        with (match request_entry req with
              | Some y => y :: omap request_entry after
              | None => omap request_entry after
              end).
      by rewrite He. }
    assert (He_in : e ∈ log) by (rewrite Hl; apply elem_of_app; right; by left).
    assert (Hat : entry_at db' fs' (key e) e).
    { apply (Hlast _ e _ Hl).
      intros r' Hr'. apply list_elem_of_omap in Hr' as (req' & Hreq' & He').
      rewrite (request_entry_key req' r' He'), (request_entry_key req e He).
      by apply Hafter. }
    rewrite Forall_forall in Hrec.
    destruct (Get_entry_at db' fs' (key e) e Hat (Hrec e He_in) (Hlen e He_in)) as [Hget Hgeti].
    rewrite (request_entry_key req e He) in Hget, Hgeti.
    destruct (request_entry_value req e He) as [Hstr Hint].
    split; intros Ht.
    + destruct (Hstr Ht) as [Hvt <-]. by apply Hget.
    + destruct (Hint Ht) as [Hvt <-]. by apply Hgeti.
Qed.

Lemma merge_after_writes_witness :
  exists db fs db' fs',
    run map_to_list
      (map (pair write_ok) [mkRequest "a" "1" 0 TypeString;
                            mkRequest "n" EmptyString 7 TypeInt64;
                            mkRequest "a" "2" 0 TypeString])
      (fresh_db 20) fresh_fs
    = Returns (db, fs) /\
    handlePut map_to_list write_ok db fs (mkRequest MERGE EmptyString 0 TypeString)
    = Returns (db', fs', None) /\
    fs' !! current_data = fs !! current_data /\
    (segments db' = segments db \/ length (segments db') = 1%nat) /\
    fst (Size db' fs') <= fst (Size db fs) /\
    (forall k, (forall req, req ∈ [mkRequest "a" "1" 0 TypeString;
                                   mkRequest "n" EmptyString 7 TypeInt64;
                                   mkRequest "a" "2" 0 TypeString] -> req_key req <> k) ->
       Get db' fs' k = Returns (EmptyString, Some ErrNotFound) /\
       GetInt64 db' fs' k = Returns (0, Some ErrNotFound)) /\
    (forall before req after,
       [mkRequest "a" "1" 0 TypeString; mkRequest "n" EmptyString 7 TypeInt64;
        mkRequest "a" "2" 0 TypeString] = before ++ req :: after ->
       (forall req', req' ∈ after -> req_key req' <> req_key req) ->
       (req_valueType req = TypeString ->
        Get db' fs' (req_key req) = Returns (req_value req, None)) /\
       (req_valueType req = TypeInt64 ->
        GetInt64 db' fs' (req_key req) = Returns (req_int64Value req, None))).
Proof.
  apply (merge_after_writes map_to_list 20
           [mkRequest "a" "1" 0 TypeString; mkRequest "n" EmptyString 7 TypeInt64;
            mkRequest "a" "2" 0 TypeString] write_ok EmptyString 0 TypeString).
  - intros m. reflexivity.
  - apply Forall_cons. split.
    { split; [discriminate|]. split; [by eexists | cbn [req_int64Value]; lia]. }
    apply Forall_cons. split.
    { split; [discriminate|]. split; [by eexists | cbn [req_int64Value]; lia]. }
    apply Forall_cons. split.
    { split; [discriminate|]. split; [by eexists | cbn [req_int64Value]; lia]. }
    apply Forall_nil_2.
  - vm_compute. discriminate.
Defined.

(** ** A record across the end of the reader's buffer *)

(** The complete records at the head of the buffer are scanned without
    a look at the stream behind it. *)
Lemma index_records_prefix (rs : list entry) (tail src : list byte) (fuel : nat)
    (off sid : Z) (idx : hashIndex) :
  Forall is_record rs ->
  index_records (length rs + fuel) (mkReader src (file_of_records rs ++ tail) None) off sid idx
  = index_records fuel (mkReader src tail None) (off + len (file_of_records rs)) sid
      (index_of_records sid off rs idx).
Proof.
  intros Hrs. revert off idx. induction Hrs as [|r rs Hr Hrs IH]; intros off idx.
  - cbn [length plus file_of_records map concat app index_of_records].
    change (len []) with 0. by rewrite Z.add_0_r.
  - cbn [length plus index_records]. rewrite file_of_records_cons, <- app_assoc.
    destruct (DecodeFromReader_buffered zero_entry
                (mkReader src (Encode r ++ file_of_records rs ++ tail) None) r
                (file_of_records rs ++ tail) eq_refl Hr) as (e' & o & Hdec & ->).
    rewrite (Decode_Encode r Hr) in Hdec. injection Hdec as <- <-.
    cbn [obind rd rerr index_of_records]. rewrite IH, len_app. by rewrite Z.add_assoc.
Qed.

(** A record of which the buffer holds the size field but not the end
    is cut short. *)
Lemma DecodeFromReader_cut (e : entry) (b : Reader) (r : entry) :
  take 4 (buf b) = take 4 (Encode r) ->
  4 <= len (buf b) < len (Encode r) ->
  len (Encode r) < 2 ^ 32 ->
  DecodeFromReader e b
  = Returns (mkReader (rd b) [] (rerr b), e, len (buf b),
             Some (ErrIncompleteRead (len (Encode r)) (len (buf b)))).
Proof.
  intros Hhead Hlen Hfit. pose proof (len_Encode_pos r) as H13.
  unfold DecodeFromReader, Peek.
  rewrite peek_fill_enough by lia.
  change (defaultBufSize <? 4) with false. cbv iota.
  replace (len (buf b) <? 4) with false by (symmetry; apply Z.ltb_ge; lia).
  change (Z.to_nat 4) with 4%nat. rewrite Hhead, le_get_Encode by done.
  replace (len (Encode r) <? 9) with false by (symmetry; apply Z.ltb_ge; lia).
  unfold Read.
  replace (len (Encode r) =? 0) with false by (symmetry; apply Z.eqb_neq; lia).
  destruct (buf b) as [|x l] eqn:Eb.
  { unfold len in Hlen. simpl in Hlen. lia. }
  assert (Hle : (length (x :: l) <= Z.to_nat (len (Encode r)))%nat)
    by (unfold len in *; lia).
  rewrite (take_ge (x :: l)), (drop_ge (x :: l)) by exact Hle.
  replace (len (x :: l) =? len (Encode r)) with false by (symmetry; apply Z.eqb_neq; lia).
  done.
Qed.

Lemma index_records_load (fuel : nat) (src : list byte) (off sid : Z) (idx : hashIndex) :
  4 <= len (take (Z.to_nat defaultBufSize) src) ->
  index_records (S fuel) (NewReader src) off sid idx
  = index_records (S fuel) (mkReader (drop (Z.to_nat defaultBufSize) src)
                              (take (Z.to_nat defaultBufSize) src) None) off sid idx.
Proof. intros H. cbn [index_records]. by rewrite DecodeFromReader_fresh. Qed.

Lemma indexSegmentFile_cut (fs : FS) (p : path) (sid : Z) (idx : hashIndex)
    (rs : list entry) (r : entry) (rest : list byte) :
  fs !! p = Some (file_of_records rs ++ Encode r ++ rest) ->
  Forall is_record rs ->
  len (Encode r) < 2 ^ 32 ->
  len (file_of_records rs) + 4 <= defaultBufSize ->
  defaultBufSize < len (file_of_records rs) + len (Encode r) ->
  indexSegmentFile fs p sid idx
  = Returns (index_of_records sid 0 rs idx,
             Some (ErrIncompleteRead (len (Encode r))
                     (defaultBufSize - len (file_of_records rs)))).
Proof.
  intros Hp Hrs Hfit Hin Hout. unfold indexSegmentFile. rewrite Hp.
  set (content := file_of_records rs ++ Encode r ++ rest).
  set (m := (Z.to_nat defaultBufSize - length (file_of_records rs))%nat).
  assert (Hm : Z.of_nat m = defaultBufSize - len (file_of_records rs)).
  { unfold m, len in *. lia. }
  assert (Htake : take (Z.to_nat defaultBufSize) content
                  = file_of_records rs ++ take m (Encode r)).
  { unfold content. rewrite take_app_ge by (unfold len in *; lia). f_equal.
    apply take_app_le. unfold len in *. lia. }
  assert (Hlen_tail : len (take m (Encode r)) = defaultBufSize - len (file_of_records rs)).
  { unfold len at 1. rewrite length_take. unfold len in *. lia. }
  rewrite index_records_load.
  2: { rewrite Htake, len_app, Hlen_tail. pose proof (len_nonneg (file_of_records rs)). lia. }
  rewrite Htake.
  pose proof (length_records rs) as Hcount.
  assert (Hfuel : exists fuel, S (length content) = (length rs + S fuel)%nat).
  { exists (length content - length rs)%nat.
    assert (length (file_of_records rs) <= length content)%nat; [|lia].
    unfold content. rewrite length_app. lia. }
  destruct Hfuel as [fuel ->].
  rewrite index_records_prefix by done. cbn [index_records].
  rewrite (DecodeFromReader_cut zero_entry _ r); cbn [buf rd rerr].
  - cbn [obind is_EOF]. rewrite Hlen_tail. done.
  - rewrite take_take. f_equal. unfold len in *. lia.
  - rewrite Hlen_tail. lia.
  - done.
Qed.

Lemma no_segments_listed (names : list path) :
  (forall i, segment_file i ∉ names) ->
  omap segment_of names = [] /\ max_seen (-1) names = -1.
Proof.
  induction names as [|name names IH]; intros H; [done|].
  assert (Hrest : forall i, segment_file i ∉ names).
  { intros i Hi. apply (H i). by right. }
  destruct (IH Hrest) as [IH1 IH2].
  destruct name as [|i| |n]; try (split; [exact IH1 | exact IH2]).
  exfalso. apply (H i). by left.
Qed.

(** X26: a record across the end of the reader's buffer stops the
    scan.  When a file holds records and then a record that starts at
    least four bytes before the 4096th byte of the file and ends
    behind it, [indexSegmentFile] indexes the records before it and
    fails with "incomplete read" (expected the length of the record,
    got the bytes of it that the buffer holds).  A directory whose
    only data file is such a [current-data] cannot be opened:
    [OpenWithMaxSegmentSize] fails with that error, reported for
    segment 0. *)
Theorem record_across_buffer_stops_scan (fs : FS) (p : path) (sid : Z) (idx : hashIndex)
    (rs : list entry) (r : entry) (rest : list byte) :
  fs !! p = Some (file_of_records rs ++ Encode r ++ rest) ->
  Forall is_record rs ->
  len (Encode r) < 2 ^ 32 ->
  len (file_of_records rs) + 4 <= defaultBufSize ->
  defaultBufSize < len (file_of_records rs) + len (Encode r) ->
  (exists idx',
     indexSegmentFile fs p sid idx
     = Returns (idx', Some (ErrIncompleteRead (len (Encode r))
                              (defaultBufSize - len (file_of_records rs)))) /\
     forall k, (forall r', r' ∈ rs -> key r' <> k) -> idx' !! k = idx !! k) /\
  (p = current_data ->
   (forall i, fs !! segment_file i = None) ->
   forall threshold, exists db,
     OpenWithMaxSegmentSize fs threshold
     = Returns (db, fs,
                Some (ErrIndexSegment 0
                        (ErrIncompleteRead (len (Encode r))
                           (defaultBufSize - len (file_of_records rs)))))).
Proof.
  intros Hp Hrs Hfit Hin Hout. split.
  - exists (index_of_records sid 0 rs idx). split; [by apply (indexSegmentFile_cut _ _ _ _ _ _ rest)|].
    intros k Hk. by apply index_of_records_other.
  - intros -> Hnone threshold.
    unfold OpenWithMaxSegmentSize, openActiveSegment.
    rewrite loadExistingSegments_closed.
    destruct (no_segments_listed (ReadDir fs)) as [-> ->].
    { intros i Hi. apply elem_of_ReadDir in Hi. rewrite Hnone in Hi. by destruct Hi. }
    rewrite Hp. cbn [default]. rewrite (insert_id fs current_data _ Hp).
    unfold rebuildIndex.
    cbn [set_out set_segments segments out activeSegmentID map app sort_by foldr insert_by
         index_segments fst snd].
    rewrite (indexSegmentFile_cut fs current_data (-1 + 1) ∅ rs r rest) by done.
    cbn [obind snd fst]. by eexists.
Qed.

Lemma record_across_buffer_stops_scan_witness :
  (exists idx',
     indexSegmentFile
       {[ current_data := file_of_records [mkEntry "a" TypeString "1" 0]
                          ++ Encode big_record ++ [] ]} current_data 0 ∅
     = Returns (idx', Some (ErrIncompleteRead (len (Encode big_record))
                              (defaultBufSize
                               - len (file_of_records [mkEntry "a" TypeString "1" 0])))) /\
     forall k, (forall r', r' ∈ [mkEntry "a" TypeString "1" 0] -> key r' <> k) ->
       idx' !! k = (∅ : hashIndex) !! k) /\
  (current_data = current_data ->
   (forall i, ({[ current_data := file_of_records [mkEntry "a" TypeString "1" 0]
                                  ++ Encode big_record ++ [] ]} : FS) !! segment_file i = None) ->
   forall threshold, exists db,
     OpenWithMaxSegmentSize
       {[ current_data := file_of_records [mkEntry "a" TypeString "1" 0]
                          ++ Encode big_record ++ [] ]} threshold
     = Returns (db,
                {[ current_data := file_of_records [mkEntry "a" TypeString "1" 0]
                                   ++ Encode big_record ++ [] ]},
                Some (ErrIndexSegment 0
                        (ErrIncompleteRead (len (Encode big_record))
                           (defaultBufSize
                            - len (file_of_records [mkEntry "a" TypeString "1" 0])))))).
Proof.
  apply (record_across_buffer_stops_scan _ current_data 0 ∅
           [mkEntry "a" TypeString "1" 0] big_record []).
  - apply lookup_singleton_eq.
  - apply Forall_cons. split; [split; [vm_compute; reflexivity | by left]|].
    apply Forall_nil_2.
  - vm_compute. reflexivity.
  - vm_compute. discriminate.
  - vm_compute. reflexivity.
Defined.

(** ** A merge whose result cannot be indexed *)

Lemma mergeSegments_rebuild_fails (order : gmap string entry -> list (string * entry))
    (db : Db) (fs : FS) (recs : path -> list entry) (first : segmentInfo)
    (rest : list segmentInfo) (o1 : list (string * entry)) (k0 : string) (r0 : entry)
    (o2 : list (string * entry)) :
  (forall m, order m ≡ₚ map_to_list m) ->
  segment_integrity db fs ->
  holds_records fs recs ->
  segments db = first :: rest ->
  order (latest_entries (sealed_records recs (segments db)) ∅) = o1 ++ (k0, r0) :: o2 ->
  len (file_of_records o1.*2) + 4 <= defaultBufSize ->
  defaultBufSize < len (file_of_records o1.*2) + len (Encode r0) ->
  exists db' fs',
    mergeSegments order db fs
    = Returns (db', fs',
               Some (ErrRebuildAfterMerge
                       (ErrIndexSegment (id first)
                          (ErrIncompleteRead (len (Encode r0))
                             (defaultBufSize - len (file_of_records o1.*2)))))) /\
    index db' = index db /\
    activeSegmentID db' = activeSegmentID db /\
    segments db' = [mkSegment (id first) (segment_file (id first)) true] /\
    fs' !! current_data = fs !! current_data /\
    fs' !! segment_file (id first) = Some (file_of_records (o1 ++ (k0, r0) :: o2).*2) /\
    (forall seg, seg ∈ rest -> id seg <> id first -> fs' !! segment_file (id seg) = None).
Proof.
  intros Hord (Hcur & Hout & Hsegs) Hfs Esegs Horder Hin Hout'.
  rewrite Esegs in Hsegs, Horder.
  assert (Hdata : Forall (fun seg => data_file (filePath seg)) (first :: rest)).
  { eapply Forall_impl; [exact Hsegs|]. cbn beta. intros seg [_ ->]. right. by eexists. }
  assert (Hpaths : Forall (fun seg => filePath seg = segment_file (id seg)) (first :: rest)).
  { eapply Forall_impl; [exact Hsegs|]. cbn beta. by intros seg [_ ->]. }
  rewrite Forall_forall in Hsegs.
  destruct (Hsegs first) as [Hfirst_lt Hfirst_path]; [by left|].
  unfold mergeSegments. rewrite Esegs.
  rewrite (collect_segments_scan fs recs (first :: rest)) by done.
  cbn [obind snd fst].
  set (ke := latest_entries (sealed_records recs (first :: rest)) ∅) in *.
  assert (Hke_in : forall k r, ke !! k = Some r ->
            exists seg, seg ∈ first :: rest /\ r ∈ recs (filePath seg)).
  { intros k r H. apply latest_entries_inv in H as [[Hr _]|H]; [|by rewrite lookup_empty in H].
    by apply elem_of_sealed_records. }
  assert (Hrecord : forall k r, (k, r) ∈ order ke -> is_record r).
  { intros k r Hr. rewrite Hord in Hr. apply elem_of_map_to_list in Hr.
    destruct (Hke_in k r Hr) as (seg & Hseg & Hrin).
    destruct (Hfs (filePath seg)) as (Hrec & _).
    { rewrite Forall_forall in Hdata. by apply Hdata. }
    rewrite Forall_forall in Hrec. by apply Hrec. }
  assert (Hnonempty : size ke <> 0%nat).
  { intros H0. apply map_size_empty_inv in H0.
    pose proof (Hord ke) as Hp. rewrite Horder in Hp. rewrite H0, map_to_list_empty in Hp.
    apply Permutation_nil_r in Hp. by destruct o1. }
  destruct (decide (size ke = 0%nat)) as [|_]; [done|].
  rewrite merged_content, Horder.
  set (merged := file_of_records (o1 ++ (k0, r0) :: o2).*2).
  assert (Hmerged : merged = file_of_records o1.*2 ++ Encode r0 ++ file_of_records o2.*2).
  { unfold merged. by rewrite fmap_app, fmap_cons, file_of_records_app, file_of_records_cons. }
  set (fs2 := foldl _ (<[temp_merge := merged]> fs) (first :: rest)).
  assert (Htemp : fs2 !! temp_merge = Some merged).
  { unfold fs2. rewrite lookup_foldl_delete; [apply lookup_insert_eq|].
    eapply Forall_impl; [exact Hpaths|]. cbn beta. by intros seg ->. }
  unfold rename. rewrite Htemp.
  set (fs3 := <[filePath first := merged]> (delete temp_merge fs2)).
  assert (Hfs3_cur : fs3 !! current_data = fs !! current_data).
  { unfold fs3, fs2. rewrite Hfirst_path, lookup_insert_ne, lookup_delete_ne by done.
    rewrite lookup_foldl_delete; [by rewrite lookup_insert_ne|].
    eapply Forall_impl; [exact Hpaths|]. cbn beta. by intros seg ->. }
  assert (Hfs3_first : fs3 !! filePath first = Some merged) by apply lookup_insert_eq.
  assert (Hscan : indexSegmentFile fs3 (filePath first) (id first) ∅
                  = Returns (index_of_records (id first) 0 o1.*2 ∅,
                             Some (ErrIncompleteRead (len (Encode r0))
                                     (defaultBufSize - len (file_of_records o1.*2))))).
  { apply (indexSegmentFile_cut fs3 _ _ _ _ _ (file_of_records o2.*2)); try done.
    - by rewrite Hfs3_first, Hmerged.
    - apply Forall_forall. intros r Hr.
      apply list_elem_of_fmap in Hr as ([k r'] & -> & Hr). apply (Hrecord k).
      rewrite Horder. apply elem_of_app. by left.
    - apply (Hrecord k0). rewrite Horder. apply elem_of_app. right. by left. }
  unfold rebuildIndex. cbn [set_segments out segments activeSegmentID]. rewrite Hout.
  cbn [map app sort_by foldr insert_by id filePath fst].
  replace (id first <? activeSegmentID db) with true by (symmetry; apply Z.ltb_lt; lia).
  cbn [index_segments fst snd]. rewrite Hscan. cbn [obind snd fst].
  eexists _, _. split; [reflexivity|]. split; [done|]. split; [done|].
  split; [cbn [segments]; by rewrite Hfirst_path|]. split; [done|].
  split; [by rewrite <- Hfirst_path|].
  intros seg Hseg Hne. unfold fs3. rewrite Hfirst_path.
  rewrite lookup_insert_ne, lookup_delete_ne by congruence. unfold fs2.
  destruct (lookup_foldl_delete_cases (<[temp_merge := merged]> fs) (first :: rest)
              (segment_file (id seg))) as [[_ ->]|[Hnotin _]]; [done|].
  exfalso. apply Hnotin. apply list_elem_of_fmap. exists seg. split; [|by right].
  symmetry. apply (Hsegs seg). by right.
Qed.

(** X27: a merge whose result cannot be indexed leaves a stale index.
    When the sealed segments hold records and fit the reader's buffer
    one by one, but the merged file has a record across the end of
    the buffer, [mergeSegments] has removed the sealed files and put
    the merged file in the place of the first before the rebuild of
    the index fails; it returns that error and keeps the index it
    had.  A key whose entry points into one of the other segments can
    no longer be read: its file is gone.  A key whose entry points to
    the start of the first segment reads the first record of the
    merged file, whatever key that record belongs to. *)
Theorem merge_failure_leaves_stale_index
    (order : gmap string entry -> list (string * entry))
    (db : Db) (fs : FS) (recs : path -> list entry) (first : segmentInfo)
    (rest : list segmentInfo) (o1 : list (string * entry)) (k0 : string) (r0 : entry)
    (o2 : list (string * entry)) :
  (forall m, order m ≡ₚ map_to_list m) ->
  segment_integrity db fs ->
  holds_records fs recs ->
  segments db = first :: rest ->
  order (latest_entries (sealed_records recs (segments db)) ∅) = o1 ++ (k0, r0) :: o2 ->
  len (file_of_records o1.*2) + 4 <= defaultBufSize ->
  defaultBufSize < len (file_of_records o1.*2) + len (Encode r0) ->
  exists db' fs',
    mergeSegments order db fs
    = Returns (db', fs',
               Some (ErrRebuildAfterMerge
                       (ErrIndexSegment (id first)
                          (ErrIncompleteRead (len (Encode r0))
                             (defaultBufSize - len (file_of_records o1.*2)))))) /\
    index db' = index db /\
    segments db' = [mkSegment (id first) (segment_file (id first)) true] /\
    fs' !! current_data = fs !! current_data /\
    (forall k ie seg,
       index db !! k = Some ie -> seg ∈ rest -> id seg = segmentID ie ->
       id seg <> id first ->
       Get db' fs' k = Returns (EmptyString, Some ErrNotExist) /\
       GetInt64 db' fs' k = Returns (0, Some ErrNotExist)) /\
    (forall k k' r' o1',
       index db !! k = Some (mkIndexEntry (id first) 0) ->
       o1 = (k', r') :: o1' ->
       (valueType r' = TypeString -> Get db' fs' k = Returns (stringValue r', None)) /\
       (valueType r' = TypeInt64 -> GetInt64 db' fs' k = Returns (int64Value r', None))).
Proof.
  intros Hord Hint Hfs Esegs Horder Hin Hout.
  destruct (mergeSegments_rebuild_fails order db fs recs first rest o1 k0 r0 o2
              Hord Hint Hfs Esegs Horder Hin Hout)
    as (db' & fs' & Hm & Hidx & Hact & Hsegs' & Hcur & Hmerged & Hgone).
  destruct Hint as (_ & _ & Hsegs). rewrite Esegs, Forall_forall in Hsegs.
  exists db', fs'. split; [done|]. split; [done|]. split; [done|]. split; [done|]. split.
  - intros k ie seg Hk Hseg Hid Hne.
    assert (Hfile : file_of db' ie = segment_file (id seg)).
    { unfold file_of. rewrite Hact, <- Hid.
      destruct (Hsegs seg) as [Hlt _]; [by right|].
      by replace (id seg =? activeSegmentID db) with false by (symmetry; apply Z.eqb_neq; lia). }
    unfold Get, GetInt64. by rewrite Hidx, Hk, Hfile, (Hgone seg Hseg Hne).
  - intros k k' r' o1' Hk ->.
    destruct (Hsegs first) as [Hlt Hpath]; [by left|].
    assert (Hin_order : (k', r') ∈ order (latest_entries (sealed_records recs (segments db)) ∅)).
    { rewrite Horder. by left. }
    assert (Hrec : is_record r').
    { rewrite Hord in Hin_order. apply elem_of_map_to_list in Hin_order.
      apply latest_entries_inv in Hin_order as [[Hr _]|H]; [|by rewrite lookup_empty in H].
      apply elem_of_sealed_records in Hr as (seg & Hseg & Hr).
      rewrite Esegs in Hseg. destruct (Hsegs seg Hseg) as [_ Hp].
      destruct (Hfs (filePath seg)) as (Hall & _); [rewrite Hp; right; by eexists|].
      rewrite Forall_forall in Hall. by apply Hall. }
    apply Get_entry_at; [|done|].
    + exists (mkIndexEntry (id first) 0), (file_of_records (((k', r') :: o1') ++ (k0, r0) :: o2).*2),
             (file_of_records (o1' ++ (k0, r0) :: o2).*2).
      cbn [segmentID offset]. rewrite Hidx, Hact. split; [done|]. split; [lia|]. split; [done|].
      split; [|done]. unfold file_of. cbn [segmentID]. rewrite Hact.
      by replace (id first =? activeSegmentID db) with false by (symmetry; apply Z.eqb_neq; lia).
    + rewrite fmap_cons, file_of_records_cons, len_app in Hin.
      pose proof (len_nonneg (file_of_records o1'.*2)). cbn [snd] in Hin. lia.
Qed.

Lemma three_segments_hold : holds_records three_segments three_segments_records.
Proof.
  intros p [->|[i ->]].
  - split; [apply Forall_nil_2|]. split; [vm_compute; discriminate | vm_compute; reflexivity].
  - cbn [three_segments_records].
    destruct (Z.eqb_spec i 0) as [->|H0]; [|destruct (Z.eqb_spec i 1) as [->|H1];
      [|destruct (Z.eqb_spec i 2) as [->|H2]]].
    + split; [|split; [vm_compute; discriminate | vm_compute; reflexivity]].
      apply Forall_cons. split; [split; [vm_compute; reflexivity | by left]|]. apply Forall_nil_2.
    + split; [|split; [vm_compute; discriminate | vm_compute; reflexivity]].
      apply Forall_cons. split; [split; [vm_compute; reflexivity | by left]|]. apply Forall_nil_2.
    + split; [|split; [vm_compute; discriminate | vm_compute; reflexivity]].
      apply Forall_cons. split; [split; [vm_compute; reflexivity | by left]|]. apply Forall_nil_2.
    + split; [apply Forall_nil_2|]. split; [vm_compute; discriminate|].
      unfold three_segments. rewrite !lookup_insert_ne by congruence.
      by rewrite lookup_singleton_ne.
Qed.

Lemma merge_failure_leaves_stale_index_witness :
  exists db' fs',
    mergeSegments map_to_list three_segments_db three_segments
    = Returns (db', fs',
               Some (ErrRebuildAfterMerge
                       (ErrIndexSegment 0 (ErrIncompleteRead 1415 1266)))) /\
    Get three_segments_db three_segments "k2" = Returns (filler "b" 1400, None) /\
    Get db' fs' "k2" = Returns (EmptyString, Some ErrNotExist) /\
    Get three_segments_db three_segments "k1" = Returns (filler "a" 1400, None) /\
    Get db' fs' "k1" = Returns (filler "c" 1400, None).
Proof.
  destruct (merge_failure_leaves_stale_index map_to_list three_segments_db three_segments
              three_segments_records (mkSegment 0 (segment_file 0) true)
              [mkSegment 1 (segment_file 1) true; mkSegment 2 (segment_file 2) true]
              [("k3"%string, mkEntry "k3" TypeString (filler "c" 1400) 0);
               ("k1"%string, mkEntry "k1" TypeString (filler "a" 1400) 0)]
              "k2" (mkEntry "k2" TypeString (filler "b" 1400) 0) [])
    as (db' & fs' & Hm & _ & _ & _ & Hgone & Hfirst).
  - intros m. reflexivity.
  - split; [by eexists|]. split; [reflexivity|].
    repeat (apply Forall_cons; split; [cbn [id filePath activeSegmentID three_segments_db];
                                       split; [lia | reflexivity]|]).
    apply Forall_nil_2.
  - exact three_segments_hold.
  - reflexivity.
  - vm_compute. reflexivity.
  - vm_compute. discriminate.
  - vm_compute. reflexivity.
  - exists db', fs'. split; [exact Hm|]. split; [vm_compute; reflexivity|]. split.
    + apply (Hgone "k2" (mkIndexEntry 1 0) (mkSegment 1 (segment_file 1) true)).
      * reflexivity.
      * by left.
      * reflexivity.
      * discriminate.
    + split; [vm_compute; reflexivity|].
      apply (Hfirst "k1" "k3" (mkEntry "k3" TypeString (filler "c" 1400) 0)
               [("k1"%string, mkEntry "k1" TypeString (filler "a" 1400) 0)]);
        reflexivity.
Defined.
